(** * code-network-gen: the graph extractor and its deduplication, embedded in Rocq

    The repository ships three variants of one script:
    - [index.js] (module [Simple]): every call is attributed to a synthetic
      anonymous caller, the report is the deduplicated node and edge arrays;
    - the registry variant (module [Registry]): a [methodRegistry] resolves
      bare callee names, callers are looked for by [getEnclosingFunctionName],
      [deduplicate(nodes, edges)] keeps only referenced nodes;
    - the argument-tracking variant (module [Args]): [addEdge] materialises
      its endpoints as nodes and the edge type carries the rendered arguments.

    Arrays of objects are modelled as a store (a list of records) together with
    references (indices) into it, because [deduplicate] updates the [lines]
    field of objects that stay in the global [nodes] array. *)

From Stdlib Require Import String Ascii List Arith Lia Bool.
From stdpp Require Import base list strings pretty.

Set Warnings "-register-all".

Open Scope string_scope.
Open Scope list_scope.

(** ** JavaScript values as the scripts use them *)
Module Js.

(** A value in a boolean position: [null], [undefined] (both [None]) and the
    empty string are falsy, every other string is truthy. *)
Definition truthy (v : option string) : bool :=
  match v with
  | Some s => negb (String.eqb s "")
  | None => false
  end.

(** [a || b] *)
Definition or (a b : option string) : option string :=
  if truthy a then a else b.

(** A possibly undefined value inside a template literal. *)
Definition show (v : option string) : string :=
  match v with
  | Some s => s
  | None => "undefined"
  end.

(** [s.includes(sub)] *)
Definition includes (sub s : string) : bool :=
  match String.index 0 sub s with
  | Some _ => true
  | None => false
  end.

Definition drop (n : nat) (s : string) : string :=
  String.substring n (String.length s - n) s.

(** The text before and after the first occurrence of [sep] in [s]. *)
Fixpoint cut (sep s : string) : option (string * string) :=
  if String.prefix sep s then Some ("", drop (String.length sep) s)
  else match s with
       | EmptyString => None
       | String c s' =>
           match cut sep s' with
           | Some (before, after) => Some (String c before, after)
           | None => None
           end
       end.

(** [s.split(sep)[0]], for a non-empty separator. *)
Definition split_0 (sep s : string) : string :=
  match cut sep s with
  | Some (before, _) => before
  | None => s
  end.

(** [s.split(sep)[1]], for a non-empty separator: [undefined] when [sep]
    does not occur. *)
Definition split_1 (sep s : string) : option string :=
  match cut sep s with
  | Some (_, after) => Some (split_0 sep after)
  | None => None
  end.

(** A JS [Set] of strings, in insertion order. *)
Definition set_has (x : string) (s : list string) : bool :=
  existsb (String.eqb x) s.

Definition set_add (x : string) (s : list string) : list string :=
  if set_has x s then s else s ++ [x].

End Js.

(** ** The records pushed on the global arrays *)

(** [{ id, label, type, lines }]; [lines] is [null] for libraries and imported
    symbols and [undefined] for nodes made by [ensureNodeExists]. *)
Record node := Node {
  node_id : string;
  node_label : option string;
  node_type : string;
  node_lines : option string
}.

(** [{ source, target, type }] *)
Record edge := Edge {
  edge_source : string;
  edge_target : string;
  edge_type : string
}.

(** A reference to an object of a store. *)
Definition ref := nat.

(** Objects whose [lines] property is read, and possibly assigned, by the
    deduplication. *)
Class Lined (A : Type) := {
  lines_of : A -> option string;
  set_lines : option string -> A -> A
}.

#[global] Instance node_lined : Lined node := {|
  lines_of := node_lines;
  set_lines l n := Node (node_id n) (node_label n) (node_type n) l
|}.

(** An edge object has no [lines] property: reading it gives [undefined], and
    the assignment is guarded by that reading being truthy. *)
#[global] Instance edge_lined : Lined edge := {|
  lines_of _ := None;
  set_lines _ e := e
|}.

(** A JS [Map] from strings to object references, in insertion order. *)
Abbreviation jsmap := (list (string * ref)).

Fixpoint map_get (key : string) (m : jsmap) : option ref :=
  match m with
  | [] => None
  | (k, r) :: m' => if String.eqb k key then Some r else map_get key m'
  end.

Definition map_has (key : string) (m : jsmap) : bool :=
  match map_get key m with Some _ => true | None => false end.

(** [m.set(key, r)] for a key that [m] does not hold yet. *)
Definition map_set_new (key : string) (r : ref) (m : jsmap) : jsmap :=
  m ++ [(key, r)].

Definition map_values (m : jsmap) : list ref := map snd m.

(** [`${node.id}-${node.type}`] *)
Definition node_key (n : node) : string :=
  node_id n +:+ "-" +:+ node_type n.

(** [`${edge.source}-${edge.target}-${edge.type}`] *)
Definition edge_key (e : edge) : string :=
  edge_source e +:+ "-" +:+ edge_target e +:+ "-" +:+ edge_type e.

(** [existing.lines += `, ${item.lines}`] under the guard
    [item.lines && existing.lines]; otherwise [existing] is left as it is. *)
Definition merge_lines {A : Type} `{Lined A} (item existing : A) : A :=
  match lines_of item, lines_of existing with
  | Some il, Some el =>
      if Js.truthy (Some il) && Js.truthy (Some el)
      then set_lines (Some (el +:+ ", " +:+ il)) existing
      else existing
  | _, _ => existing
  end.

(** [Array.prototype.filter] with a callback that updates a state. *)
Fixpoint array_filter {S : Type} (cb : ref -> S -> bool * S)
    (array : list ref) (st : S) : list ref * S :=
  match array with
  | [] => ([], st)
  | r :: rest =>
      let '(keep, st1) := cb r st in
      let '(kept, st2) := array_filter cb rest st1 in
      (if keep then r :: kept else kept, st2)
  end.

(** ** [deduplicate(array, keyFn)] of index.js *)
Module SimpleDedup.
Section Deduplicate.
Context {A : Type} `{Lined A}.
Variable keyFn : A -> string.

(** The callback of [array.filter]: the state is the [seen] map and the
    store of the array's objects. A reference outside the store (there is
    none in the program) is skipped. *)
Definition callback (r : ref) (st : jsmap * list A) : bool * (jsmap * list A) :=
  let '(seen, h) := st in
  match h !! r with
  | None => (false, st)
  | Some item =>
      let key := keyFn item in
      match map_get key seen with
      | Some e =>
          match h !! e with
          | Some existing => (false, (seen, <[e := merge_lines item existing]> h))
          | None => (false, st)
          end
      | None => (true, (map_set_new key r seen, h))
      end
  end.

Definition deduplicate (array : list ref) (h : list A) : list ref * list A :=
  let '(kept, (_, h')) := array_filter callback array ([], h) in
  (kept, h').
End Deduplicate.
End SimpleDedup.

(** ** [deduplicate(nodes, edges)] of the registry and argument-tracking variants

    The two variants carry the same function, character for character. *)
Module GraphDedup.

(** The body of [nodes.forEach]. *)
Definition node_step (st : jsmap * list node) (r : ref) : jsmap * list node :=
  let '(uniqueNodes, h) := st in
  match h !! r with
  | None => st
  | Some n =>
      let key := node_key n in
      if negb (map_has key uniqueNodes) then (map_set_new key r uniqueNodes, h)
      else match map_get key uniqueNodes with
           | Some e =>
               match h !! e with
               | Some existingNode => (uniqueNodes, <[e := merge_lines n existingNode]> h)
               | None => st
               end
           | None => st
           end
  end.

(** The body of [edges.forEach], over the store [eh] of edge objects. *)
Definition edge_step (eh : list edge) (st : jsmap * list string) (r : ref)
    : jsmap * list string :=
  let '(uniqueEdges, referencedNodes) := st in
  match eh !! r with
  | None => st
  | Some e =>
      let key := edge_key e in
      if negb (map_has key uniqueEdges)
      then (map_set_new key r uniqueEdges,
            Js.set_add (edge_target e) (Js.set_add (edge_source e) referencedNodes))
      else st
  end.

Record result := Result {
  res_nodes : list ref;
  res_edges : list ref
}.

(** Returns the result and the store of node objects as the call leaves it. *)
Definition deduplicate (nodes : list ref) (h : list node)
    (edges : list ref) (eh : list edge) : result * list node :=
  let '(uniqueNodes, h') := fold_left node_step nodes ([], h) in
  let '(uniqueEdges, referencedNodes) := fold_left (edge_step eh) edges ([], []) in
  let filteredNodes :=
    List.filter (fun r => match h' !! r with
                     | Some n => Js.set_has (node_id n) referencedNodes
                     | None => false
                     end) (map_values uniqueNodes) in
  (Result filteredNodes (map_values uniqueEdges), h').

End GraphDedup.

(** ** The syntax tree as the visitors read it

    The parser and the tree walker are libraries outside the repository. A
    tree is presented as the sequence of nodes in the order the walker visits
    them; every node carries the fields the visitors read. Two visitors read
    [parent]: the parser writes no such property and the scripts assign none,
    so it is [None] at every node of a parsed tree. *)
Module Ast.

(** [node.loc.start.line] and [node.loc.end.line] *)
Record loc := Loc { start_line : nat; end_line : nat }.

Inductive specifier :=
| ImportSpecifier (imported_name : option string)
| ImportDefaultSpecifier
| ImportNamespaceSpecifier.

Inductive callee :=
| Identifier (name : string)
| OtherCallee.

(** An argument of a call. For a literal, [json] is what [JSON.stringify]
    makes of its value; [None] stands for a BigInt, which it refuses. *)
Inductive argument :=
| ArgIdentifier (name : string)
| ArgLiteral (json : option string)
| ArgMemberExpression (object_name property_name : option string)
| ArgOther (type : string).

(** A member of an object literal. *)
Inductive member :=
| MemberProperty (key_name : option string) (value_type : string) (l : loc)
| MemberSpread.

Inductive declaration :=
| ObjectExpression (properties : list member)
| OtherDeclaration.

(** The node types with a visitor, or looked for among the ancestors. An
    identifier's [name] is [None] where the source finds another kind of
    node in its place (a pattern, a computed or literal key); the [id] of a
    function or class declaration is [None] where it is [null]. *)
Inductive shape :=
| FunctionDeclaration (id : option string)
| ClassDeclaration (id : option string)
| MethodDefinition (key_name : option string)
| VariableDeclarator (id_name : option string) (init_type : option string)
| ImportDeclaration (source_value : string) (specifiers : list specifier)
| CallExpression (c : callee) (arguments : list argument)
| ArrowFunctionExpression
| ExportDefaultDeclaration (d : declaration)
| Property (key_name : option string) (value_type : string)
| Other.

Inductive node := Mk {
  shape_of : shape;
  loc_of : loc;
  parent : option node
}.

Definition t := list node.

End Ast.

(** A run that may throw: the state reached is kept either way. *)
Inductive outcome (S : Type) :=
| Done (s : S)
| Threw (s : S) (message : string).
Arguments Done {S} s.
Arguments Threw {S} s message.

Definition state_of {S : Type} (o : outcome S) : S :=
  match o with
  | Done s => s
  | Threw s _ => s
  end.

Inductive console_entry :=
| Log (text : string)
| Warn (text : string).

(** [walk.simple(ast, visitors)]: the visitor of each node in turn; a throwing
    visitor ends the walk. *)
Fixpoint walk_simple {S : Type} (visit : Ast.node -> S -> outcome S)
    (ast : Ast.t) (s : S) : outcome S :=
  match ast with
  | [] => Done s
  | n :: rest =>
      match visit n s with
      | Done s1 => walk_simple visit rest s1
      | Threw s1 m => Threw s1 m
      end
  end.

(** The message of the TypeError raised by reading [name] of [null]. *)
Definition null_name_error : string :=
  "Cannot read properties of null (reading 'name')".

(** The message of the TypeError raised by [JSON.stringify] on a BigInt. *)
Definition bigint_error : string :=
  "Do not know how to serialize a BigInt".

(** [`[${node.loc.start.line}-${node.loc.end.line}]`] *)
Definition lines_of_loc (l : Ast.loc) : string :=
  "[" +:+ pretty (Ast.start_line l) +:+ "-" +:+ pretty (Ast.end_line l) +:+ "]".

Definition is_function_literal (type : string) : bool :=
  String.eqb type "FunctionExpression" || String.eqb type "ArrowFunctionExpression".

(** ** The files and the scan, shared by the three variants

    [parseFile] and [scanDirectory] differ between the variants only in their
    [console.log] lines, which the registry variant has commented out. *)
Inductive fsentry :=
| FsFile (name content : string)
| FsDir (name : string) (entries : list fsentry)
| FsOther (name : string).

Section Scan.
Context {S : Type}.
(** Node's [path] module and [String.prototype.toLowerCase]. *)
Variable extname : string -> string.
Variable path_join : string -> string -> string.
Variable toLowerCase : string -> string.
(** [compiler.parseComponent(content).script]: the script block's content. *)
Variable parseComponent : string -> option string.
(** The variant's [parseJavaScript]. *)
Variable parseJavaScript : string -> string -> S -> outcome S * list console_entry.
Variable verbose : bool.

Definition console_log (text : string) : list console_entry :=
  if verbose then [Log text] else [].

Definition parseFile (filePath content : string) (s : S)
    : outcome S * list console_entry :=
  let ext := toLowerCase (extname filePath) in
  let l0 := console_log ("Parsing file: " +:+ filePath +:+ ", extension: " +:+ ext) in
  if String.eqb ext ".vue" then
    match parseComponent content with
    | Some script =>
        let '(o, l) := parseJavaScript filePath script s in
        (o, l0 ++ console_log "Vue file detected, parsing script content" ++ l)
    | None =>
        if Js.includes "<script setup>" content then
          match Js.split_1 "<script setup>" content with
          | Some piece =>
              let scriptContent := Js.split_0 "</script>" piece in
              let '(o, l) := parseJavaScript filePath scriptContent s in
              (o, l0 ++ console_log
                          "Vue file detected with <script setup>, parsing content" ++ l)
          | None =>
              (* not reached: [includes] has found the separator *)
              (Threw s "Cannot read properties of undefined (reading 'split')", l0)
          end
        else (Done s, l0 ++ console_log "Vue file has no script content")
    end
  else
    let '(o, l) := parseJavaScript filePath content s in
    (o, l0 ++ l).

Definition ignoreDirs : list string := ["node_modules"; ".git"; "build"; "dist"].
Definition allowedExtensions : list string := [".js"; ".jsx"; ".ts"; ".tsx"; ".vue"].

(** One round of the [for] loop of [scan] on a regular file. *)
Definition scan_file (dir file content : string) (s : S) : S * list console_entry :=
  let filePath := path_join dir file in
  let ext := toLowerCase (extname file) in
  if existsb (String.eqb ext) allowedExtensions then
    let l0 := console_log ("Processing file: " +:+ filePath) in
    match parseFile filePath content s with
    | (Done s1, l) => (s1, l0 ++ l)
    | (Threw s1 message, l) =>
        (s1, l0 ++ l ++ [Warn ("Warning: Error parsing " +:+ filePath +:+ ". " +:+ message)])
    end
  else (s, []).

(** [scan(dir)] over the entries [fs.readdirSync(dir)] lists. *)
Fixpoint scan_entry (dir : string) (e : fsentry) (s : S) : S * list console_entry :=
  match e with
  | FsFile file content => scan_file dir file content s
  | FsDir file entries =>
      if negb (existsb (String.eqb file) ignoreDirs) then
        (fix scan_list (es : list fsentry) (s : S) : S * list console_entry :=
           match es with
           | [] => (s, [])
           | e' :: es' =>
               let '(s1, l1) := scan_entry (path_join dir file) e' s in
               let '(s2, l2) := scan_list es' s1 in
               (s2, l1 ++ l2)
           end) entries s
      else (s, [])
  | FsOther _ => (s, [])
  end.

Fixpoint scan (dir : string) (entries : list fsentry) (s : S) : S * list console_entry :=
  match entries with
  | [] => (s, [])
  | e :: es =>
      let '(s1, l1) := scan_entry dir e s in
      let '(s2, l2) := scan dir es s1 in
      (s2, l1 ++ l2)
  end.

Definition scanDirectory (directory : string) (entries : list fsentry) (s : S)
    : S * list console_entry :=
  scan directory entries s.
End Scan.

(** The two global arrays. *)
Record state := State {
  nodes : list node;
  edges : list edge
}.

Definition push_node (n : node) (s : state) : state :=
  State (nodes s ++ [n]) (edges s).

Definition push_edge (e : edge) (s : state) : state :=
  State (nodes s) (edges s ++ [e]).

(** ** index.js *)
Module Simple.
Definition addNode (id : string) (label : option string) (type : string)
    (lines : option string) (s : state) : state :=
  push_node (Node id label type lines) s.

Definition addEdge (source target type : string) (s : state) : state :=
  push_edge (Edge source target type) s.

(** The body of [node.specifiers.forEach] in the [ImportDeclaration] visitor. *)
Definition import_specifier (fileName libraryName : string) (s : state)
    (sp : Ast.specifier) : state :=
  match sp with
  | Ast.ImportSpecifier imported_name =>
      let methodName := libraryName +:+ "/" +:+ Js.show imported_name in
      addEdge fileName methodName "imports"
        (addNode methodName imported_name "imported-method" None s)
  | _ => s
  end.

(** The body of [node.declaration.properties.forEach]. *)
Definition export_property (fileName : string) (s : state) (m : Ast.member) : state :=
  match m with
  | Ast.MemberProperty key_name value_type l =>
      if is_function_literal value_type
      then addNode (fileName +:+ ":" +:+ Js.show key_name) key_name "vue-method"
             (Some (lines_of_loc l)) s
      else s
  | Ast.MemberSpread => s
  end.

(** The visitors handed to [walk.simple], dispatched on the node's type. *)
Definition visit (fileName : string) (n : Ast.node) (s : state) : outcome state :=
  let lines := Some (lines_of_loc (Ast.loc_of n)) in
  match Ast.shape_of n with
  | Ast.FunctionDeclaration (Some name) =>
      Done (addNode (fileName +:+ ":" +:+ name) (Some name) "method" lines s)
  | Ast.FunctionDeclaration None => Threw s null_name_error
  | Ast.ImportDeclaration libraryName specifiers =>
      Done (fold_left (import_specifier fileName libraryName) specifiers
              (addNode libraryName (Some libraryName) "library" None s))
  | Ast.CallExpression (Ast.Identifier calleeName) _ =>
      let callerName :=
        fileName +:+ ":anonymous[" +:+ pretty (Ast.start_line (Ast.loc_of n)) +:+ "-"
          +:+ pretty (Ast.end_line (Ast.loc_of n)) +:+ "]" in
      Done (addEdge callerName calleeName "calls" s)
  | Ast.CallExpression Ast.OtherCallee _ => Done s
  | Ast.ArrowFunctionExpression =>
      Done (addNode (fileName +:+ ":arrow") (Some "arrow function") "method" lines s)
  | Ast.ClassDeclaration (Some name) =>
      Done (addNode (fileName +:+ ":" +:+ name) (Some name) "class" lines s)
  | Ast.ClassDeclaration None => Threw s null_name_error
  | Ast.MethodDefinition key_name =>
      Done (addNode (fileName +:+ ":" +:+ Js.show key_name) key_name "method" lines s)
  | Ast.VariableDeclarator id_name (Some init_type) =>
      if is_function_literal init_type
      then Done (addNode (fileName +:+ ":" +:+ Js.show id_name) id_name "method" lines s)
      else Done s
  | Ast.VariableDeclarator _ None => Done s
  | Ast.ExportDefaultDeclaration (Ast.ObjectExpression properties) =>
      Done (fold_left (export_property fileName) properties s)
  | Ast.ExportDefaultDeclaration Ast.OtherDeclaration => Done s
  | Ast.Property key_name value_type =>
      if is_function_literal value_type
      then Done (addNode (fileName +:+ ":" +:+ Js.show key_name) key_name "vue-method" lines s)
      else Done s
  | Ast.Other => Done s
  end.

Section Program.
(** [acorn.parse]: the tree, or the message of the error it throws. *)
Variable acorn_parse : string -> string + Ast.t.
Variable basename : string -> string.
Variable extname : string -> string.
Variable path_join : string -> string -> string.
Variable toLowerCase : string -> string.
Variable parseComponent : string -> option string.

Definition parseJavaScript (filePath content : string) (s : state)
    : outcome state * list console_entry :=
  match acorn_parse content with
  | inl message =>
      (Done s,
       [Warn ("Warning: Could not parse " +:+ filePath +:+ ". Error: " +:+ message)])
  | inr ast =>
      let fileName := basename filePath in
      (walk_simple (visit fileName) ast s, [])
  end.

Definition scanDirectory (directory : string) (entries : list fsentry) (s : state)
    : state * list console_entry :=
  scanDirectory extname path_join toLowerCase parseComponent parseJavaScript true
    directory entries s.
End Program.

(** What [displayResults] prints: the deduplicated nodes and edges. *)
Record report := Report {
  uniqueNodes : list node;
  uniqueEdges : list edge
}.

(** The objects a list of references stands for. *)
Definition deref {A : Type} (h : list A) (rs : list ref) : list A :=
  omap (fun r => h !! r) rs.

(** [displayResults()]: the global arrays hold one fresh object per push, so
    the i-th element of an array is the object of reference [i]. The state
    returned is the one the call leaves behind. *)
Definition displayResults (s : state) : report * state :=
  let '(ns, nh) := SimpleDedup.deduplicate node_key (seq 0 (length (nodes s))) (nodes s) in
  let '(es, eh) := SimpleDedup.deduplicate edge_key (seq 0 (length (edges s))) (edges s) in
  (Report (deref nh ns) (deref eh es), State nh eh).

End Simple.

(** ** The registry variant *)
Module Registry.

(** A value of [methodRegistry]. *)
Record info := Info {
  info_file : string;
  info_name : option string;
  info_type : string;
  info_lines : option string
}.

(** The arrays and [methodRegistry], a [Map] in insertion order. *)
Record rstate := RState {
  graph : state;
  methodRegistry : list (string * info)
}.

Definition registry_has (id : string) (reg : list (string * info)) : bool :=
  existsb (fun e => String.eqb (fst e) id) reg.

Definition addNode (file : string) (name : option string) (type : string)
    (lines : option string) (s : rstate) : rstate :=
  let id := file +:+ ":" +:+ Js.show name in
  let reg :=
    if negb (registry_has id (methodRegistry s))
    then methodRegistry s ++ [(id, Info file name type lines)]
    else methodRegistry s in
  RState (push_node (Node id name type lines) (graph s)) reg.

Definition addEdge (sourceFile sourceMethod targetFile targetMethod type : string)
    (s : rstate) : rstate :=
  let sourceId := sourceFile +:+ ":" +:+ sourceMethod in
  let targetId := targetFile +:+ ":" +:+ targetMethod in
  if registry_has targetId (methodRegistry s)
  then RState (push_edge (Edge sourceId targetId type) (graph s)) (methodRegistry s)
  else s.

(** The [while ((parent = parent.parent))] loop. *)
Fixpoint getEnclosingFunctionName (n : Ast.node) : string :=
  match n with
  | Ast.Mk _ _ None => "global"
  | Ast.Mk _ _ (Some p) =>
      match Ast.shape_of p with
      | Ast.FunctionDeclaration (Some name) => name
      | _ => getEnclosingFunctionName p
      end
  end.

(** The body of [methodRegistry.forEach] in the [CallExpression] visitor. *)
Definition call_entry (fileName parentFunction calleeName : string) (s : rstate)
    (entry : string * info) : rstate :=
  match info_name (snd entry) with
  | Some name =>
      if String.eqb name calleeName
      then addEdge fileName parentFunction (info_file (snd entry)) calleeName "calls" s
      else s
  | None => s
  end.

Definition export_property (fileName : string) (s : rstate) (m : Ast.member) : rstate :=
  match m with
  | Ast.MemberProperty key_name value_type l =>
      if is_function_literal value_type
      then addNode fileName key_name "vue-method" (Some (lines_of_loc l)) s
      else s
  | Ast.MemberSpread => s
  end.

Definition visit (fileName : string) (n : Ast.node) (s : rstate) : outcome rstate :=
  let lines := Some (lines_of_loc (Ast.loc_of n)) in
  match Ast.shape_of n with
  | Ast.FunctionDeclaration (Some name) =>
      Done (addNode fileName (Some name) "function" lines s)
  | Ast.FunctionDeclaration None => Threw s null_name_error
  | Ast.CallExpression (Ast.Identifier calleeName) _ =>
      let parentFunction := getEnclosingFunctionName n in
      Done (fold_left (call_entry fileName parentFunction calleeName)
              (methodRegistry s) s)
  | Ast.CallExpression Ast.OtherCallee _ => Done s
  | Ast.ArrowFunctionExpression =>
      Done (addNode fileName (Some "arrow function") "method" lines s)
  | Ast.ClassDeclaration (Some name) =>
      Done (addNode fileName (Some name) "class" lines s)
  | Ast.ClassDeclaration None => Threw s null_name_error
  | Ast.MethodDefinition key_name =>
      Done (addNode fileName key_name "method" lines s)
  | Ast.VariableDeclarator id_name (Some init_type) =>
      if is_function_literal init_type
      then Done (addNode fileName id_name "method" lines s)
      else Done s
  | Ast.VariableDeclarator _ None => Done s
  | Ast.ExportDefaultDeclaration (Ast.ObjectExpression properties) =>
      Done (fold_left (export_property fileName) properties s)
  | Ast.ExportDefaultDeclaration Ast.OtherDeclaration => Done s
  | Ast.Property key_name value_type =>
      if is_function_literal value_type
      then Done (addNode fileName key_name "vue-method" lines s)
      else Done s
  | Ast.ImportDeclaration _ _ => Done s
  | Ast.Other => Done s
  end.

Section Program.
Variable acorn_parse : string -> string + Ast.t.
Variable basename : string -> string.
Variable extname : string -> string.
Variable path_join : string -> string -> string.
Variable toLowerCase : string -> string.
Variable parseComponent : string -> option string.

Definition parseJavaScript (filePath content : string) (s : rstate)
    : outcome rstate * list console_entry :=
  match acorn_parse content with
  | inl message =>
      (Done s,
       [Warn ("Warning: Could not parse " +:+ filePath +:+ ". Error: " +:+ message)])
  | inr ast =>
      let fileName := basename filePath in
      (walk_simple (visit fileName) ast s, [])
  end.

Definition scanDirectory (directory : string) (entries : list fsentry) (s : rstate)
    : rstate * list console_entry :=
  scanDirectory extname path_join toLowerCase parseComponent parseJavaScript false
    directory entries s.
End Program.

(** The deduplicated graph with its references resolved. *)
Record report := Report {
  rep_nodes : list node;
  rep_edges : list edge
}.

Definition deref {A : Type} (h : list A) (rs : list ref) : list A :=
  omap (fun r => h !! r) rs.

(** [deduplicate(nodes, edges)] on the global arrays: one fresh object per
    push, so the i-th element is the object of reference [i]. *)
Definition deduplicate_globals (s : state) : report * state :=
  let '(r, nh) :=
    GraphDedup.deduplicate (seq 0 (length (nodes s))) (nodes s)
      (seq 0 (length (edges s))) (edges s) in
  (Report (deref nh (GraphDedup.res_nodes r)) (deref (edges s) (GraphDedup.res_edges r)),
   State nh (edges s)).

(** [node.label && !node.label.includes("anonymous")] *)
Definition label_shown (label : option string) : bool :=
  Js.truthy label && negb (Js.includes "anonymous" (Js.show label)).

(** [displayResults(filterAnonymous)]: the lists it prints. An edge object
    has no [label], so the filter on edges lets none through. *)
Definition displayResults (filterAnonymous : bool) (s : state) : report * state :=
  let '(r, s') := deduplicate_globals s in
  let filteredNodes :=
    if filterAnonymous
    then List.filter (fun n => label_shown (node_label n)) (rep_nodes r)
    else rep_nodes r in
  let filteredEdges :=
    if filterAnonymous
    then List.filter (fun _ : edge => label_shown None) (rep_edges r)
    else rep_edges r in
  (Report filteredNodes filteredEdges, s').

(** The rows below the header of [<output>_nodes.csv]; [join] writes [null]
    and [undefined] as the empty string. *)
Definition csv_field (v : option string) : string :=
  match v with Some x => x | None => "" end.

Definition node_row (n : node) : string :=
  String.concat "," [node_id n; csv_field (node_label n); node_type n;
                     csv_field (node_lines n)].

Definition edge_row (e : edge) : string :=
  String.concat "," [edge_source e; edge_target e; edge_type e].

(** The [try] block after the scan: [displayResults(false)], then, with
    [--output], a second [deduplicate(nodes, edges)] whose result is written
    out. Returns the printed report and the rows of the two files. *)
Definition report_and_save (output : bool) (s : state)
    : report * option (list string * list string) :=
  let '(printed, s1) := displayResults false s in
  if output then
    let '(r, _) := deduplicate_globals s1 in
    (printed, Some (List.map node_row (rep_nodes r), List.map edge_row (rep_edges r)))
  else (printed, None).

End Registry.

(** ** The argument-tracking variant *)
Module Args.

Definition addNode (id : string) (label : option string) (type : string)
    (lines : option string) (s : state) : state :=
  let type :=
    if String.eqb type "unknown" then
      if Js.includes ":" id then "function"
      else if Js.includes "/" id then "imported-method"
      else "variable"
    else type in
  push_node (Node id label type lines) s.

Definition ensureNodeExists (id : string) (label : option string) (type : string)
    (s : state) : state :=
  if negb (existsb (fun n => String.eqb (node_id n) id) (nodes s))
  then addNode id (Js.or (Js.or label (Js.split_1 ":" id)) (Some id))
         (Js.show (Js.or (Some type) (Some "unknown"))) None s
  else s.

Definition addEdge (source target type : string) (s : state) : state :=
  let s1 := ensureNodeExists source (Js.or (Js.split_1 ":" source) (Some source))
              "unknown" s in
  let s2 := ensureNodeExists target (Js.or (Js.split_1 ":" target) (Some target))
              "unknown" s1 in
  push_edge (Edge source target type) s2.

(** The [while ((parent = parent.parent))] loop of the [CallExpression]
    visitor: the caller found among the ancestors, if any. *)
Fixpoint enclosing (fileName : string) (n : Ast.node) : option string :=
  match n with
  | Ast.Mk _ _ None => None
  | Ast.Mk _ _ (Some p) =>
      match Ast.shape_of p with
      | Ast.FunctionDeclaration (Some name) => Some (fileName +:+ ":" +:+ name)
      | Ast.MethodDefinition key_name => Some (fileName +:+ ":" +:+ Js.show key_name)
      | _ => enclosing fileName p
      end
  end.

Definition callerName (fileName : string) (n : Ast.node) : string :=
  match enclosing fileName n with
  | Some name => name
  | None => fileName +:+ ":anonymous[" +:+ pretty (Ast.start_line (Ast.loc_of n)) +:+ "]"
  end.

(** The callback of [node.arguments.map]; [None] when [JSON.stringify] throws. *)
Definition render_argument (a : Ast.argument) : option string :=
  match a with
  | Ast.ArgIdentifier name => Some name
  | Ast.ArgLiteral json => json
  | Ast.ArgMemberExpression object_name property_name =>
      Some (Js.show object_name +:+ "." +:+ Js.show property_name)
  | Ast.ArgOther type => Some type
  end.

Fixpoint render_arguments (l : list Ast.argument) : option (list string) :=
  match l with
  | [] => Some []
  | a :: l' =>
      match render_argument a with
      | Some x =>
          match render_arguments l' with
          | Some xs => Some (x :: xs)
          | None => None
          end
      | None => None
      end
  end.

Definition import_specifier (fileName libraryName : string) (s : state)
    (sp : Ast.specifier) : state :=
  match sp with
  | Ast.ImportSpecifier imported_name =>
      let methodName := libraryName +:+ "/" +:+ Js.show imported_name in
      addEdge fileName methodName "imports"
        (addNode methodName imported_name "imported-method" None s)
  | _ => s
  end.

Definition export_property (fileName : string) (s : state) (m : Ast.member) : state :=
  match m with
  | Ast.MemberProperty key_name value_type l =>
      if is_function_literal value_type
      then addNode (fileName +:+ ":" +:+ Js.show key_name) key_name "vue-method"
             (Some (lines_of_loc l)) s
      else s
  | Ast.MemberSpread => s
  end.

(** The visitors. The object literal names [VariableDeclarator] twice; the
    later property, the one for function-valued initialisers, is the one
    the object holds. *)
Definition visit (fileName : string) (n : Ast.node) (s : state) : outcome state :=
  let lines := Some (lines_of_loc (Ast.loc_of n)) in
  match Ast.shape_of n with
  | Ast.FunctionDeclaration (Some name) =>
      Done (addNode (fileName +:+ ":" +:+ name) (Some name) "method" lines s)
  | Ast.FunctionDeclaration None => Threw s null_name_error
  | Ast.ImportDeclaration libraryName specifiers =>
      Done (fold_left (import_specifier fileName libraryName) specifiers
              (addNode libraryName (Some libraryName) "library" None s))
  | Ast.CallExpression (Ast.Identifier calleeName) arguments =>
      match render_arguments arguments with
      | Some rendered =>
          let args := String.concat ", " rendered in
          Done (addEdge (callerName fileName n) calleeName ("calls(" +:+ args +:+ ")") s)
      | None => Threw s bigint_error
      end
  | Ast.CallExpression Ast.OtherCallee _ => Done s
  | Ast.ArrowFunctionExpression =>
      Done (addNode (fileName +:+ ":arrow") (Some "arrow function") "method" lines s)
  | Ast.ClassDeclaration (Some name) =>
      Done (addNode (fileName +:+ ":" +:+ name) (Some name) "class" lines s)
  | Ast.ClassDeclaration None => Threw s null_name_error
  | Ast.MethodDefinition key_name =>
      Done (addNode (fileName +:+ ":" +:+ Js.show key_name) key_name "method" lines s)
  | Ast.VariableDeclarator id_name (Some init_type) =>
      if is_function_literal init_type
      then Done (addNode (fileName +:+ ":" +:+ Js.show id_name) id_name "method" lines s)
      else Done s
  | Ast.VariableDeclarator _ None => Done s
  | Ast.ExportDefaultDeclaration (Ast.ObjectExpression properties) =>
      Done (fold_left (export_property fileName) properties s)
  | Ast.ExportDefaultDeclaration Ast.OtherDeclaration => Done s
  | Ast.Property key_name value_type =>
      if is_function_literal value_type
      then Done (addNode (fileName +:+ ":" +:+ Js.show key_name) key_name "vue-method" lines s)
      else Done s
  | Ast.Other => Done s
  end.

Section Program.
Variable acorn_parse : string -> string + Ast.t.
Variable basename : string -> string.
Variable extname : string -> string.
Variable path_join : string -> string -> string.
Variable toLowerCase : string -> string.
Variable parseComponent : string -> option string.

Definition parseJavaScript (filePath content : string) (s : state)
    : outcome state * list console_entry :=
  match acorn_parse content with
  | inl message =>
      (Done s,
       [Warn ("Warning: Could not parse " +:+ filePath +:+ ". Error: " +:+ message)])
  | inr ast =>
      let fileName := basename filePath in
      (walk_simple (visit fileName) ast s, [])
  end.

Definition scanDirectory (directory : string) (entries : list fsentry) (s : state)
    : state * list console_entry :=
  scanDirectory extname path_join toLowerCase parseComponent parseJavaScript true
    directory entries s.
End Program.

End Args.

(** ** The deduplication loop as a state transformer, and what it is measured against *)

(** What the guarded [+=] makes of the representative's [lines], on values. *)
Definition merge_str (acc item : option string) : option string :=
  match item, acc with
  | Some il, Some el =>
      if Js.truthy (Some il) && Js.truthy (Some el)
      then Some (el +:+ ", " +:+ il)
      else acc
  | _, _ => acc
  end.

Section LoopModel.
Context {A : Type} `{Lined A}.
Variable keyFn : A -> string.

(** One round of the loop, as a state transformer. *)
Definition step (st : jsmap * list A) (r : ref) : jsmap * list A :=
  snd (SimpleDedup.callback keyFn r st).

(** The key of the object of [r]. *)
Definition key_at (h : list A) (r : ref) : option string := keyFn <$> h !! r.

(** The references of [array] whose object has key [K], in array order. *)
Definition group (K : string) (array : list ref) (h : list A) : list ref :=
  List.filter (fun r => bool_decide (key_at h r = Some K)) array.

(** The [lines] of the object of [r]. *)
Definition lines_at (h : list A) (r : ref) : option string :=
  match h !! r with
  | Some o => lines_of o
  | None => None
  end.

(** The [lines] of the objects of [rs], in order. *)
Definition obs_lines (h : list A) (rs : list ref) : list (option string) :=
  List.map (lines_at h) rs.

(** Every entry of the map points to an object with the entry's key. *)
Definition wf_seen (seen : jsmap) (h : list A) : Prop :=
  forall k e, (k, e) ∈ seen -> key_at h e = Some k.
End LoopModel.



(** The three fields of an edge written one after the other with a hyphen
    in between. *)
Definition triple_text (e : edge) : string :=
  edge_source e +:+ "-" +:+ edge_target e +:+ "-" +:+ edge_type e.



(** Edge [e] touches the identity [x]. *)
Definition incident (e : edge) (x : string) : Prop :=
  edge_source e = x \/ edge_target e = x.

(** What the edge loop maintains: the map is well-formed with distinct keys,
    and every referenced identity is an endpoint of an edge of the map. *)
Definition edge_loop_inv (eh : list edge) (st : jsmap * list string) : Prop :=
  wf_seen edge_key (fst st) eh /\ NoDup (List.map fst (fst st)) /\
  forall x, Js.set_has x (snd st) = true ->
    exists re e, re ∈ map_values (fst st) /\ eh !! re = Some e /\ incident e x.

(** ** First occurrences *)

(** The references of [array] whose key, read in the store [h], has not
    occurred before: neither in [seen_keys] nor earlier in [array]. *)
Fixpoint first_refs {A : Type} (keyFn : A -> string) (seen_keys : list string)
    (array : list ref) (h : list A) : list ref :=
  match array with
  | [] => []
  | r :: rest =>
      match key_at keyFn h r with
      | None => first_refs keyFn seen_keys rest h
      | Some k =>
          if existsb (String.eqb k) seen_keys
          then first_refs keyFn seen_keys rest h
          else r :: first_refs keyFn (seen_keys ++ [k]) rest h
      end
  end.

(** Some edge among [rs] has the identity [x] as its source or target. *)
Definition touched (eh : list edge) (rs : list ref) (x : string) : bool :=
  existsb (fun re => match eh !! re with
                     | Some e => String.eqb (edge_source e) x || String.eqb (edge_target e) x
                     | None => false
                     end) rs.

(** The fields of a node that the deduplication does not assign. *)
Definition node_identity (n : node) : string * option string * string :=
  (node_id n, node_label n, node_type n).

(** ** The registry, as its users see it *)

(** Every entry of the registry is keyed by [`${file}:${name}`] of its value. *)
Definition registry_keyed (reg : list (string * Registry.info)) : Prop :=
  forall id info, (id, info) ∈ reg ->
    id = Registry.info_file info +:+ ":" +:+ Js.show (Registry.info_name info).

(** What the registry variant keeps between its arrays and its registry. *)
Definition registry_inv (s : Registry.rstate) : Prop :=
  NoDup (List.map fst (Registry.methodRegistry s)) /\
  registry_keyed (Registry.methodRegistry s) /\
  (forall n, n ∈ nodes (Registry.graph s) ->
     Registry.registry_has (node_id n) (Registry.methodRegistry s) = true) /\
  (forall id, Registry.registry_has id (Registry.methodRegistry s) = true ->
     exists n, n ∈ nodes (Registry.graph s) /\ node_id n = id) /\
  (forall e, e ∈ edges (Registry.graph s) ->
     edge_type e = "calls" /\
     Registry.registry_has (edge_target e) (Registry.methodRegistry s) = true).

(** The registry entries a call of [callee] fans out to. *)
Definition callee_entries (callee : string) (reg : list (string * Registry.info))
    : list (string * Registry.info) :=
  List.filter (fun entry => match Registry.info_name (snd entry) with
                            | Some name => String.eqb name callee
                            | None => false
                            end) reg.

(** ** Kinds of nodes, imports, throwing nodes, skipped entries *)

(** The node types index.js pushes. *)
Definition simple_kinds : list string :=
  ["method"; "library"; "imported-method"; "class"; "vue-method"].

(** The node types the registry variant pushes. *)
Definition registry_kinds : list string :=
  ["function"; "method"; "class"; "vue-method"].

(** The node types the argument-tracking variant pushes. *)
Definition args_kinds : list string :=
  ["method"; "library"; "imported-method"; "class"; "vue-method"; "function"; "variable"].

Definition kinds_in (kinds : list string) (ns : list node) : Prop :=
  Forall (fun n => existsb (String.eqb (node_type n)) kinds = true) ns.

(** The [imported.name] of the named specifiers of an import, in order. *)
Fixpoint imported_names (specifiers : list Ast.specifier) : list (option string) :=
  match specifiers with
  | [] => []
  | Ast.ImportSpecifier imported_name :: rest => imported_name :: imported_names rest
  | _ :: rest => imported_names rest
  end.

(** A function or class declaration whose [id] is [null]. *)
Definition null_id_declaration (n : Ast.node) : bool :=
  match Ast.shape_of n with
  | Ast.FunctionDeclaration None => true
  | Ast.ClassDeclaration None => true
  | _ => false
  end.

(** An entry the [for] loop of [scan] passes over: neither file nor
    directory, a directory of [ignoreDirs], or a file whose extension is not
    in [allowedExtensions]. *)
Definition skipped_entry (extname toLowerCase : string -> string) (e : fsentry) : bool :=
  match e with
  | FsOther _ => true
  | FsDir name _ => existsb (String.eqb name) ignoreDirs
  | FsFile name _ =>
      negb (existsb (String.eqb (toLowerCase (extname name))) allowedExtensions)
  end.

(** The number of commas in a string: one less than the number of columns a
    reader of the CSV file sees in a row. *)
Fixpoint commas (s : string) : nat :=
  match s with
  | EmptyString => 0
  | String c s' => (if Ascii.eqb c "," then 1 else 0) + commas s'
  end.

(** ** Where a call stands in the text *)

(** The lines of [inner] lie within the lines of [outer]. *)
Definition within (inner outer : Ast.loc) : bool :=
  Nat.leb (Ast.start_line outer) (Ast.start_line inner)
  && Nat.leb (Ast.end_line inner) (Ast.end_line outer).

(** ** The text a file hands to the parser *)

(** [parseFile] parses the content of a file that is not a [.vue] file, and of
    a [.vue] file the script block or, failing that, what lies between
    [<script setup>] and [</script>]. *)
Inductive script_text (parseComponent : string -> option string)
    (ext content : string) : string -> Prop :=
| text_plain : ext <> ".vue" -> script_text parseComponent ext content content
| text_vue_block script :
    ext = ".vue" -> parseComponent content = Some script ->
    script_text parseComponent ext content script
| text_vue_setup piece :
    ext = ".vue" -> parseComponent content = None ->
    Js.includes "<script setup>" content = true ->
    Js.split_1 "<script setup>" content = Some piece ->
    script_text parseComponent ext content (Js.split_0 "</script>" piece).

(** The warning of [parseJavaScript] for a text that does not parse. *)
Definition parse_warning (filePath message : string) : console_entry :=
  Warn ("Warning: Could not parse " +:+ filePath +:+ ". Error: " +:+ message).

(** ** Endpoints of the edges, in the argument-tracking variant *)

(** Every edge has a node for its source and a node for its target. *)
Definition endpoints_materialised (s : state) : Prop :=
  forall e, e ∈ edges s ->
    (exists n, n ∈ nodes s /\ node_id n = edge_source e) /\
    (exists n, n ∈ nodes s /\ node_id n = edge_target e).

(** The nodes only grow and the edges stay. *)
Definition grows (s s' : state) : Prop :=
  (exists added, nodes s' = nodes s ++ added) /\ edges s' = edges s.

(** The type [addNode] infers for an [unknown] node. *)
Definition inferred_kind (id : string) : string :=
  if Js.includes ":" id then "function"
  else if Js.includes "/" id then "imported-method"
  else "variable".

(** ** Which observations carry a line range *)

(** A node has a non-empty [lines] exactly when its type is none of [unlined]. *)
Definition lines_by_type (unlined : list string) (n : node) : Prop :=
  Js.truthy (node_lines n) = negb (existsb (String.eqb (node_type n)) unlined).

(** The types index.js pushes with [null] for [lines]. *)
Definition simple_unlined : list string := ["library"; "imported-method"].

(** The argument-tracking variant adds the types inferred by [addNode] for
    the nodes of [ensureNodeExists], which have no [lines]. *)
Definition args_unlined : list string :=
  ["library"; "imported-method"; "function"; "variable"].

(** Induction on a directory tree. *)
Fixpoint fsentry_tree_ind (P : fsentry -> Prop)
    (Hfile : forall name content, P (FsFile name content))
    (Hother : forall name, P (FsOther name))
    (Hdir : forall name entries, Forall P entries -> P (FsDir name entries))
    (e : fsentry) : P e :=
  match e with
  | FsFile name content => Hfile name content
  | FsOther name => Hother name
  | FsDir name entries =>
      Hdir name entries
        ((fix go (l : list fsentry) : Forall P l :=
            match l with
            | [] => @List.Forall_nil fsentry P
            | x :: l' =>
                @List.Forall_cons fsentry P x l'
                  (fsentry_tree_ind P Hfile Hother Hdir x) (go l')
            end) entries)
  end.

(** ** Sample inputs *)
Module Samples.

(** Three observations, two of them of [a.js:f]. *)
Definition three_nodes : list node :=
  [Node "a.js:f" (Some "f") "method" (Some "[1-2]");
   Node "a.js:g" (Some "g") "method" (Some "[3-4]");
   Node "a.js:f" (Some "f") "method" (Some "[5-6]")].

(** [a/x.js] declares [f] on lines 1 to 3. *)
Definition tree_a : Ast.t :=
  [Ast.Mk (Ast.FunctionDeclaration (Some "f")) (Ast.Loc 1 3) None].

(** [b/x.js] declares [f] on lines 2 to 4 and calls it on line 6. *)
Definition tree_b : Ast.t :=
  [Ast.Mk (Ast.FunctionDeclaration (Some "f")) (Ast.Loc 2 4) None;
   Ast.Mk (Ast.CallExpression (Ast.Identifier "f") []) (Ast.Loc 6 6) None].

(** The registry variant after walking the two trees. *)
Definition two_files : Registry.rstate :=
  state_of (walk_simple (Registry.visit "x.js") tree_b
    (state_of (walk_simple (Registry.visit "x.js") tree_a
       (Registry.RState (State [] []) [])))).

(** [a.js] holds [function isolated(){}] and nothing else. *)
Definition tree_isolated : Ast.t :=
  [Ast.Mk (Ast.FunctionDeclaration (Some "isolated")) (Ast.Loc 1 1) None].

(** [function b(){}] on line 1, then [function a(){ b(); }] over lines 2 to
    4 with the call on line 3, in visiting order: the walker visits the call
    in the body of [a] before the declaration of [a]. No node has a [parent]. *)
Definition call_in_a : Ast.node :=
  Ast.Mk (Ast.CallExpression (Ast.Identifier "b") []) (Ast.Loc 3 3) None.

Definition decl_a : Ast.node :=
  Ast.Mk (Ast.FunctionDeclaration (Some "a")) (Ast.Loc 2 4) None.

Definition tree_call_inside : Ast.t :=
  [Ast.Mk (Ast.FunctionDeclaration (Some "b")) (Ast.Loc 1 1) None; call_in_a; decl_a].

(** [f(1); f(2);] on one line. *)
Definition tree_two_calls : Ast.t :=
  [Ast.Mk (Ast.CallExpression (Ast.Identifier "f") [Ast.ArgLiteral (Some "1")])
     (Ast.Loc 1 1) None;
   Ast.Mk (Ast.CallExpression (Ast.Identifier "f") [Ast.ArgLiteral (Some "2")])
     (Ast.Loc 1 1) None].




(** The registry variant after [function f(){}] in [a.js] and in [b.js]. *)
Definition f_in_two_files : Registry.rstate :=
  Registry.addNode "b.js" (Some "f") "function" (Some "[1-1]")
    (Registry.addNode "a.js" (Some "f") "function" (Some "[1-1]")
       (Registry.RState (State [] []) [])).

(** A call [f()] at the top level of [c.js], on line 4. *)
Definition call_f : Ast.node :=
  Ast.Mk (Ast.CallExpression (Ast.Identifier "f") []) (Ast.Loc 4 4) None.

(** [import def, { foo } from "libX"] on line 1. *)
Definition import_libX : Ast.node :=
  Ast.Mk (Ast.ImportDeclaration "libX"
            [Ast.ImportDefaultSpecifier; Ast.ImportSpecifier (Some "foo")])
    (Ast.Loc 1 1) None.

(** [function g(){}] on line 1, then [export default function(){}] on line 2,
    then [function h(){}] on line 3. *)
Definition tree_anonymous_export : Ast.t :=
  [Ast.Mk (Ast.FunctionDeclaration (Some "g")) (Ast.Loc 1 1) None;
   Ast.Mk (Ast.FunctionDeclaration None) (Ast.Loc 2 2) None;
   Ast.Mk (Ast.FunctionDeclaration (Some "h")) (Ast.Loc 3 3) None].

End Samples.

(** * Properties *)

(** ** The deduplication loop *)

Lemma map_get_In key m r : map_get key m = Some r -> (key, r) ∈ m.
Proof.
  induction m as [|[k r'] m IH]; simpl; [discriminate|].
  destruct (String.eqb_spec k key) as [->|Hne].
  - intros [= ->]. left.
  - intros Hm. right. auto.
Qed.

Lemma map_get_None key m : map_get key m = None <-> key ∉ List.map fst m.
Proof.
  induction m as [|[k r'] m IH]; simpl.
  - split; [intros _ Hin; inversion Hin | reflexivity].
  - destruct (String.eqb_spec k key) as [->|Hne].
    + split; [discriminate|]. intros Hn. exfalso. apply Hn. left.
    + rewrite IH. rewrite elem_of_cons. split.
      * intros Hn [Heq|Hin]; [congruence | contradiction].
      * intros Hn Hin. apply Hn. right. exact Hin.
Qed.

Lemma map_get_app key m m' :
  map_get key (m ++ m') =
  match map_get key m with Some r => Some r | None => map_get key m' end.
Proof.
  induction m as [|[k r'] m IH]; simpl; [reflexivity|].
  destruct (String.eqb k key); [reflexivity | exact IH].
Qed.

Lemma map_get_NoDup key m r :
  NoDup (List.map fst m) -> (key, r) ∈ m -> map_get key m = Some r.
Proof.
  induction m as [|[k r'] m IH]; simpl; intros Hnd Hin.
  - inversion Hin.
  - apply NoDup_cons in Hnd as [Hk Hnd].
    apply elem_of_cons in Hin as [[= <- <-]|Hin].
    + rewrite String.eqb_refl. reflexivity.
    + destruct (String.eqb_spec k key) as [->|Hne]; [|auto].
      exfalso. apply Hk. apply list_elem_of_In. apply in_map_iff.
      exists (key, r). split; [reflexivity|]. apply list_elem_of_In. exact Hin.
Qed.

Lemma array_filter_state {S : Type} (cb : ref -> S -> bool * S) array st :
  snd (array_filter cb array st) = fold_left (fun st r => snd (cb r st)) array st.
Proof.
  revert st. induction array as [|r rest IH]; intros st; simpl; [reflexivity|].
  destruct (cb r st) as [keep st1] eqn:Hcb. simpl.
  specialize (IH st1). destruct (array_filter cb rest st1) as [kept st2].
  simpl in *. exact IH.
Qed.

Section Loop.
Context {A : Type} `{Lined A}.
Variable keyFn : A -> string.
Hypothesis key_set_lines : forall l a, keyFn (set_lines l a) = keyFn a.
Hypothesis lines_set_lines : forall l a, lines_of (set_lines l a) = l.

Local Abbreviation step := (step keyFn).
Local Abbreviation key_at := (key_at keyFn).
Local Abbreviation group := (group keyFn).
Local Abbreviation wf_seen := (wf_seen keyFn).

Lemma key_merge_lines item existing :
  keyFn (merge_lines item existing) = keyFn existing.
Proof.
  unfold merge_lines. destruct (lines_of item), (lines_of existing); try reflexivity.
  destruct (_ && _); [apply key_set_lines | reflexivity].
Qed.

Lemma lines_merge_lines item existing :
  lines_of (merge_lines item existing) = merge_str (lines_of existing) (lines_of item).
Proof.
  unfold merge_lines, merge_str.
  destruct (lines_of item) as [il|] eqn:Hi, (lines_of existing) as [el|] eqn:He;
    try assumption; try reflexivity.
  destruct (_ && _); [apply lines_set_lines | assumption].
Qed.

Lemma key_at_insert h e x r :
  key_at h e = Some (keyFn x) -> key_at (<[e := x]> h) r = key_at h r.
Proof.
  unfold key_at. intros He. destruct (decide (e = r)) as [->|Hne].
  - destruct (h !! r) as [o|] eqn:Hr; [|discriminate].
    rewrite list_lookup_insert_eq by (eapply lookup_lt_Some; eauto).
    simpl in *. congruence.
  - rewrite list_lookup_insert_ne by assumption. reflexivity.
Qed.

(** The loop keeps the keys of all objects, the map's keys distinct and its
    entries well-formed. *)
Lemma step_keys st r h1 seen1 :
  step st r = (seen1, h1) -> wf_seen (fst st) (snd st) ->
  forall x, key_at h1 x = key_at (snd st) x.
Proof.
  destruct st as [seen h]. unfold step, SimpleDedup.callback. simpl.
  destruct (h !! r) as [item|] eqn:Hr; simpl; [|intros [= <- <-]; reflexivity].
  destruct (map_get (keyFn item) seen) as [e|] eqn:Hg; simpl;
    [|intros [= <- <-]; reflexivity].
  destruct (h !! e) as [existing|] eqn:He; simpl; intros [= <- <-] Hwf x;
    [|reflexivity].
  apply key_at_insert. rewrite key_merge_lines. unfold key_at. rewrite He. reflexivity.
Qed.

Lemma step_wf st r h1 seen1 :
  step st r = (seen1, h1) -> wf_seen (fst st) (snd st) -> wf_seen seen1 h1.
Proof.
  intros Hs Hwf. pose proof (step_keys _ _ _ _ Hs Hwf) as Hk.
  destruct st as [seen h]. unfold step, SimpleDedup.callback in Hs. simpl in *.
  intros k e Hin. rewrite Hk.
  destruct (h !! r) as [item|] eqn:Hr; simpl in Hs;
    [|injection Hs as <- <-; auto].
  destruct (map_get (keyFn item) seen) as [e'|] eqn:Hg; simpl in Hs.
  - destruct (h !! e'); simpl in Hs; injection Hs as <- <-; auto.
  - injection Hs as <- <-. unfold map_set_new in Hin.
    apply elem_of_app in Hin as [Hin|Hin]; [auto|].
    apply list_elem_of_singleton in Hin. injection Hin as -> ->.
    unfold key_at. rewrite Hr. reflexivity.
Qed.

Lemma step_nodup st r h1 seen1 :
  step st r = (seen1, h1) -> NoDup (List.map fst (fst st)) ->
  NoDup (List.map fst seen1).
Proof.
  destruct st as [seen h]. unfold step, SimpleDedup.callback. simpl.
  destruct (h !! r) as [item|] eqn:Hr; simpl; [|intros [= <- <-]; auto].
  destruct (map_get (keyFn item) seen) as [e'|] eqn:Hg; simpl.
  - destruct (h !! e'); simpl; intros [= <- <-]; auto.
  - intros [= <- <-] Hnd. unfold map_set_new. rewrite List.map_app. simpl.
    apply NoDup_app. split; [exact Hnd|]. split.
    + intros x Hx Hx'. apply list_elem_of_singleton in Hx'. subst x.
      apply map_get_None in Hg. contradiction.
    + apply NoDup_singleton.
Qed.

Lemma loop_invariants array : forall st seen' h',
  fold_left step array st = (seen', h') ->
  wf_seen (fst st) (snd st) -> NoDup (List.map fst (fst st)) ->
  wf_seen seen' h' /\ NoDup (List.map fst seen') /\
  (forall x, key_at h' x = key_at (snd st) x).
Proof.
  induction array as [|r rest IH]; intros st seen' h'; simpl.
  - intros -> Hwf Hnd. simpl. auto.
  - intros Hf Hwf Hnd. destruct (step st r) as [seen1 h1] eqn:Hs.
    pose proof (step_wf _ _ _ _ Hs Hwf) as Hwf1.
    pose proof (step_nodup _ _ _ _ Hs Hnd) as Hnd1.
    pose proof (step_keys _ _ _ _ Hs Hwf) as Hk1.
    destruct (IH _ _ _ Hf Hwf1 Hnd1) as (Hwf' & Hnd' & Hk').
    split; [exact Hwf'|]. split; [exact Hnd'|].
    intros x. rewrite Hk'. simpl. apply Hk1.
Qed.

Lemma group_ext K rs h h1 :
  (forall x, x ∈ rs -> h1 !! x = h !! x) -> group K rs h1 = group K rs h.
Proof.
  intros Hx. unfold group. induction rs as [|r rs IH]; simpl; [reflexivity|].
  rewrite IH by (intros x Hin; apply Hx; right; exact Hin).
  replace (key_at h1 r) with (key_at h r)
    by (unfold key_at; rewrite (Hx r) by left; reflexivity).
  reflexivity.
Qed.

Lemma obs_lines_ext rs h h1 :
  (forall x, x ∈ rs -> h1 !! x = h !! x) -> obs_lines h1 rs = obs_lines h rs.
Proof.
  intros Hx. unfold obs_lines. induction rs as [|r rs IH]; simpl; [reflexivity|].
  rewrite IH by (intros x Hin; apply Hx; right; exact Hin).
  unfold lines_at. rewrite (Hx r) by left. reflexivity.
Qed.

Lemma group_cons K r rest h :
  group K (r :: rest) h =
  if bool_decide (key_at h r = Some K) then r :: group K rest h else group K rest h.
Proof. reflexivity. Qed.

Lemma key_at_Some h r item : h !! r = Some item -> key_at h r = Some (keyFn item).
Proof. unfold key_at. intros ->. reflexivity. Qed.

Lemma key_at_None h r : h !! r = None -> key_at h r = None.
Proof. unfold key_at. intros ->. reflexivity. Qed.

Lemma group_elem K rs h x : x ∈ group K rs h -> x ∈ rs.
Proof.
  unfold group. intros Hin. apply list_elem_of_In in Hin.
  apply filter_In in Hin as [Hin _]. apply list_elem_of_In. exact Hin.
Qed.

(** The four ways a round can go. *)
Lemma step_cases seen h r :
  (h !! r = None /\ step (seen, h) r = (seen, h)) \/
  (exists item, h !! r = Some item /\ map_get (keyFn item) seen = None /\
     step (seen, h) r = (seen ++ [(keyFn item, r)], h)) \/
  (exists item e, h !! r = Some item /\ map_get (keyFn item) seen = Some e /\
     h !! e = None /\ step (seen, h) r = (seen, h)) \/
  (exists item e existing, h !! r = Some item /\
     map_get (keyFn item) seen = Some e /\ h !! e = Some existing /\
     step (seen, h) r = (seen, <[e := merge_lines item existing]> h)).
Proof.
  unfold step, SimpleDedup.callback.
  destruct (h !! r) as [item|] eqn:Hr; [|left; auto].
  right. destruct (map_get (keyFn item) seen) as [e|] eqn:Hg.
  - right. destruct (h !! e) as [existing|] eqn:He.
    + right. exists item, e, existing. auto.
    + left. exists item, e. auto.
  - left. exists item. auto.
Qed.

(** Once key [K] has its representative [e], the loop folds the [lines] of
    the later observations of [K] into it, in array order. *)
Lemma loop_seen K : forall array seen h e ex,
  map_get K seen = Some e -> h !! e = Some ex -> keyFn ex = K ->
  wf_seen seen h -> (forall k r, (k, r) ∈ seen -> r ∉ array) -> NoDup array ->
  exists seen' h' ex',
    fold_left step array (seen, h) = (seen', h') /\
    map_get K seen' = Some e /\ h' !! e = Some ex' /\
    lines_of ex' = fold_left merge_str (obs_lines h (group K array h)) (lines_of ex).
Proof.
  induction array as [|r rest IH]; intros seen h e ex Hg He Hk Hwf Hdis Hnd.
  { exists seen, h, ex. simpl. auto. }
  apply NoDup_cons in Hnd as [Hr Hnd].
  assert (Hdis' : forall k x, (k, x) ∈ seen -> x ∉ rest).
  { intros k x Hin Hx. apply (Hdis k x Hin). right. exact Hx. }
  change (fold_left step (r :: rest) (seen, h))
    with (fold_left step rest (step (seen, h) r)).
  destruct (step_cases seen h r)
    as [[Hhr Hs]|[(item & Hhr & Hgi & Hs)|[(item & e' & Hhr & Hgi & He' & Hs)
       |(item & e' & existing & Hhr & Hgi & He' & Hs)]]]; rewrite Hs.
  - (* a reference outside the store *)
    destruct (IH seen h e ex Hg He Hk Hwf Hdis' Hnd) as (seen' & h' & ex' & Hf & ? & ? & Hl).
    exists seen', h', ex'. repeat split; try assumption.
    rewrite Hl, group_cons, (key_at_None _ _ Hhr).
    rewrite bool_decide_eq_false_2 by discriminate. reflexivity.
  - (* a key seen for the first time: not K *)
    assert (HneK : keyFn item <> K) by (intros Heq; rewrite Heq in Hgi; congruence).
    destruct (IH (seen ++ [(keyFn item, r)]) h e ex) as (seen' & h' & ex' & Hf & ? & ? & Hl);
      try assumption.
    + rewrite map_get_app, Hg. reflexivity.
    + intros k x Hin. apply elem_of_app in Hin as [Hin|Hin]; [auto|].
      apply list_elem_of_singleton in Hin. injection Hin as -> ->.
      unfold key_at. rewrite Hhr. reflexivity.
    + intros k x Hin. apply elem_of_app in Hin as [Hin|Hin]; [eauto|].
      apply list_elem_of_singleton in Hin. injection Hin as -> ->. exact Hr.
    + exists seen', h', ex'. repeat split; try assumption.
      rewrite Hl, group_cons, (key_at_Some _ _ _ Hhr).
      rewrite bool_decide_eq_false_2 by congruence. reflexivity.
  - (* excluded: the map's entries point into the store *)
    apply map_get_In in Hgi. apply Hwf in Hgi. unfold key_at in Hgi.
    rewrite He' in Hgi. discriminate.
  - (* a key of the map: its representative is updated *)
    pose proof (map_get_In _ _ _ Hgi) as Hin'.
    assert (Hframe : forall x, x ∈ rest ->
              <[e' := merge_lines item existing]> h !! x = h !! x).
    { intros x Hx. apply list_lookup_insert_ne. intros ->.
      apply (Hdis' _ _ Hin'). exact Hx. }
    assert (Hwf1 : wf_seen seen (<[e' := merge_lines item existing]> h)).
    { intros k x Hin. rewrite key_at_insert; [auto|].
      rewrite key_merge_lines. unfold key_at. rewrite He'. reflexivity. }
    assert (Hgrp : group K rest (<[e' := merge_lines item existing]> h) = group K rest h)
      by (apply group_ext; exact Hframe).
    assert (Hobs : obs_lines (<[e' := merge_lines item existing]> h) (group K rest h)
                   = obs_lines h (group K rest h)).
    { apply obs_lines_ext. intros x Hx. apply Hframe. eapply group_elem; eauto. }
    destruct (String.eqb_spec (keyFn item) K) as [HeqK|HneK].
    + rewrite HeqK in Hgi. assert (e' = e) by congruence. subst e'.
      assert (existing = ex) by congruence. subst existing.
      destruct (IH seen (<[e := merge_lines item ex]> h) e (merge_lines item ex))
        as (seen' & h' & ex' & Hf & ? & ? & Hl); try assumption.
      * apply list_lookup_insert_eq. eapply lookup_lt_Some; eauto.
      * rewrite key_merge_lines. exact Hk.
      * exists seen', h', ex'. repeat split; try assumption.
        rewrite Hl, Hgrp, Hobs, lines_merge_lines.
        rewrite group_cons, (key_at_Some _ _ _ Hhr).
        rewrite bool_decide_eq_true_2 by congruence.
        simpl. unfold lines_at at 1. rewrite Hhr. reflexivity.
    + assert (Hne : e' <> e).
      { intros Heq. apply HneK. pose proof (Hwf _ _ Hin') as Hw.
        unfold key_at in Hw. rewrite Heq, He in Hw. simpl in Hw. congruence. }
      destruct (IH seen (<[e' := merge_lines item existing]> h) e ex)
        as (seen' & h' & ex' & Hf & ? & ? & Hl); try assumption.
      * rewrite list_lookup_insert_ne by assumption. exact He.
      * exists seen', h', ex'. repeat split; try assumption.
        rewrite Hl, Hgrp, Hobs.
        rewrite group_cons, (key_at_Some _ _ _ Hhr).
        rewrite bool_decide_eq_false_2 by congruence. reflexivity.
Qed.

(** The first observation of a key becomes its representative and collects
    the [lines] of the later ones. *)
Lemma loop_first K : forall array seen h l1 ls,
  map_get K seen = None ->
  wf_seen seen h -> (forall k r, (k, r) ∈ seen -> r ∉ array) -> NoDup array ->
  group K array h = l1 :: ls ->
  exists seen' h' ex',
    fold_left step array (seen, h) = (seen', h') /\
    map_get K seen' = Some l1 /\ h' !! l1 = Some ex' /\
    lines_of ex' = fold_left merge_str (obs_lines h ls) (lines_at h l1).
Proof.
  induction array as [|r rest IH]; intros seen h l1 ls Hg Hwf Hdis Hnd Hgrp.
  { discriminate. }
  apply NoDup_cons in Hnd as [Hr Hnd].
  assert (Hdis' : forall k x, (k, x) ∈ seen -> x ∉ rest).
  { intros k x Hin Hx. apply (Hdis k x Hin). right. exact Hx. }
  change (fold_left step (r :: rest) (seen, h))
    with (fold_left step rest (step (seen, h) r)).
  rewrite group_cons in Hgrp.
  destruct (step_cases seen h r)
    as [[Hhr Hs]|[(item & Hhr & Hgi & Hs)|[(item & e' & Hhr & Hgi & He' & Hs)
       |(item & e' & existing & Hhr & Hgi & He' & Hs)]]]; rewrite Hs.
  - rewrite (key_at_None _ _ Hhr) in Hgrp.
    rewrite bool_decide_eq_false_2 in Hgrp by discriminate.
    apply IH; assumption.
  - rewrite (key_at_Some _ _ _ Hhr) in Hgrp.
    assert (Hwf1 : wf_seen (seen ++ [(keyFn item, r)]) h).
    { intros k x Hin. apply elem_of_app in Hin as [Hin|Hin]; [auto|].
      apply list_elem_of_singleton in Hin. injection Hin as -> ->.
      apply key_at_Some. exact Hhr. }
    assert (Hdis1 : forall k x, (k, x) ∈ seen ++ [(keyFn item, r)] -> x ∉ rest).
    { intros k x Hin. apply elem_of_app in Hin as [Hin|Hin]; [eauto|].
      apply list_elem_of_singleton in Hin. injection Hin as -> ->. exact Hr. }
    destruct (String.eqb_spec (keyFn item) K) as [HeqK|HneK].
    + rewrite bool_decide_eq_true_2 in Hgrp by congruence.
      injection Hgrp as <- <-.
      destruct (loop_seen K rest (seen ++ [(keyFn item, r)]) h r item)
        as (seen' & h' & ex' & Hf & ? & ? & Hl); try assumption.
      * rewrite map_get_app, Hg. simpl. rewrite HeqK, String.eqb_refl. reflexivity.
      * exists seen', h', ex'. repeat split; try assumption.
        rewrite Hl. unfold lines_at. rewrite Hhr. reflexivity.
    + rewrite bool_decide_eq_false_2 in Hgrp by congruence.
      apply IH; try assumption.
      rewrite map_get_app, Hg. simpl.
      destruct (String.eqb_spec (keyFn item) K); [contradiction | reflexivity].
  - apply map_get_In in Hgi. apply Hwf in Hgi. unfold key_at in Hgi.
    rewrite He' in Hgi. discriminate.
  - rewrite (key_at_Some _ _ _ Hhr) in Hgrp.
    assert (HneK : keyFn item <> K) by (intros Heq; rewrite Heq in Hgi; congruence).
    rewrite bool_decide_eq_false_2 in Hgrp by congruence.
    pose proof (map_get_In _ _ _ Hgi) as Hin'.
    assert (Hframe : forall x, x ∈ rest ->
              <[e' := merge_lines item existing]> h !! x = h !! x).
    { intros x Hx. apply list_lookup_insert_ne. intros ->.
      apply (Hdis' _ _ Hin'). exact Hx. }
    assert (Hwf1 : wf_seen seen (<[e' := merge_lines item existing]> h)).
    { intros k x Hin. rewrite key_at_insert; [auto|].
      rewrite key_merge_lines. unfold key_at. rewrite He'. reflexivity. }
    assert (Hsub : forall x, x ∈ l1 :: ls -> x ∈ rest).
    { intros x Hx. rewrite <- Hgrp in Hx. eapply group_elem; eauto. }
    destruct (IH seen (<[e' := merge_lines item existing]> h) l1 ls)
      as (seen' & h' & ex' & Hf & ? & ? & Hl); try assumption.
    + rewrite (group_ext K rest h) by exact Hframe. exact Hgrp.
    + exists seen', h', ex'. repeat split; try assumption.
      rewrite Hl. f_equal.
      * apply obs_lines_ext. intros x Hx. apply Hframe, Hsub. right. exact Hx.
      * unfold lines_at. rewrite (Hframe l1) by (apply Hsub; left). reflexivity.
Qed.

(** A key's entry, once in the map, is the only one the final map has. *)
Lemma seen_unique (seen : jsmap) (K : string) (r1 r2 : ref) :
  NoDup (List.map fst seen) -> (K, r1) ∈ seen -> (K, r2) ∈ seen -> r1 = r2.
Proof.
  intros Hnd H1 H2. apply (map_get_NoDup _ _ _ Hnd) in H1.
  apply (map_get_NoDup _ _ _ Hnd) in H2. congruence.
Qed.

(** [array.filter] keeps exactly the references the map gained. *)
Lemma filter_kept array : forall seen h kept seen' h',
  array_filter (SimpleDedup.callback keyFn) array (seen, h) = (kept, (seen', h')) ->
  exists added, seen' = seen ++ added /\ kept = map_values added.
Proof.
  induction array as [|r rest IH]; intros seen h kept seen' h'; simpl.
  { intros [= <- <- <-]. exists []. rewrite app_nil_r. auto. }
  destruct (h !! r) as [item|] eqn:Hr.
  - destruct (map_get (keyFn item) seen) as [e|] eqn:Hg.
    + destruct (h !! e) as [existing|] eqn:He.
      * destruct (array_filter _ rest _) as [kept1 [seen1 h1]] eqn:Hrest.
        intros [= <- <- <-]. eapply IH. exact Hrest.
      * destruct (array_filter _ rest _) as [kept1 [seen1 h1]] eqn:Hrest.
        intros [= <- <- <-]. eapply IH. exact Hrest.
    + destruct (array_filter _ rest _) as [kept1 [seen1 h1]] eqn:Hrest.
      intros [= <- <- <-]. apply IH in Hrest as (added & -> & ->).
      exists ((keyFn item, r) :: added). unfold map_set_new.
      rewrite <- app_assoc. auto.
  - destruct (array_filter _ rest _) as [kept1 [seen1 h1]] eqn:Hrest.
    intros [= <- <- <-]. eapply IH. exact Hrest.
Qed.
End Loop.

(** ** Strings *)

Lemma append_assoc (a b c : string) : (a +:+ b) +:+ c = a +:+ (b +:+ c).
Proof.
  induction a as [|x a IH]; [reflexivity|].
  change (String x ((a +:+ b) +:+ c) = String x (a +:+ (b +:+ c))).
  rewrite IH. reflexivity.
Qed.

Lemma length_append (a b : string) :
  String.length (a +:+ b) = String.length a + String.length b.
Proof.
  induction a as [|x a IH]; [reflexivity|].
  change (S (String.length (a +:+ b)) = S (String.length a + String.length b)).
  rewrite IH. reflexivity.
Qed.

Lemma append_inv_tail (a b t : string) : a +:+ t = b +:+ t -> a = b.
Proof.
  revert b. induction a as [|x a IH]; intros [|y b] Heq.
  - reflexivity.
  - apply (f_equal String.length) in Heq.
    rewrite !length_append in Heq. simpl in Heq. lia.
  - apply (f_equal String.length) in Heq.
    rewrite !length_append in Heq. simpl in Heq. lia.
  - change (String x (a +:+ t) = String y (b +:+ t)) in Heq.
    injection Heq as -> Heq. f_equal. apply IH. exact Heq.
Qed.

Lemma truthy_Some (x : string) : Js.truthy (Some x) = true <-> x <> "".
Proof.
  simpl. destruct (String.eqb_spec x ""); simpl; split; congruence.
Qed.

Lemma append_nonempty (a b : string) : a <> "" -> a +:+ b <> "".
Proof. destruct a; [congruence | discriminate]. Qed.

(** ** Merging on values *)

Lemma concat_merge_head (a b : string) (rest : list string) :
  String.concat ", " ((a +:+ ", " +:+ b) :: rest) = String.concat ", " (a :: b :: rest).
Proof.
  destruct rest as [|c rest]; [reflexivity|].
  change (String.concat ", " ((a +:+ ", " +:+ b) :: c :: rest))
    with ((a +:+ ", " +:+ b) +:+ ", " +:+ String.concat ", " (c :: rest)).
  change (String.concat ", " (a :: b :: c :: rest))
    with (a +:+ ", " +:+ (b +:+ ", " +:+ String.concat ", " (c :: rest))).
  rewrite !append_assoc. reflexivity.
Qed.

(** Non-empty ranges are joined with a comma and a space, in order. *)
Lemma merge_all (ranges : list string) : forall r0,
  Forall (fun r => r <> "") (r0 :: ranges) ->
  fold_left merge_str (List.map Some ranges) (Some r0)
  = Some (String.concat ", " (r0 :: ranges)).
Proof.
  induction ranges as [|r1 rest IH]; intros r0 Hall; [reflexivity|].
  apply Forall_cons in Hall as [H0 Hall].
  pose proof Hall as Hall'. apply Forall_cons in Hall' as [H1 Hrest].
  change (fold_left merge_str (List.map Some (r1 :: rest)) (Some r0))
    with (fold_left merge_str (List.map Some rest) (merge_str (Some r0) (Some r1))).
  unfold merge_str.
  rewrite (proj2 (truthy_Some r1) H1), (proj2 (truthy_Some r0) H0). simpl andb. cbv iota.
  rewrite IH.
  - rewrite concat_merge_head. reflexivity.
  - apply Forall_cons. split; [apply append_nonempty; exact H0 | exact Hrest].
Qed.


(** ** The node loop: merged provenance *)

Lemma node_key_set_lines l (n : node) : node_key (set_lines l n) = node_key n.
Proof. reflexivity. Qed.

Lemma node_lines_set_lines l (n : node) : lines_of (set_lines l n) = l.
Proof. reflexivity. Qed.

Lemma edge_key_set_lines l (e : edge) : edge_key (set_lines l e) = edge_key e.
Proof. reflexivity. Qed.

(** The body of [nodes.forEach] makes the same transition as the callback of
    [array.filter] in index.js. *)
Lemma node_step_step st r : GraphDedup.node_step st r = step node_key st r.
Proof.
  destruct st as [seen h]. unfold GraphDedup.node_step, step, SimpleDedup.callback, map_has.
  destruct (h !! r) as [n|]; [|reflexivity].
  destruct (map_get (node_key n) seen) as [e|]; simpl; [|reflexivity].
  destruct (h !! e); reflexivity.
Qed.

Lemma node_loop_step array st :
  fold_left GraphDedup.node_step array st = fold_left (step node_key) array st.
Proof.
  revert st. induction array as [|r rest IH]; intros st; simpl; [reflexivity|].
  rewrite node_step_step. apply IH.
Qed.

Lemma wf_seen_nil {A : Type} (keyFn : A -> string) (h : list A) : wf_seen keyFn [] h.
Proof. intros k e Hin. inversion Hin. Qed.

(** The references of a well-formed map with key [K]: its entry alone. *)
Lemma group_values {A : Type} (keyFn : A -> string) (h : list A) K : forall seen l1,
  wf_seen keyFn seen h -> NoDup (List.map fst seen) -> map_get K seen = Some l1 ->
  group keyFn K (map_values seen) h = [l1].
Proof.
  assert (Hnil : forall seen, wf_seen keyFn seen h -> K ∉ List.map fst seen ->
                   group keyFn K (map_values seen) h = []).
  { induction seen as [|[k e] m IH]; intros Hwf Hk; [reflexivity|].
    change (map_values ((k, e) :: m)) with (e :: map_values m).
    rewrite group_cons. rewrite (Hwf k e) by left.
    rewrite bool_decide_eq_false_2.
    - apply IH.
      + intros k' e' Hin. apply Hwf. right. exact Hin.
      + intros Hin. apply Hk. simpl. right. exact Hin.
    - intros [= ->]. apply Hk. simpl. left. }
  induction seen as [|[k e] m IH]; intros l1 Hwf Hnd Hg; [discriminate|].
  simpl in Hnd, Hg. apply NoDup_cons in Hnd as [Hk Hnd].
  change (map_values ((k, e) :: m)) with (e :: map_values m).
  rewrite group_cons. rewrite (Hwf k e) by left.
  destruct (String.eqb_spec k K) as [->|Hne].
  - injection Hg as <-. rewrite bool_decide_eq_true_2 by reflexivity.
    rewrite Hnil; [reflexivity | | exact Hk].
    intros k' e' Hin. apply Hwf. right. exact Hin.
  - rewrite bool_decide_eq_false_2 by congruence.
    apply IH; [|exact Hnd|exact Hg].
    intros k' e' Hin. apply Hwf. right. exact Hin.
Qed.

Lemma simple_dedup_fold {A : Type} `{Lined A} (keyFn : A -> string) array (h : list A) :
  SimpleDedup.deduplicate keyFn array h
  = (map_values (fst (fold_left (step keyFn) array ([], h))),
     snd (fold_left (step keyFn) array ([], h))).
Proof.
  unfold SimpleDedup.deduplicate.
  pose proof (array_filter_state (SimpleDedup.callback keyFn) array ([], h)) as Hst.
  fold (step keyFn) in Hst. revert Hst.
  destruct (array_filter (SimpleDedup.callback keyFn) array ([], h))
    as [kept [seen' h']] eqn:Haf.
  simpl. intros <-. apply filter_kept in Haf as (added & -> & ->). reflexivity.
Qed.

(** The node loop on a store [h], for a key [K] whose observations in
    [array] are [l1 :: ls]. *)
Lemma node_loop_spec (h : list node) (array : list ref) K l1 ls :
  NoDup array -> group node_key K array h = l1 :: ls ->
  exists seen' h',
    fold_left (step node_key) array ([], h) = (seen', h') /\
    wf_seen node_key seen' h' /\ NoDup (List.map fst seen') /\
    map_get K seen' = Some l1 /\
    lines_at h' l1 = fold_left merge_str (obs_lines h ls) (lines_at h l1).
Proof.
  intros Hnd Hgrp.
  destruct (loop_first node_key node_key_set_lines node_lines_set_lines K array [] h l1 ls)
    as (seen' & h' & ex' & Hf & Hg & Hl & Hlines); try assumption.
  - reflexivity.
  - apply wf_seen_nil.
  - intros k r Hin. inversion Hin.
  - destruct (loop_invariants node_key node_key_set_lines array ([], h) seen' h' Hf)
      as (Hwf & Hnd' & _).
    + apply wf_seen_nil.
    + simpl. apply NoDup_nil_2.
    + exists seen', h'. repeat split; try assumption.
      unfold lines_at at 1. rewrite Hl. exact Hlines.
Qed.

Lemma obs_lines_ranges (h : list node) l1 ls (ranges : list string) :
  obs_lines h (l1 :: ls) = List.map Some ranges ->
  exists r0 rest, ranges = r0 :: rest /\ lines_at h l1 = Some r0 /\
                  obs_lines h ls = List.map Some rest.
Proof.
  destruct ranges as [|r0 rest]; simpl; [discriminate|].
  intros [= H1 H2]. exists r0, rest. auto.
Qed.

(** C4. For a key observed k > 0 times, every observation carrying a
    non-empty line-range string, one run of the deduplication leaves a single
    record for the key, and its [lines] is the k ranges, verbatim, joined by
    a comma and a space in first-seen order. This holds for
    [deduplicate(array, keyFn)] of index.js and for [deduplicate(nodes, edges)]
    of the other two variants. *)
Theorem C4_provenance_first_seen_order
    (h : list node) (array : list ref) (K : string) (l1 : ref) (ls : list ref)
    (ranges : list string) :
  NoDup array ->
  group node_key K array h = l1 :: ls ->
  obs_lines h (l1 :: ls) = List.map Some ranges ->
  Forall (fun r => r <> "") ranges ->
  length ranges = S (length ls) /\
  (forall kept h', SimpleDedup.deduplicate node_key array h = (kept, h') ->
     group node_key K kept h' = [l1] /\
     lines_at h' l1 = Some (String.concat ", " ranges)) /\
  (forall edges eh res h', GraphDedup.deduplicate array h edges eh = (res, h') ->
     (forall r, r ∈ GraphDedup.res_nodes res -> key_at node_key h' r = Some K -> r = l1) /\
     lines_at h' l1 = Some (String.concat ", " ranges)).
Proof.
  intros Hnd Hgrp Hobs Hne.
  assert (Hlen : length ranges = S (length ls)).
  { apply (f_equal (@length _)) in Hobs. unfold obs_lines in Hobs.
    rewrite !length_map in Hobs. simpl in Hobs. lia. }
  destruct (obs_lines_ranges _ _ _ _ Hobs) as (r0 & rest & -> & H0 & Hrest).
  destruct (node_loop_spec h array K l1 ls Hnd Hgrp)
    as (seen' & h1 & Hf & Hwf & Hnd' & Hg & Hlines).
  rewrite H0, Hrest, merge_all in Hlines by exact Hne.
  split; [exact Hlen|]. split.
  - intros kept h' Hd. rewrite simple_dedup_fold, Hf in Hd. simpl in Hd.
    injection Hd as <- <-. split; [|exact Hlines].
    apply group_values; assumption.
  - intros edges eh res h' Hd. unfold GraphDedup.deduplicate in Hd.
    rewrite node_loop_step, Hf in Hd.
    destruct (fold_left (GraphDedup.edge_step eh) edges ([], [])) as [ue refd].
    injection Hd as <- <-. split; [|exact Hlines].
    simpl. intros r Hin Hk. apply list_elem_of_In in Hin.
    apply filter_In in Hin as [Hin _]. apply list_elem_of_In in Hin.
    assert (Hg' : r ∈ group node_key K (map_values seen') h1).
    { apply list_elem_of_In. apply filter_In. split.
      - apply list_elem_of_In. exact Hin.
      - apply bool_decide_eq_true_2. exact Hk. }
    rewrite (group_values node_key h1 K seen' l1) in Hg' by assumption.
    apply list_elem_of_singleton in Hg'. exact Hg'.
Qed.


Lemma NoDup_012 : NoDup [0; 1; 2].
Proof. apply (bool_decide_unpack _). reflexivity. Qed.

(** C4 at three observations, two of them of [a.js:f]. *)
Lemma C4_provenance_witness :
  group node_key "a.js:f-method" [0; 1; 2] Samples.three_nodes = [0; 2] /\
  obs_lines Samples.three_nodes [0; 2] = List.map Some ["[1-2]"; "[5-6]"] /\
  Forall (fun r => r <> "") ["[1-2]"; "[5-6]"] /\
  lines_at (snd (SimpleDedup.deduplicate node_key [0; 1; 2] Samples.three_nodes)) 0
  = Some "[1-2], [5-6]" /\
  lines_at (snd (GraphDedup.deduplicate [0; 1; 2] Samples.three_nodes
                   [0] [Edge "a.js:f" "a.js:g" "calls"])) 0
  = Some "[1-2], [5-6]".
Proof.
  assert (Hne : Forall (fun r : string => r <> "") ["[1-2]"; "[5-6]"])
    by (repeat constructor; discriminate).
  split; [reflexivity|]. split; [reflexivity|]. split; [exact Hne|].
  destruct (C4_provenance_first_seen_order Samples.three_nodes [0; 1; 2]
              "a.js:f-method" 0 [2] ["[1-2]"; "[5-6]"] NoDup_012 eq_refl eq_refl Hne)
    as (_ & Hsimple & Hgraph).
  split.
  - destruct (SimpleDedup.deduplicate node_key [0; 1; 2] Samples.three_nodes)
      as [kept h'] eqn:Hd.
    destruct (Hsimple kept h' eq_refl) as [_ Hlines]. exact Hlines.
  - destruct (GraphDedup.deduplicate [0; 1; 2] Samples.three_nodes
                [0] [Edge "a.js:f" "a.js:g" "calls"]) as [res h'] eqn:Hd.
    destruct (Hgraph _ _ res h' Hd) as [_ Hlines]. exact Hlines.
Defined.

(** ** A second run on the same arrays *)

(** The entries of the map stay, and only objects the final map points to
    are assigned. *)
Lemma loop_frame {A : Type} `{Lined A} (keyFn : A -> string)
    (key_set_lines : forall l a, keyFn (set_lines l a) = keyFn a) array :
  forall seen h seen' h',
    fold_left (step keyFn) array (seen, h) = (seen', h') -> wf_seen keyFn seen h ->
    (forall k e, (k, e) ∈ seen -> (k, e) ∈ seen') /\
    (forall x, x ∉ map_values seen' -> h' !! x = h !! x).
Proof.
  induction array as [|r rest IH]; intros seen h seen' h' Hf Hwf.
  { simpl in Hf. injection Hf as <- <-. auto. }
  change (fold_left (step keyFn) (r :: rest) (seen, h))
    with (fold_left (step keyFn) rest (step keyFn (seen, h) r)) in Hf.
  destruct (step keyFn (seen, h) r) as [seen1 h1] eqn:Hs.
  pose proof (step_wf keyFn key_set_lines _ _ _ _ Hs Hwf) as Hwf1.
  destruct (IH seen1 h1 seen' h' Hf Hwf1) as [Hgrow Hframe].
  destruct (step_cases keyFn seen h r)
    as [[Hhr Hs']|[(item & Hhr & Hgi & Hs')|[(item & e' & Hhr & Hgi & He' & Hs')
       |(item & e' & existing & Hhr & Hgi & He' & Hs')]]];
    rewrite Hs' in Hs; injection Hs as <- <-.
  - auto.
  - split; [|exact Hframe].
    intros k e Hin. apply Hgrow. apply elem_of_app. left. exact Hin.
  - auto.
  - split; [exact Hgrow|]. intros x Hx. rewrite (Hframe x Hx).
    apply list_lookup_insert_ne. intros ->. apply Hx.
    apply map_get_In in Hgi. apply Hgrow in Hgi.
    unfold map_values. apply list_elem_of_In. apply in_map_iff.
    exists (keyFn item, x). split; [reflexivity | apply list_elem_of_In; exact Hgi].
Qed.

Lemma group_NoDup {A : Type} (keyFn : A -> string) K array (h : list A) :
  NoDup array -> NoDup (group keyFn K array h).
Proof.
  intros Hnd. unfold group. induction Hnd as [|r rest Hr Hnd IH]; simpl.
  - apply NoDup_nil_2.
  - destruct (bool_decide _); [|exact IH]. apply NoDup_cons. split; [|exact IH].
    intros Hin. apply Hr. apply list_elem_of_In in Hin. apply filter_In in Hin as [Hin _].
    apply list_elem_of_In. exact Hin.
Qed.

Lemma group_keys_ext {A : Type} (keyFn : A -> string) K array (h h1 : list A) :
  (forall x, key_at keyFn h1 x = key_at keyFn h x) ->
  group keyFn K array h1 = group keyFn K array h.
Proof.
  intros Hk. unfold group. induction array as [|r rest IH]; simpl; [reflexivity|].
  rewrite Hk, IH. reflexivity.
Qed.

(** X20. Whenever a key has two or more observations with non-empty line
    ranges, a second [deduplicate] on the arrays the first one left appends
    the ranges of all but the first observation once more. *)
Lemma second_run_appends_later_ranges
    (h : list node) (array : list ref) (K : string) (l1 : ref) (ls : list ref)
    (r1 : string) (later : list string) :
  NoDup array ->
  group node_key K array h = l1 :: ls ->
  obs_lines h (l1 :: ls) = List.map Some (r1 :: later) ->
  Forall (fun r => r <> "") (r1 :: later) ->
  forall kept1 h1 kept2 h2,
    SimpleDedup.deduplicate node_key array h = (kept1, h1) ->
    SimpleDedup.deduplicate node_key array h1 = (kept2, h2) ->
    lines_at h1 l1 = Some (String.concat ", " (r1 :: later)) /\
    lines_at h2 l1 = Some (String.concat ", " (String.concat ", " (r1 :: later) :: later)).
Proof.
  intros Hnd Hgrp Hobs Hne kept1 h1 kept2 h2 Hd1 Hd2.
  destruct (node_loop_spec h array K l1 ls Hnd Hgrp)
    as (seen' & h1' & Hf & Hwf & Hnd' & Hg & Hlines).
  rewrite simple_dedup_fold, Hf in Hd1. simpl in Hd1. injection Hd1 as <- <-.
  simpl in Hobs. injection Hobs as H0 Hrest.
  rewrite H0, Hrest, merge_all in Hlines by exact Hne.
  split; [exact Hlines|].
  destruct (loop_invariants node_key node_key_set_lines array ([], h) seen' h1' Hf
              (wf_seen_nil node_key h)) as (_ & _ & Hkeys); [apply NoDup_nil_2|].
  simpl in Hkeys.
  destruct (loop_frame node_key node_key_set_lines array [] h seen' h1' Hf
              (wf_seen_nil node_key h)) as [_ Hframe].
  assert (Hgrp1 : group node_key K array h1' = l1 :: ls).
  { rewrite (group_keys_ext node_key K array h h1' Hkeys). exact Hgrp. }
  assert (Hls : obs_lines h1' ls = List.map Some later).
  { rewrite <- Hrest. apply obs_lines_ext. intros x Hx. apply Hframe.
    intros Hval.
    assert (Hx1 : x ∈ group node_key K (map_values seen') h1').
    { apply list_elem_of_In. apply filter_In. split; [apply list_elem_of_In; exact Hval|].
      apply bool_decide_eq_true_2. rewrite Hkeys.
      assert (Hxg : x ∈ group node_key K array h) by (rewrite Hgrp; right; exact Hx).
      apply list_elem_of_In in Hxg. apply filter_In in Hxg as [_ Hb].
      apply bool_decide_eq_true_1 in Hb. exact Hb. }
    rewrite (group_values node_key h1' K seen' l1 Hwf Hnd' Hg) in Hx1.
    apply list_elem_of_singleton in Hx1. subst x.
    pose proof (group_NoDup node_key K array h Hnd) as Hgn. rewrite Hgrp in Hgn.
    apply NoDup_cons in Hgn as [Hnot _]. contradiction. }
  destruct (node_loop_spec h1' array K l1 ls Hnd Hgrp1)
    as (seen2 & h2' & Hf2 & _ & _ & _ & Hlines2).
  rewrite simple_dedup_fold, Hf2 in Hd2. simpl in Hd2. injection Hd2 as <- <-.
  rewrite Hlines2, Hlines, Hls. apply merge_all.
  apply Forall_cons in Hne as [Hr1 Hlater]. apply Forall_cons. split; [|exact Hlater].
  destruct later as [|r2 later']; [exact Hr1|].
  change (String.concat ", " (r1 :: r2 :: later'))
    with (r1 +:+ ", " +:+ String.concat ", " (r2 :: later')).
  apply append_nonempty. exact Hr1.
Qed.

(** C3 on the code: two files named [x.js] each declare [f], one calls it.
    [displayResults(false)] prints the node with the two ranges; the second
    [deduplicate(nodes, edges)], run for [--output] on the same arrays, finds
    the representative already merged and appends the later range once more. *)
Theorem C3_second_run_appends_again :
  nodes (Registry.graph Samples.two_files)
  = [Node "x.js:f" (Some "f") "function" (Some "[1-3]");
     Node "x.js:f" (Some "f") "function" (Some "[2-4]")] /\
  edges (Registry.graph Samples.two_files) = [Edge "x.js:global" "x.js:f" "calls"] /\
  Registry.report_and_save true (Registry.graph Samples.two_files)
  = (Registry.Report
       [Node "x.js:f" (Some "f") "function" (Some "[1-3], [2-4]")]
       [Edge "x.js:global" "x.js:f" "calls"],
     Some (["x.js:f,f,function,[1-3], [2-4], [2-4]"], ["x.js:global,x.js:f,calls"])).
Proof. repeat split; vm_compute; reflexivity. Qed.


(** ** The edge loop and the referenced-only filter *)

Lemma lookup_map {A B : Type} (f : A -> B) (l : list A) i :
  List.map f l !! i = f <$> l !! i.
Proof.
  revert i. induction l as [|x l IH]; intros [|i]; simpl; try reflexivity. apply IH.
Qed.

(** Distinct positions of a well-formed map hold objects with distinct keys. *)
Lemma values_distinct_keys {A : Type} (keyFn : A -> string) (seen : jsmap) (h : list A) :
  wf_seen keyFn seen h -> NoDup (List.map fst seen) ->
  forall i j r1 r2, i <> j ->
    map_values seen !! i = Some r1 -> map_values seen !! j = Some r2 ->
    key_at keyFn h r1 <> key_at keyFn h r2.
Proof.
  intros Hwf Hnd i j r1 r2 Hij H1 H2. unfold map_values in *.
  rewrite lookup_map in H1, H2. revert H1 H2.
  destruct (seen !! i) as [[k1 x1]|] eqn:Hi; [|intros H1; discriminate H1].
  destruct (seen !! j) as [[k2 x2]|] eqn:Hj; [|intros _ H2; discriminate H2].
  simpl. intros [= ->] [= ->].
  rewrite (Hwf k1 r1) by (eapply list_elem_of_lookup_2; eauto).
  rewrite (Hwf k2 r2) by (eapply list_elem_of_lookup_2; eauto).
  intros [= ->]. apply Hij.
  apply (NoDup_lookup (List.map fst seen) i j k2 Hnd).
  - rewrite lookup_map, Hi. reflexivity.
  - rewrite lookup_map, Hj. reflexivity.
Qed.

Lemma set_has_add x y s :
  Js.set_has x (Js.set_add y s) = true -> x = y \/ Js.set_has x s = true.
Proof.
  unfold Js.set_add. destruct (Js.set_has y s) eqn:Hy; [auto|].
  unfold Js.set_has. rewrite existsb_app. simpl. rewrite orb_false_r.
  intros Hor. apply orb_true_iff in Hor as [Hs|Hx]; [auto|].
  left. apply String.eqb_eq. exact Hx.
Qed.

Lemma edge_step_inv eh st r :
  edge_loop_inv eh st -> edge_loop_inv eh (GraphDedup.edge_step eh st r).
Proof.
  destruct st as [ue refd]. intros (Hwf & Hnd & Href).
  unfold GraphDedup.edge_step. destruct (eh !! r) as [e|] eqn:Hr; [|repeat split; auto].
  unfold map_has. destruct (map_get (edge_key e) ue) as [x|] eqn:Hg; simpl;
    [repeat split; auto|].
  unfold map_set_new. repeat split; simpl.
  - intros k x Hin. apply elem_of_app in Hin as [Hin|Hin]; [auto|].
    apply list_elem_of_singleton in Hin. injection Hin as -> ->.
    unfold key_at. rewrite Hr. reflexivity.
  - rewrite List.map_app. simpl. apply NoDup_app. split; [exact Hnd|]. split.
    + intros k Hk Hk'. apply list_elem_of_singleton in Hk'. subst k.
      apply map_get_None in Hg. contradiction.
    + apply NoDup_singleton.
  - intros x Hx. unfold map_values. rewrite List.map_app. simpl.
    apply set_has_add in Hx as [->|Hx].
    { exists r, e. split; [|split; [exact Hr | right; reflexivity]].
      apply elem_of_app. right. left. }
    apply set_has_add in Hx as [->|Hx].
    { exists r, e. split; [|split; [exact Hr | left; reflexivity]].
      apply elem_of_app. right. left. }
    destruct (Href x Hx) as (re & e' & Hin & He' & Hinc).
    exists re, e'. split; [|auto]. apply elem_of_app. left. exact Hin.
Qed.

Lemma edge_loop_invariant eh edges : forall st,
  edge_loop_inv eh st -> edge_loop_inv eh (fold_left (GraphDedup.edge_step eh) edges st).
Proof.
  induction edges as [|r rest IH]; intros st Hinv; simpl; [exact Hinv|].
  apply IH. apply edge_step_inv. exact Hinv.
Qed.

Lemma edge_loop_inv_init eh : edge_loop_inv eh ([], []).
Proof.
  repeat split; simpl.
  - intros k e Hin. inversion Hin.
  - apply NoDup_nil_2.
  - discriminate.
Qed.

(** C1, as the code has it: in the variants whose [deduplicate] takes the two
    arrays (the registry and the argument-tracking variant), every node of
    the result is the source or the target of an edge of the result. *)
Theorem C1_referenced_only_in_graph_dedup
    (nodes : list ref) (h : list node) (edges : list ref) (eh : list edge)
    (res : GraphDedup.result) (h' : list node) (r : ref) :
  GraphDedup.deduplicate nodes h edges eh = (res, h') ->
  r ∈ GraphDedup.res_nodes res ->
  exists n re e,
    h' !! r = Some n /\ re ∈ GraphDedup.res_edges res /\ eh !! re = Some e /\
    incident e (node_id n).
Proof.
  unfold GraphDedup.deduplicate.
  destruct (fold_left GraphDedup.node_step nodes ([], h)) as [un h1].
  pose proof (edge_loop_invariant eh edges _ (edge_loop_inv_init eh)) as (_ & _ & Href).
  destruct (fold_left (GraphDedup.edge_step eh) edges ([], [])) as [ue refd].
  intros [= <- <-] Hin. simpl in *.
  apply list_elem_of_In in Hin. apply filter_In in Hin as [_ Hf].
  destruct (h1 !! r) as [n|] eqn:Hr; [|discriminate].
  destruct (Href _ Hf) as (re & e & Hre & He & Hinc).
  exists n, re, e. auto.
Qed.

(** C1 at the two files of [Samples.two_files]: the node [x.js:f] is the
    target of the one edge. *)
Lemma C1_referenced_only_witness :
  exists n re e,
    snd (GraphDedup.deduplicate [0; 1] (nodes (Registry.graph Samples.two_files))
           [0] (edges (Registry.graph Samples.two_files))) !! 0 = Some n /\
    re ∈ [0] /\ edges (Registry.graph Samples.two_files) !! re = Some e /\
    incident e (node_id n).
Proof.
  apply (C1_referenced_only_in_graph_dedup [0; 1]
           (nodes (Registry.graph Samples.two_files)) [0]
           (edges (Registry.graph Samples.two_files))
           (GraphDedup.Result [0] [0]) _ 0).
  - vm_compute. reflexivity.
  - simpl. left.
Defined.

(** C1 as the specification states it fails in index.js, whose report is not
    filtered: a file with [function isolated(){}] alone is reported with one
    node and no edge. *)
Lemma C1_isolated_node_reported :
  let s := state_of (walk_simple (Simple.visit "a.js") Samples.tree_isolated (State [] [])) in
  let report := fst (Simple.displayResults s) in
  Simple.uniqueNodes report
    = [Node "a.js:isolated" (Some "isolated") "method" (Some "[1-1]")] /\
  Simple.uniqueEdges report = [] /\
  ~ (forall n, n ∈ Simple.uniqueNodes report ->
       exists e, e ∈ Simple.uniqueEdges report /\ incident e (node_id n)).
Proof.
  split; [reflexivity|]. split; [reflexivity|].
  intros Hall.
  destruct (Hall (Node "a.js:isolated" (Some "isolated") "method" (Some "[1-1]")))
    as (e & Hin & _).
  - vm_compute. left.
  - vm_compute in Hin. inversion Hin.
Qed.

Lemma edge_loop_covers eh edges : forall ue refd,
  (forall k, k ∈ List.map fst ue ->
     k ∈ List.map fst (fst (fold_left (GraphDedup.edge_step eh) edges (ue, refd)))) /\
  (forall r e, r ∈ edges -> eh !! r = Some e ->
     edge_key e ∈ List.map fst (fst (fold_left (GraphDedup.edge_step eh) edges (ue, refd)))).
Proof.
  induction edges as [|r rest IH]; intros ue refd.
  { split; [auto|]. intros r e Hin. inversion Hin. }
  change (fold_left (GraphDedup.edge_step eh) (r :: rest) (ue, refd))
    with (fold_left (GraphDedup.edge_step eh) rest (GraphDedup.edge_step eh (ue, refd) r)).
  destruct (GraphDedup.edge_step eh (ue, refd) r) as [ue1 refd1] eqn:Hs.
  destruct (IH ue1 refd1) as [Hgrow Hcov].
  assert (Hstep : (forall k, k ∈ List.map fst ue -> k ∈ List.map fst ue1) /\
                  (forall e, eh !! r = Some e -> edge_key e ∈ List.map fst ue1)).
  { unfold GraphDedup.edge_step in Hs. destruct (eh !! r) as [e|] eqn:Hr.
    - unfold map_has in Hs. destruct (map_get (edge_key e) ue) as [x|] eqn:Hg;
        simpl in Hs; injection Hs as <- <-.
      + split; [auto|]. intros e0 [= <-].
        apply map_get_In in Hg. apply list_elem_of_In. apply in_map_iff.
        exists (edge_key e, x). split; [reflexivity | apply list_elem_of_In; exact Hg].
      + unfold map_set_new. rewrite List.map_app. split.
        * intros k Hk. apply elem_of_app. left. exact Hk.
        * intros e0 [= <-]. apply elem_of_app. right. left.
    - injection Hs as <- <-. split; [auto|]. discriminate. }
  destruct Hstep as [Hgrow1 Hcov1]. split; [auto|].
  intros x e Hin He. apply elem_of_cons in Hin as [->|Hin]; [|eauto].
  apply Hgrow, Hcov1. exact He.
Qed.

(** A key of a well-formed map has its entry's object among the values. *)
Lemma key_in_values {A : Type} (keyFn : A -> string) (seen : jsmap) (h : list A) k :
  wf_seen keyFn seen h -> k ∈ List.map fst seen ->
  exists r o, r ∈ map_values seen /\ h !! r = Some o /\ keyFn o = k.
Proof.
  intros Hwf Hin. apply list_elem_of_In in Hin. apply in_map_iff in Hin as ([k' r] & Hk & Hin).
  simpl in Hk. subst k'. apply list_elem_of_In in Hin.
  pose proof (Hwf k r Hin) as Hkey. unfold key_at in Hkey.
  destruct (h !! r) as [o|] eqn:Hr; [|discriminate]. simpl in Hkey. injection Hkey as Hkey.
  exists r, o. split; [|auto]. unfold map_values. apply list_elem_of_In. apply in_map_iff.
  exists (k, r). split; [reflexivity | apply list_elem_of_In; exact Hin].
Qed.

(** ** The edges a call pushes *)

Lemma call_entry_edges fileName parentFunction calleeName s entry :
  exists added,
    edges (Registry.graph (Registry.call_entry fileName parentFunction calleeName s entry))
    = edges (Registry.graph s) ++ added /\
    Forall (fun e => edge_source e = fileName +:+ ":" +:+ parentFunction /\
                     edge_type e = "calls") added.
Proof.
  unfold Registry.call_entry.
  destruct (Registry.info_name (snd entry)) as [name|];
    [|exists []; rewrite app_nil_r; auto].
  destruct (String.eqb name calleeName); [|exists []; rewrite app_nil_r; auto].
  unfold Registry.addEdge.
  destruct (Registry.registry_has _ _); [|exists []; rewrite app_nil_r; auto].
  eexists. split; [reflexivity|]. apply Forall_cons. auto.
Qed.

(** The registry's [forEach] pushes only edges from the given caller. *)
Lemma call_entries_edges fileName parentFunction calleeName reg : forall s,
  exists added,
    edges (Registry.graph
             (fold_left (Registry.call_entry fileName parentFunction calleeName) reg s))
    = edges (Registry.graph s) ++ added /\
    Forall (fun e => edge_source e = fileName +:+ ":" +:+ parentFunction /\
                     edge_type e = "calls") added.
Proof.
  induction reg as [|entry reg IH]; intros s; simpl.
  { exists []. rewrite app_nil_r. auto. }
  destruct (IH (Registry.call_entry fileName parentFunction calleeName s entry))
    as (added & Heq & Hall).
  destruct (call_entry_edges fileName parentFunction calleeName s entry)
    as (added1 & Heq1 & Hall1).
  exists (added1 ++ added). rewrite Heq, Heq1, app_assoc. split; [reflexivity|].
  apply Forall_app. auto.
Qed.

Lemma args_addEdge_edges source target type s :
  edges (Args.addEdge source target type s) = edges s ++ [Edge source target type].
Proof.
  unfold Args.addEdge, Args.ensureNodeExists.
  repeat match goal with |- context [if ?b then _ else _] => destruct b end;
    reflexivity.
Qed.

(** ** The argument rendering and the edge key *)

(** With the same source and target, two keys agree exactly when the types do. *)
Lemma edge_key_same_ends source target type1 type2 :
  edge_key (Edge source target type1) = edge_key (Edge source target type2)
  <-> type1 = type2.
Proof.
  unfold edge_key. simpl. split; [|intros ->; reflexivity].
  intros Heq. repeat apply String.app_inj in Heq. exact Heq.
Qed.

Lemma calls_type_inj args1 args2 :
  "calls(" +:+ args1 +:+ ")" = "calls(" +:+ args2 +:+ ")" <-> args1 = args2.
Proof.
  split; [|intros ->; reflexivity].
  intros Heq. apply String.app_inj in Heq. apply append_inv_tail in Heq. exact Heq.
Qed.

(** ** Edges to identities that no entity declares *)

(** In the registry variant an edge is pushed only to a registered target. *)
Lemma registry_addEdge_target_registered sf sm tf tm type s :
  Registry.graph (Registry.addEdge sf sm tf tm type s) <> Registry.graph s ->
  Registry.registry_has (tf +:+ ":" +:+ tm) (Registry.methodRegistry s) = true.
Proof.
  unfold Registry.addEdge. destruct (Registry.registry_has _ _); [reflexivity|].
  intros Hne. exfalso. apply Hne. reflexivity.
Qed.

(** C8. In index.js the visitor of a call [callee(...)] with a bare identifier
    as callee pushes one [calls] edge whose target is the bare callee name and
    pushes no node, whatever the arrays hold. A file whose one visited node
    is such a call therefore yields no entity at all and that one edge, and
    the edge is in the deduplicated report: for some input (every such file)
    an edge's target is an identity that was never declared as an entity. *)
Theorem C8_undeclared_target_preserved
    (fileName callee : string) (args : list Ast.argument) (l : Ast.loc)
    (parent : option Ast.node) :
  let n := Ast.Mk (Ast.CallExpression (Ast.Identifier callee) args) l parent in
  let s := state_of (walk_simple (Simple.visit fileName) [n] (State [] [])) in
  let e := Edge (fileName +:+ ":anonymous[" +:+ pretty (Ast.start_line l) +:+ "-"
                   +:+ pretty (Ast.end_line l) +:+ "]") callee "calls" in
  (forall s0, nodes (state_of (Simple.visit fileName n s0)) = nodes s0 /\
              edges (state_of (Simple.visit fileName n s0)) = edges s0 ++ [e]) /\
  nodes s = [] /\ edges s = [e] /\
  Simple.uniqueEdges (fst (Simple.displayResults s)) = [e] /\
  Simple.uniqueNodes (fst (Simple.displayResults s)) = [] /\
  edge_target e = callee.
Proof.
  intros n s e. split.
  - intros s0. split; reflexivity.
  - repeat split.
Qed.


(** ** Files that do not parse *)

Section ScanFacts.
Context {S : Type}.
Variable extname : string -> string.
Variable path_join : string -> string -> string.
Variable toLowerCase : string -> string.
Variable parseComponent : string -> option string.
Variable parseJavaScript : string -> string -> S -> outcome S * list console_entry.
Variable verbose : bool.

Local Abbreviation parse_file :=
  (parseFile extname toLowerCase parseComponent parseJavaScript verbose).
Local Abbreviation scan_one :=
  (scan_file extname path_join toLowerCase parseComponent parseJavaScript verbose).
Local Abbreviation scan_all :=
  (scan extname path_join toLowerCase parseComponent parseJavaScript verbose).

Lemma scan_app dir pre post s :
  scan_all dir (pre ++ post) s
  = (let '(s1, l1) := scan_all dir pre s in
     let '(s2, l2) := scan_all dir post s1 in
     (s2, l1 ++ l2)).
Proof.
  revert s. induction pre as [|e pre IH]; intros s; simpl.
  - destruct (scan_all dir post s) as [s2 l2]. reflexivity.
  - destruct (scan_entry _ _ _ _ _ _ dir e s) as [s1 l1].
    rewrite IH. destruct (scan_all dir pre s1) as [s2 l2].
    destruct (scan_all dir post s2) as [s3 l3]. rewrite app_assoc. reflexivity.
Qed.

(** A sub-directory is scanned like the directory itself. *)
Lemma scan_entry_dir dir name entries s :
  scan_entry extname path_join toLowerCase parseComponent parseJavaScript verbose
    dir (FsDir name entries) s
  = if negb (existsb (String.eqb name) ignoreDirs)
    then scan_all (path_join dir name) entries s
    else (s, []).
Proof.
  simpl. destruct (negb _); [|reflexivity].
  revert s. induction entries as [|e es IH]; intros s; simpl; [reflexivity|].
  destruct (scan_entry _ _ _ _ _ _ (path_join dir name) e s) as [s1 l1].
  rewrite IH. reflexivity.
Qed.

(** [parseFile] on a file whose text does not parse: the state is the one it
    was given and the warning is among the console lines. *)
Lemma parseFile_unparsable filePath content text warning s :
  script_text parseComponent (toLowerCase (extname filePath)) content text ->
  parseJavaScript filePath text s = (Done s, [warning]) ->
  exists l, parse_file filePath content s = (Done s, l) /\ warning ∈ l.
Proof.
  intros Htext Hpj. unfold parseFile.
  destruct Htext as [Hext|script Hext Hcomp|piece Hext Hcomp Hinc Hsplit].
  - destruct (String.eqb_spec (toLowerCase (extname filePath)) ".vue") as [|_];
      [contradiction|].
    rewrite Hpj. eexists. split; [reflexivity|].
    apply elem_of_app. right. left.
  - rewrite Hext. simpl String.eqb. cbv iota. rewrite Hcomp, Hpj.
    eexists. split; [reflexivity|].
    apply elem_of_app. right. apply elem_of_app. right. left.
  - rewrite Hext. simpl String.eqb. cbv iota. rewrite Hcomp, Hinc, Hsplit, Hpj.
    eexists. split; [reflexivity|].
    apply elem_of_app. right. apply elem_of_app. right. left.
Qed.

Lemma scan_file_unparsable dir file content text warning s :
  existsb (String.eqb (toLowerCase (extname file))) allowedExtensions = true ->
  script_text parseComponent (toLowerCase (extname (path_join dir file))) content text ->
  parseJavaScript (path_join dir file) text s = (Done s, [warning]) ->
  exists l, scan_one dir file content s = (s, l) /\ warning ∈ l.
Proof.
  intros Hallowed Htext Hpj. unfold scan_file. rewrite Hallowed.
  destruct (parseFile_unparsable _ _ _ _ _ Htext Hpj) as (l & -> & Hin).
  eexists. split; [reflexivity|]. apply elem_of_app. right. exact Hin.
Qed.

(** A listing with such a file in it: the files after it are scanned from the
    state the files before it left. *)
Lemma scan_unparsable dir pre file content post text warning s :
  existsb (String.eqb (toLowerCase (extname file))) allowedExtensions = true ->
  script_text parseComponent (toLowerCase (extname (path_join dir file))) content text ->
  (forall s', parseJavaScript (path_join dir file) text s' = (Done s', [warning])) ->
  exists l,
    warning ∈ l /\
    scan_all dir (pre ++ FsFile file content :: post) s
    = (let '(s1, l1) := scan_all dir pre s in
       let '(s2, l2) := scan_all dir post s1 in
       (s2, l1 ++ l ++ l2)).
Proof.
  intros Hallowed Htext Hpj. rewrite scan_app.
  destruct (scan_all dir pre s) as [s1 l1]. simpl.
  destruct (scan_file_unparsable dir file content text warning s1 Hallowed Htext (Hpj s1))
    as (l & Hl & Hin).
  exists l. split; [exact Hin|]. rewrite Hl.
  destruct (scan_all dir post s1) as [s2 l2]. reflexivity.
Qed.

(** A property of the state that [parseJavaScript] keeps is kept by the scan. *)
Section Preserved.
Variable P : S -> Prop.
Hypothesis parse_keeps : forall filePath content s,
  P s -> P (state_of (fst (parseJavaScript filePath content s))).

Lemma parseFile_keeps filePath content s :
  P s -> P (state_of (fst (parse_file filePath content s))).
Proof.
  intros Hs. unfold parseFile.
  destruct (String.eqb _ ".vue").
  - destruct (parseComponent content) as [script|].
    + specialize (parse_keeps filePath script s Hs).
      destruct (parseJavaScript filePath script s) as [o l]. exact parse_keeps.
    + destruct (Js.includes _ _); [|exact Hs].
      destruct (Js.split_1 _ _) as [piece|]; [|exact Hs].
      specialize (parse_keeps filePath (Js.split_0 "</script>" piece) s Hs).
      destruct (parseJavaScript filePath _ s) as [o l]. exact parse_keeps.
  - specialize (parse_keeps filePath content s Hs).
    destruct (parseJavaScript filePath content s) as [o l]. exact parse_keeps.
Qed.

Lemma scan_file_keeps dir file content s :
  P s -> P (fst (scan_one dir file content s)).
Proof.
  intros Hs. unfold scan_file.
  destruct (existsb _ allowedExtensions); [|exact Hs].
  pose proof (parseFile_keeps (path_join dir file) content s Hs) as Hk.
  destruct (parse_file (path_join dir file) content s) as [[s1|s1 m] l]; exact Hk.
Qed.

Lemma scan_keeps_Forall entries :
  Forall (fun e => forall dir s, P s ->
            P (fst (scan_entry extname path_join toLowerCase parseComponent
                      parseJavaScript verbose dir e s))) entries ->
  forall dir s, P s -> P (fst (scan_all dir entries s)).
Proof.
  induction 1 as [|e es He _ IH]; intros dir s Hs; simpl; [exact Hs|].
  specialize (He dir s Hs).
  destruct (scan_entry _ _ _ _ _ _ dir e s) as [s1 l1].
  specialize (IH dir s1 He). destruct (scan_all dir es s1) as [s2 l2]. exact IH.
Qed.

Lemma scan_entry_keeps (e : fsentry) : forall dir s,
  P s ->
  P (fst (scan_entry extname path_join toLowerCase parseComponent parseJavaScript
            verbose dir e s)).
Proof.
  induction e as [file content|name|name entries IH] using fsentry_tree_ind;
    intros dir s Hs.
  - apply scan_file_keeps. exact Hs.
  - exact Hs.
  - rewrite scan_entry_dir. destruct (negb _); [|exact Hs].
    apply scan_keeps_Forall; assumption.
Qed.

Lemma scan_keeps dir entries s : P s -> P (fst (scan_all dir entries s)).
Proof.
  apply scan_keeps_Forall. apply Forall_forall. intros e _. apply scan_entry_keeps.
Qed.
End Preserved.
End ScanFacts.

(** C9. In index.js a file whose text does not parse leaves the arrays as
    they were, the console gets a warning that names the file's path, and the
    files listed after it are scanned from the state the files before it
    left, as if it were not there. *)
Theorem C9_unparsable_file_skipped
    (acorn_parse : string -> string + Ast.t) (basename extname : string -> string)
    (path_join : string -> string -> string) (toLowerCase : string -> string)
    (parseComponent : string -> option string)
    (dir : string) (pre post : list fsentry) (file content text message : string)
    (s : state) :
  existsb (String.eqb (toLowerCase (extname file))) allowedExtensions = true ->
  script_text parseComponent (toLowerCase (extname (path_join dir file))) content text ->
  acorn_parse text = inl message ->
  let scanD := Simple.scanDirectory acorn_parse basename extname path_join toLowerCase
                 parseComponent in
  let warning := parse_warning (path_join dir file) message in
  Simple.parseJavaScript acorn_parse basename (path_join dir file) text s
    = (Done s, [warning]) /\
  (exists before after, warning = Warn (before +:+ path_join dir file +:+ after)) /\
  exists l,
    warning ∈ l /\
    scanD dir (pre ++ FsFile file content :: post) s
    = (let '(s1, l1) := scanD dir pre s in
       let '(s2, l2) := scanD dir post s1 in
       (s2, l1 ++ l ++ l2)).
Proof.
  intros Hallowed Htext Hparse scanD warning.
  assert (Hpj : forall s', Simple.parseJavaScript acorn_parse basename
                             (path_join dir file) text s' = (Done s', [warning])).
  { intros s'. unfold Simple.parseJavaScript. rewrite Hparse. reflexivity. }
  split; [apply Hpj|]. split.
  { exists "Warning: Could not parse ", (". Error: " +:+ message). reflexivity. }
  apply (scan_unparsable extname path_join toLowerCase parseComponent
           (Simple.parseJavaScript acorn_parse basename) true
           dir pre file content post text warning s Hallowed Htext Hpj).
Qed.

(** X22. The registry variant skips a file whose text does not parse in the
    same way: the warning is on the console and the files listed after it are
    scanned from the state the files before it left. *)
Lemma registry_unparsable_file_skipped
    (acorn_parse : string -> string + Ast.t) (basename extname : string -> string)
    (path_join : string -> string -> string) (toLowerCase : string -> string)
    (parseComponent : string -> option string)
    (dir : string) (pre post : list fsentry) (file content text message : string)
    (s : Registry.rstate) :
  existsb (String.eqb (toLowerCase (extname file))) allowedExtensions = true ->
  script_text parseComponent (toLowerCase (extname (path_join dir file))) content text ->
  acorn_parse text = inl message ->
  let scanD := Registry.scanDirectory acorn_parse basename extname path_join toLowerCase
                 parseComponent in
  exists l,
    parse_warning (path_join dir file) message ∈ l /\
    scanD dir (pre ++ FsFile file content :: post) s
    = (let '(s1, l1) := scanD dir pre s in
       let '(s2, l2) := scanD dir post s1 in
       (s2, l1 ++ l ++ l2)).
Proof.
  intros Hallowed Htext Hparse scanD.
  apply (scan_unparsable extname path_join toLowerCase parseComponent
           (Registry.parseJavaScript acorn_parse basename) false
           dir pre file content post text _ s Hallowed Htext).
  intros s'. unfold Registry.parseJavaScript. rewrite Hparse. reflexivity.
Qed.

(** X23. The argument-tracking variant skips a file whose text does not
    parse in the same way. *)
Lemma args_unparsable_file_skipped
    (acorn_parse : string -> string + Ast.t) (basename extname : string -> string)
    (path_join : string -> string -> string) (toLowerCase : string -> string)
    (parseComponent : string -> option string)
    (dir : string) (pre post : list fsentry) (file content text message : string)
    (s : state) :
  existsb (String.eqb (toLowerCase (extname file))) allowedExtensions = true ->
  script_text parseComponent (toLowerCase (extname (path_join dir file))) content text ->
  acorn_parse text = inl message ->
  let scanD := Args.scanDirectory acorn_parse basename extname path_join toLowerCase
                 parseComponent in
  exists l,
    parse_warning (path_join dir file) message ∈ l /\
    scanD dir (pre ++ FsFile file content :: post) s
    = (let '(s1, l1) := scanD dir pre s in
       let '(s2, l2) := scanD dir post s1 in
       (s2, l1 ++ l ++ l2)).
Proof.
  intros Hallowed Htext Hparse scanD.
  apply (scan_unparsable extname path_join toLowerCase parseComponent
           (Args.parseJavaScript acorn_parse basename) true
           dir pre file content post text _ s Hallowed Htext).
  intros s'. unfold Args.parseJavaScript. rewrite Hparse. reflexivity.
Qed.

(** C9 at a directory with one file, [bad.js], that does not parse. *)
Lemma C9_unparsable_file_witness :
  let acorn_parse := fun text : string =>
    if String.eqb text "function (" then inl "Unexpected token (1:9)" else inr [] in
  let scanD := Simple.scanDirectory acorn_parse (fun p => p) (fun _ => ".js")
                 (fun d f => d +:+ "/" +:+ f) (fun x => x) (fun _ => None) in
  exists l,
    Warn "Warning: Could not parse src/bad.js. Error: Unexpected token (1:9)" ∈ l /\
    scanD "src" ([] ++ [FsFile "bad.js" "function ("]) (State [] [])
    = (State [] [], [] ++ l ++ []).
Proof.
  intros acorn_parse scanD.
  destruct (C9_unparsable_file_skipped acorn_parse (fun p => p) (fun _ => ".js")
              (fun d f => d +:+ "/" +:+ f) (fun x => x) (fun _ => None)
              "src" [] [] "bad.js" "function (" "function (" "Unexpected token (1:9)"
              (State [] []))
    as (_ & _ & l & Hin & Hscan).
  - reflexivity.
  - apply text_plain. discriminate.
  - reflexivity.
  - exists l. split; [exact Hin | exact Hscan].
Defined.

(** ** Materialised endpoints *)

Lemma has_node_spec id (ns : list node) :
  existsb (fun n => String.eqb (node_id n) id) ns = true
  <-> exists n, n ∈ ns /\ node_id n = id.
Proof.
  rewrite existsb_exists. split.
  - intros (n & Hin & Heq). exists n. split; [apply list_elem_of_In; exact Hin|].
    apply String.eqb_eq. exact Heq.
  - intros (n & Hin & Heq). exists n. split; [apply list_elem_of_In; exact Hin|].
    apply String.eqb_eq. exact Heq.
Qed.

Lemma grows_refl s : grows s s.
Proof. split; [exists []; rewrite app_nil_r|]; reflexivity. Qed.

Lemma grows_trans s1 s2 s3 : grows s1 s2 -> grows s2 s3 -> grows s1 s3.
Proof.
  intros [[a1 H1] E1] [[a2 H2] E2]. split; [|congruence].
  exists (a1 ++ a2). rewrite H2, H1, app_assoc. reflexivity.
Qed.

Lemma grows_endpoints s s' :
  grows s s' -> endpoints_materialised s -> endpoints_materialised s'.
Proof.
  intros [[added Hn] He] Hinv e Hin. rewrite He in Hin.
  destruct (Hinv e Hin) as [(n1 & Hn1 & Hs) (n2 & Hn2 & Ht)].
  split; [exists n1 | exists n2]; (split; [|assumption]);
    rewrite Hn; apply elem_of_app; left; assumption.
Qed.

Lemma args_addNode_nodes id label type lines s :
  nodes (Args.addNode id label type lines s)
  = nodes s ++ [Node id label (if String.eqb type "unknown" then inferred_kind id else type)
                  lines] /\
  edges (Args.addNode id label type lines s) = edges s.
Proof. split; reflexivity. Qed.

Lemma args_addNode_grows id label type lines s :
  grows s (Args.addNode id label type lines s).
Proof. split; [eexists|]; apply args_addNode_nodes. Qed.

Lemma args_ensure_grows id label type s :
  grows s (Args.ensureNodeExists id label type s).
Proof.
  unfold Args.ensureNodeExists. destruct (negb _);
    [apply args_addNode_grows | apply grows_refl].
Qed.

Lemma args_ensure_has id label type s :
  exists n, n ∈ nodes (Args.ensureNodeExists id label type s) /\ node_id n = id.
Proof.
  unfold Args.ensureNodeExists.
  destruct (existsb (fun n => String.eqb (node_id n) id) (nodes s)) eqn:Hhas; simpl.
  - apply has_node_spec. exact Hhas.
  - eexists. split; [apply elem_of_app; right; left|]. reflexivity.
Qed.

Lemma args_addEdge_endpoints source target type s :
  endpoints_materialised s -> endpoints_materialised (Args.addEdge source target type s).
Proof.
  intros Hinv. unfold Args.addEdge.
  set (l1 := Js.or (Js.split_1 ":" source) (Some source)).
  set (l2 := Js.or (Js.split_1 ":" target) (Some target)).
  set (s1 := Args.ensureNodeExists source l1 "unknown" s).
  set (s2 := Args.ensureNodeExists target l2 "unknown" s1).
  pose proof (args_ensure_grows source l1 "unknown" s) as G1. fold s1 in G1.
  pose proof (args_ensure_grows target l2 "unknown" s1) as G2. fold s2 in G2.
  pose proof (grows_endpoints _ _ (grows_trans _ _ _ G1 G2) Hinv) as Hinv2.
  intros e Hin. simpl in Hin. apply elem_of_app in Hin as [Hin|Hin].
  - exact (Hinv2 e Hin).
  - apply list_elem_of_singleton in Hin. subst e. simpl. split.
    + destruct (args_ensure_has source l1 "unknown" s) as (n & Hn & Hid). fold s1 in Hn.
      exists n. split; [|exact Hid]. destruct G2 as [[added Hadd] _].
      rewrite Hadd. apply elem_of_app. left. exact Hn.
    + apply (args_ensure_has target l2 "unknown" s1).
Qed.

Lemma args_addNode_endpoints id label type lines s :
  endpoints_materialised s -> endpoints_materialised (Args.addNode id label type lines s).
Proof. apply grows_endpoints, args_addNode_grows. Qed.

Lemma args_import_endpoints fileName libraryName specifiers : forall s,
  endpoints_materialised s ->
  endpoints_materialised
    (fold_left (Args.import_specifier fileName libraryName) specifiers s).
Proof.
  induction specifiers as [|sp sps IH]; intros s Hinv; simpl; [exact Hinv|].
  apply IH. destruct sp; simpl; try exact Hinv.
  apply args_addEdge_endpoints, args_addNode_endpoints. exact Hinv.
Qed.

Lemma args_export_endpoints fileName properties : forall s,
  endpoints_materialised s ->
  endpoints_materialised (fold_left (Args.export_property fileName) properties s).
Proof.
  induction properties as [|m ms IH]; intros s Hinv; simpl; [exact Hinv|].
  apply IH. destruct m; simpl; try exact Hinv.
  destruct (is_function_literal _); [apply args_addNode_endpoints|]; exact Hinv.
Qed.

Lemma args_visit_endpoints fileName n s :
  endpoints_materialised s ->
  endpoints_materialised (state_of (Args.visit fileName n s)).
Proof.
  intros Hinv. unfold Args.visit.
  destruct (Ast.shape_of n) as [[name|]|[name|]|key|idn [init|]|src sps|[callee|] args|
                                |[props|]|key vt|]; simpl;
    try exact Hinv; try (apply args_addNode_endpoints; exact Hinv).
  - destruct (is_function_literal _); simpl;
      [apply args_addNode_endpoints|]; exact Hinv.
  - apply args_import_endpoints, args_addNode_endpoints. exact Hinv.
  - destruct (Args.render_arguments args); simpl;
      [apply args_addEdge_endpoints|]; exact Hinv.
  - apply args_export_endpoints. exact Hinv.
  - destruct (is_function_literal _); simpl;
      [apply args_addNode_endpoints|]; exact Hinv.
Qed.

Lemma args_walk_endpoints fileName ast : forall s,
  endpoints_materialised s ->
  endpoints_materialised (state_of (walk_simple (Args.visit fileName) ast s)).
Proof.
  induction ast as [|n rest IH]; intros s Hinv; simpl; [exact Hinv|].
  pose proof (args_visit_endpoints fileName n s Hinv) as Hv.
  destruct (Args.visit fileName n s) as [s1|s1 m]; simpl in Hv; [apply IH|]; exact Hv.
Qed.

Lemma args_parse_endpoints acorn_parse basename filePath content s :
  endpoints_materialised s ->
  endpoints_materialised
    (state_of (fst (Args.parseJavaScript acorn_parse basename filePath content s))).
Proof.
  intros Hinv. unfold Args.parseJavaScript.
  destruct (acorn_parse content) as [message|ast]; simpl; [exact Hinv|].
  apply args_walk_endpoints. exact Hinv.
Qed.

(** C10. In the argument-tracking variant [addEdge] pushes the edge with a
    node for its source and a node for its target in the node array; an
    endpoint that no node had yet gets a node without [lines] whose type is
    inferred from the id; and after a scan from the empty arrays every edge
    has both endpoints among the nodes. *)
Theorem C10_edge_endpoints_materialised :
  (forall source target type s,
     let s' := Args.addEdge source target type s in
     edges s' = edges s ++ [Edge source target type] /\
     (exists n, n ∈ nodes s' /\ node_id n = source) /\
     (exists n, n ∈ nodes s' /\ node_id n = target)) /\
  (forall id label s,
     (forall n, n ∈ nodes s -> node_id n <> id) ->
     exists label',
       nodes (Args.ensureNodeExists id label "unknown" s)
       = nodes s ++ [Node id label' (inferred_kind id) None]) /\
  (forall acorn_parse basename extname path_join toLowerCase parseComponent
          directory entries,
     endpoints_materialised
       (fst (Args.scanDirectory acorn_parse basename extname path_join toLowerCase
               parseComponent directory entries (State [] [])))).
Proof.
  split; [|split].
  - intros source target type s s'. split; [apply args_addEdge_edges|].
    unfold s', Args.addEdge.
    set (l1 := Js.or (Js.split_1 ":" source) (Some source)).
    set (l2 := Js.or (Js.split_1 ":" target) (Some target)).
    set (s1 := Args.ensureNodeExists source l1 "unknown" s).
    split.
    + destruct (args_ensure_has source l1 "unknown" s) as (n & Hn & Hid). fold s1 in Hn.
      destruct (args_ensure_grows target l2 "unknown" s1) as [[added Hadd] _].
      exists n. split; [|exact Hid]. simpl. rewrite Hadd.
      apply elem_of_app. left. exact Hn.
    + apply (args_ensure_has target l2 "unknown" s1).
  - intros id label s Hfresh. unfold Args.ensureNodeExists.
    destruct (existsb (fun n => String.eqb (node_id n) id) (nodes s)) eqn:Hhas.
    + apply has_node_spec in Hhas as (n & Hn & Hid). destruct (Hfresh n Hn Hid).
    + simpl. eexists. reflexivity.
  - intros. unfold Args.scanDirectory, scanDirectory.
    apply (scan_keeps extname path_join toLowerCase parseComponent
             (Args.parseJavaScript acorn_parse basename) true endpoints_materialised).
    + intros filePath content s. apply args_parse_endpoints.
    + intros e Hin. inversion Hin.
Qed.

(** C10 at a call of [parseInt] from [a.js:main]: neither endpoint had a node. *)
Lemma C10_edge_endpoints_witness :
  (forall n, n ∈ nodes (State [] []) -> node_id n <> "a.js:main") /\
  exists label',
    nodes (Args.ensureNodeExists "a.js:main" (Some "main") "unknown" (State [] []))
    = nodes (State [] []) ++ [Node "a.js:main" label' (inferred_kind "a.js:main") None].
Proof.
  assert (Hfresh : forall n, n ∈ nodes (State [] []) -> node_id n <> "a.js:main").
  { intros n Hin. inversion Hin. }
  split; [exact Hfresh|].
  destruct C10_edge_endpoints_materialised as (_ & Hensure & _).
  exact (Hensure "a.js:main" (Some "main") (State [] []) Hfresh).
Defined.


(** ** Line ranges and node types in what the extractors push

    The guard of the merge meets a missing [lines] on one side only when two
    observations with the same key differ in having a line range. The
    extractors decide by the node's type whether a node has one, so two nodes
    of the same type never differ in it. *)

Lemma walk_keeps {S : Type} (P : S -> Prop) (visit : Ast.node -> S -> outcome S) :
  (forall n s, P s -> P (state_of (visit n s))) ->
  forall ast s, P s -> P (state_of (walk_simple visit ast s)).
Proof.
  intros Hvisit. induction ast as [|n rest IH]; intros s Hs; simpl; [exact Hs|].
  pose proof (Hvisit n s Hs) as Hv.
  destruct (visit n s) as [s1|s1 m]; simpl in Hv; [apply IH|]; exact Hv.
Qed.

Lemma push_node_lines_by_type unlined n s :
  lines_by_type unlined n -> Forall (lines_by_type unlined) (nodes s) ->
  Forall (lines_by_type unlined) (nodes (push_node n s)).
Proof.
  intros Hn Hs. simpl. apply Forall_app. split; [exact Hs|]. apply Forall_cons. auto.
Qed.

Lemma truthy_lines_of_loc l : Js.truthy (Some (lines_of_loc l)) = true.
Proof. reflexivity. Qed.

Ltac lined_push :=
  repeat first
    [ assumption
    | apply push_node_lines_by_type; [reflexivity|]
    | progress (change (nodes (push_edge ?e ?s)) with (nodes s)) ].

Lemma simple_visit_lines fileName n s :
  Forall (lines_by_type simple_unlined) (nodes s) ->
  Forall (lines_by_type simple_unlined) (nodes (state_of (Simple.visit fileName n s))).
Proof.
  intros Hs. unfold Simple.visit.
  destruct (Ast.shape_of n) as [[name|]|[name|]|key|idn [init|]|src sps|[callee|] args|
                                |[props|]|key vt|]; simpl;
    try exact Hs;
    try (unfold Simple.addNode, Simple.addEdge; lined_push; fail).
  - destruct (is_function_literal _); simpl; [|exact Hs].
    unfold Simple.addNode. lined_push.
  - assert (H0 : Forall (lines_by_type simple_unlined)
                   (nodes (Simple.addNode src (Some src) "library" None s)))
      by (unfold Simple.addNode; lined_push).
    revert H0. generalize (Simple.addNode src (Some src) "library" None s).
    induction sps as [|sp sps IH]; intros s0 H0; simpl; [exact H0|].
    apply IH. destruct sp; simpl; try exact H0.
    unfold Simple.addNode, Simple.addEdge. lined_push.
  - revert s Hs. induction props as [|m ms IH]; intros s Hs; simpl; [exact Hs|].
    apply IH. destruct m; simpl; try exact Hs.
    destruct (is_function_literal _); [|exact Hs]. unfold Simple.addNode. lined_push.
  - destruct (is_function_literal _); simpl; [|exact Hs].
    unfold Simple.addNode. lined_push.
Qed.

Lemma args_ensure_lines id label s :
  Forall (lines_by_type args_unlined) (nodes s) ->
  Forall (lines_by_type args_unlined) (nodes (Args.ensureNodeExists id label "unknown" s)).
Proof.
  intros Hs. unfold Args.ensureNodeExists. destruct (negb _); [|exact Hs].
  unfold Args.addNode. simpl Js.show. simpl String.eqb. cbv iota.
  apply push_node_lines_by_type; [|exact Hs].
  unfold lines_by_type. simpl node_type.
  destruct (Js.includes ":" id); [reflexivity|].
  destruct (Js.includes "/" id); reflexivity.
Qed.

Lemma args_addEdge_lines source target type s :
  Forall (lines_by_type args_unlined) (nodes s) ->
  Forall (lines_by_type args_unlined) (nodes (Args.addEdge source target type s)).
Proof.
  intros Hs. unfold Args.addEdge.
  change (nodes (push_edge ?e ?s0)) with (nodes s0).
  apply args_ensure_lines, args_ensure_lines. exact Hs.
Qed.

Lemma args_visit_lines fileName n s :
  Forall (lines_by_type args_unlined) (nodes s) ->
  Forall (lines_by_type args_unlined) (nodes (state_of (Args.visit fileName n s))).
Proof.
  intros Hs. unfold Args.visit.
  destruct (Ast.shape_of n) as [[name|]|[name|]|key|idn [init|]|src sps|[callee|] args|
                                |[props|]|key vt|]; simpl;
    try exact Hs;
    try (unfold Args.addNode; simpl String.eqb; cbv iota; lined_push; fail).
  - destruct (is_function_literal _); simpl; [|exact Hs].
    unfold Args.addNode; simpl String.eqb; cbv iota. lined_push.
  - assert (H0 : Forall (lines_by_type args_unlined)
                   (nodes (Args.addNode src (Some src) "library" None s)))
      by (unfold Args.addNode; simpl String.eqb; cbv iota; lined_push).
    revert H0. generalize (Args.addNode src (Some src) "library" None s).
    induction sps as [|sp sps IH]; intros s0 H0; cbn [fold_left]; [exact H0|].
    apply IH. unfold Args.import_specifier. destruct sp; try exact H0.
    apply args_addEdge_lines.
    unfold Args.addNode; simpl String.eqb; cbv iota. lined_push.
  - destruct (Args.render_arguments args); cbn [state_of]; [|exact Hs].
    apply args_addEdge_lines. exact Hs.
  - revert s Hs. induction props as [|m ms IH]; intros s Hs; simpl; [exact Hs|].
    apply IH. destruct m; simpl; try exact Hs.
    destruct (is_function_literal _); [|exact Hs].
    unfold Args.addNode; simpl String.eqb; cbv iota. lined_push.
  - destruct (is_function_literal _); simpl; [|exact Hs].
    unfold Args.addNode; simpl String.eqb; cbv iota. lined_push.
Qed.

(** After a scan from the empty arrays, two nodes of the same type both have
    a line range or both have none: in index.js and in the argument-tracking
    variant. (The registry variant pushes every node with a line range.) *)
Lemma same_type_same_lines unlined (ns : list node) n1 n2 :
  Forall (lines_by_type unlined) ns -> n1 ∈ ns -> n2 ∈ ns ->
  node_type n1 = node_type n2 ->
  Js.truthy (node_lines n1) = Js.truthy (node_lines n2).
Proof.
  intros Hall H1 H2 Hty. rewrite Forall_forall in Hall.
  rewrite (Hall n1 H1), (Hall n2 H2), Hty. reflexivity.
Qed.

(** X21. After a scan from the empty arrays, in index.js and in the
    argument-tracking variant, whether a node carries a line range is decided
    by its type: libraries and imported methods (and, in the
    argument-tracking variant, the nodes made for edge endpoints) have none,
    every other node has one. *)
Lemma scanned_nodes_lined_by_type
    acorn_parse basename extname path_join toLowerCase parseComponent directory entries :
  Forall (lines_by_type simple_unlined)
    (nodes (fst (Simple.scanDirectory acorn_parse basename extname path_join toLowerCase
                   parseComponent directory entries (State [] [])))) /\
  Forall (lines_by_type args_unlined)
    (nodes (fst (Args.scanDirectory acorn_parse basename extname path_join toLowerCase
                   parseComponent directory entries (State [] [])))).
Proof.
  split.
  - apply (scan_keeps extname path_join toLowerCase parseComponent
             (Simple.parseJavaScript acorn_parse basename) true
             (fun s => Forall (lines_by_type simple_unlined) (nodes s))).
    + intros filePath content s Hs. unfold Simple.parseJavaScript.
      destruct (acorn_parse content) as [message|ast]; simpl; [exact Hs|].
      apply (walk_keeps (fun s => Forall (lines_by_type simple_unlined) (nodes s)));
        [|exact Hs].
      intros n s0. apply simple_visit_lines.
    + constructor.
  - apply (scan_keeps extname path_join toLowerCase parseComponent
             (Args.parseJavaScript acorn_parse basename) true
             (fun s => Forall (lines_by_type args_unlined) (nodes s))).
    + intros filePath content s Hs. unfold Args.parseJavaScript.
      destruct (acorn_parse content) as [message|ast]; simpl; [exact Hs|].
      apply (walk_keeps (fun s => Forall (lines_by_type args_unlined) (nodes s)));
        [|exact Hs].
      intros n s0. apply args_visit_lines.
    + constructor.
Qed.


(** * Further properties of the deduplication *)

Lemma map_get_existsb key (m : jsmap) :
  existsb (String.eqb key) (List.map fst m)
  = match map_get key m with Some _ => true | None => false end.
Proof.
  induction m as [|[k r] m IH]; simpl; [reflexivity|].
  rewrite String.eqb_sym. destruct (String.eqb k key); [reflexivity | exact IH].
Qed.

Lemma first_refs_ext {A : Type} (keyFn : A -> string) (h h1 : list A) array :
  (forall x, key_at keyFn h1 x = key_at keyFn h x) ->
  forall seen_keys, first_refs keyFn seen_keys array h1 = first_refs keyFn seen_keys array h.
Proof.
  intros Hk. induction array as [|r rest IH]; intros seen_keys; simpl; [reflexivity|].
  rewrite Hk. destruct (key_at keyFn h r) as [k|]; [|apply IH].
  destruct (existsb _ _); rewrite IH; reflexivity.
Qed.

(** [array.filter] keeps the first reference of every key. *)
Lemma filter_first_refs {A : Type} `{Lined A} (keyFn : A -> string)
    (key_set_lines : forall l a, keyFn (set_lines l a) = keyFn a) array :
  forall seen h, wf_seen keyFn seen h ->
    fst (array_filter (SimpleDedup.callback keyFn) array (seen, h))
    = first_refs keyFn (List.map fst seen) array h.
Proof.
  induction array as [|r rest IH]; intros seen h Hwf; [reflexivity|].
  cbn [array_filter first_refs].
  destruct (SimpleDedup.callback keyFn r (seen, h)) as [keep [seen1 h1]] eqn:Hcb.
  assert (Hs : step keyFn (seen, h) r = (seen1, h1)) by (unfold step; rewrite Hcb; reflexivity).
  pose proof (step_wf keyFn key_set_lines _ _ _ _ Hs Hwf) as Hwf1.
  pose proof (step_keys keyFn key_set_lines _ _ _ _ Hs Hwf) as Hk1. simpl in Hk1.
  specialize (IH seen1 h1 Hwf1).
  destruct (array_filter (SimpleDedup.callback keyFn) rest (seen1, h1)) as [kept st2].
  simpl in IH. cbn [fst]. rewrite IH.
  rewrite (first_refs_ext keyFn h h1 rest Hk1).
  unfold SimpleDedup.callback in Hcb. unfold key_at.
  destruct (h !! r) as [item|]; simpl.
  - rewrite map_get_existsb.
    destruct (map_get (keyFn item) seen) as [e|].
    + destruct (h !! e); injection Hcb as <- <- <-; reflexivity.
    + injection Hcb as <- <- <-. unfold map_set_new. rewrite List.map_app. reflexivity.
  - injection Hcb as <- <- <-. reflexivity.
Qed.

Lemma simple_dedup_first_refs {A : Type} `{Lined A} (keyFn : A -> string)
    (key_set_lines : forall l a, keyFn (set_lines l a) = keyFn a) array (h : list A) :
  fst (SimpleDedup.deduplicate keyFn array h) = first_refs keyFn [] array h.
Proof.
  unfold SimpleDedup.deduplicate.
  pose proof (filter_first_refs keyFn key_set_lines array [] h (wf_seen_nil keyFn h)) as Hf.
  destruct (array_filter _ array _) as [kept [seen' h']]. exact Hf.
Qed.

(** X1. [deduplicate(array, keyFn)] returns, in array order, exactly the
    references whose key did not occur earlier in the array: the first
    observation of every key, for nodes and for edges. The keys are those of
    the store before the run; the run does not change them. *)
Theorem dedup_keeps_first_of_each_key :
  (forall array (h : list node),
     fst (SimpleDedup.deduplicate node_key array h) = first_refs node_key [] array h) /\
  (forall array (eh : list edge),
     fst (SimpleDedup.deduplicate edge_key array eh) = first_refs edge_key [] array eh).
Proof.
  split; intros array h.
  - apply simple_dedup_first_refs, node_key_set_lines.
  - apply simple_dedup_first_refs, edge_key_set_lines.
Qed.

(** The loop leaves every field untouched that [set_lines] leaves untouched,
    and the length of the store. *)
Lemma loop_fields {A B : Type} `{Lined A} (keyFn : A -> string) (f : A -> B)
    (f_set_lines : forall l a, f (set_lines l a) = f a) array :
  forall seen h seen' h',
    fold_left (step keyFn) array (seen, h) = (seen', h') ->
    length h' = length h /\ forall x : ref, f <$> h' !! x = f <$> h !! x.
Proof.
  induction array as [|r rest IH]; intros seen h seen' h' Hf.
  { simpl in Hf. injection Hf as <- <-. auto. }
  change (fold_left (step keyFn) (r :: rest) (seen, h))
    with (fold_left (step keyFn) rest (step keyFn (seen, h) r)) in Hf.
  destruct (step_cases keyFn seen h r)
    as [[Hhr Hs]|[(item & Hhr & Hgi & Hs)|[(item & e' & Hhr & Hgi & He' & Hs)
       |(item & e' & existing & Hhr & Hgi & He' & Hs)]]];
    rewrite Hs in Hf; try (eapply IH; exact Hf).
  destruct (IH _ _ _ _ Hf) as [Hlen Hfld]. split.
  - rewrite Hlen. apply length_insert.
  - intros x. rewrite Hfld. destruct (decide (e' = x)) as [Heq|Hne].
    + subst x. rewrite list_lookup_insert_eq by (eapply lookup_lt_Some; eauto).
      rewrite He'. simpl. f_equal. unfold merge_lines.
      destruct (lines_of item), (lines_of existing); try reflexivity.
      destruct (_ && _); [apply f_set_lines | reflexivity].
    + rewrite list_lookup_insert_ne by assumption. reflexivity.
Qed.

Lemma node_identity_set_lines l (n : node) :
  node_identity (set_lines l n) = node_identity n.
Proof. reflexivity. Qed.

(** X2. [deduplicate(array, keyFn)] on nodes assigns nothing but the [lines]
    of records it returns: the store keeps its length, every object keeps its
    id, label and type, and an object that is not in the result is left
    exactly as it was. *)
Theorem dedup_assigns_only_lines_of_kept
    (array : list ref) (h : list node) (kept : list ref) (h' : list node) :
  SimpleDedup.deduplicate node_key array h = (kept, h') ->
  length h' = length h /\
  (forall x : ref, node_identity <$> h' !! x = node_identity <$> h !! x) /\
  (forall x : ref, x ∉ kept -> h' !! x = h !! x).
Proof.
  intros Hd. rewrite simple_dedup_fold in Hd.
  destruct (fold_left (step node_key) array ([], h)) as [seen' h1] eqn:Hf.
  simpl in Hd. injection Hd as <- <-.
  destruct (loop_fields node_key node_identity node_identity_set_lines array [] h seen' h1 Hf)
    as [Hlen Hfld].
  destruct (loop_frame node_key node_key_set_lines array [] h seen' h1 Hf
              (wf_seen_nil node_key h)) as [_ Hframe].
  auto.
Qed.

Lemma dedup_assigns_only_lines_witness :
  SimpleDedup.deduplicate node_key [0; 1; 2] Samples.three_nodes
  = ([0; 1], [Node "a.js:f" (Some "f") "method" (Some "[1-2], [5-6]");
              Node "a.js:g" (Some "g") "method" (Some "[3-4]");
              Node "a.js:f" (Some "f") "method" (Some "[5-6]")]) /\
  length (snd (SimpleDedup.deduplicate node_key [0; 1; 2] Samples.three_nodes)) = 3.
Proof.
  split; [reflexivity|].
  destruct (dedup_assigns_only_lines_of_kept [0; 1; 2] Samples.three_nodes _ _ eq_refl)
    as [Hlen _].
  exact Hlen.
Defined.

(** X3. A second run on the arrays the first run left returns the same
    references: the node set and the edge set of the two runs are the same
    (what differs is the [lines] of merged records). *)
Theorem second_run_same_references :
  (forall array (h : list node),
     fst (SimpleDedup.deduplicate node_key array
            (snd (SimpleDedup.deduplicate node_key array h)))
     = fst (SimpleDedup.deduplicate node_key array h)) /\
  (forall array (eh : list edge),
     fst (SimpleDedup.deduplicate edge_key array
            (snd (SimpleDedup.deduplicate edge_key array eh)))
     = fst (SimpleDedup.deduplicate edge_key array eh)).
Proof.
  split; intros array h.
  - rewrite !(simple_dedup_first_refs node_key node_key_set_lines).
    apply first_refs_ext. intros x.
    rewrite simple_dedup_fold. simpl.
    destruct (fold_left (step node_key) array ([], h)) as [seen' h1] eqn:Hf.
    destruct (loop_invariants node_key node_key_set_lines array ([], h) seen' h1 Hf
                (wf_seen_nil node_key h)) as (_ & _ & Hk); [apply NoDup_nil_2|].
    apply Hk.
  - rewrite !(simple_dedup_first_refs edge_key edge_key_set_lines).
    apply first_refs_ext. intros x.
    rewrite simple_dedup_fold. simpl.
    destruct (fold_left (step edge_key) array ([], h)) as [seen' h1] eqn:Hf.
    destruct (loop_invariants edge_key edge_key_set_lines array ([], h) seen' h1 Hf
                (wf_seen_nil edge_key h)) as (_ & _ & Hk); [apply NoDup_nil_2|].
    apply Hk.
Qed.


(** A list of references with distinct keys, none of them in the map, passes
    the filter whole and leaves the store as it is. *)
Lemma filter_distinct {A : Type} `{Lined A} (keyFn : A -> string) (h : list A) :
  forall (m seen0 : jsmap),
    wf_seen keyFn m h -> NoDup (List.map fst seen0 ++ List.map fst m) ->
    array_filter (SimpleDedup.callback keyFn) (map_values m) (seen0, h)
    = (map_values m, (seen0 ++ m, h)).
Proof.
  induction m as [|[k e] m IH]; intros seen0 Hwf Hnd.
  { simpl. rewrite app_nil_r. reflexivity. }
  change (map_values ((k, e) :: m)) with (e :: map_values m).
  cbn [array_filter]. unfold SimpleDedup.callback at 1.
  pose proof (Hwf k e (list_elem_of_here _ _)) as Hk. unfold key_at in Hk.
  destruct (h !! e) as [o|]; [|discriminate]. simpl in Hk. injection Hk as Hk.
  rewrite Hk.
  assert (Hg : map_get k seen0 = None).
  { apply map_get_None. intros Hin. simpl in Hnd.
    apply NoDup_app in Hnd as (_ & Hdis & _). apply (Hdis k Hin). left. }
  rewrite Hg. unfold map_set_new.
  rewrite IH.
  - rewrite <- app_assoc. reflexivity.
  - intros k' e' Hin. apply Hwf. right. exact Hin.
  - rewrite List.map_app. simpl. rewrite <- app_assoc. exact Hnd.
Qed.

(** X4. Deduplicating the result of a deduplication changes nothing: the same
    references come back and the store is not assigned, for nodes and for
    edges. *)
Theorem dedup_of_result_is_fixed_point :
  (forall array (h : list node),
     SimpleDedup.deduplicate node_key
       (fst (SimpleDedup.deduplicate node_key array h))
       (snd (SimpleDedup.deduplicate node_key array h))
     = SimpleDedup.deduplicate node_key array h) /\
  (forall array (eh : list edge),
     SimpleDedup.deduplicate edge_key
       (fst (SimpleDedup.deduplicate edge_key array eh))
       (snd (SimpleDedup.deduplicate edge_key array eh))
     = SimpleDedup.deduplicate edge_key array eh).
Proof.
  split; intros array h; rewrite (simple_dedup_fold _ array h).
  - destruct (fold_left (step node_key) array ([], h)) as [seen' h1] eqn:Hf.
    destruct (loop_invariants node_key node_key_set_lines array ([], h) seen' h1 Hf
                (wf_seen_nil node_key h)) as (Hwf & Hnd & _); [apply NoDup_nil_2|].
    cbn [fst snd]. unfold SimpleDedup.deduplicate.
    rewrite (filter_distinct node_key h1 seen' [] Hwf Hnd). reflexivity.
  - destruct (fold_left (step edge_key) array ([], h)) as [seen' h1] eqn:Hf.
    destruct (loop_invariants edge_key edge_key_set_lines array ([], h) seen' h1 Hf
                (wf_seen_nil edge_key h)) as (Hwf & Hnd & _); [apply NoDup_nil_2|].
    cbn [fst snd]. unfold SimpleDedup.deduplicate.
    rewrite (filter_distinct edge_key h1 seen' [] Hwf Hnd). reflexivity.
Qed.

(** ** The two deduplications side by side *)

Lemma edge_step_step eh ue refd r :
  step edge_key (ue, eh) r = (fst (GraphDedup.edge_step eh (ue, refd) r), eh).
Proof.
  unfold step, SimpleDedup.callback, GraphDedup.edge_step, map_has.
  destruct (eh !! r) as [e|] eqn:Hr; [|reflexivity].
  destruct (map_get (edge_key e) ue) as [x|]; simpl; [|reflexivity].
  destruct (eh !! x) as [existing|] eqn:Hx; simpl; [|reflexivity].
  rewrite list_insert_id by exact Hx. reflexivity.
Qed.

Lemma edge_loop_step eh edges : forall ue refd,
  fold_left (step edge_key) edges (ue, eh)
  = (fst (fold_left (GraphDedup.edge_step eh) edges (ue, refd)), eh).
Proof.
  induction edges as [|r rest IH]; intros ue refd; [reflexivity|].
  cbn [fold_left]. rewrite (edge_step_step eh ue refd r).
  destruct (GraphDedup.edge_step eh (ue, refd) r) as [ue1 refd1]. apply IH.
Qed.

Lemma set_has_add_eq x y s :
  Js.set_has x (Js.set_add y s) = String.eqb x y || Js.set_has x s.
Proof.
  unfold Js.set_add. destruct (Js.set_has y s) eqn:Hy.
  - destruct (String.eqb_spec x y) as [->|_]; [rewrite Hy|]; reflexivity.
  - unfold Js.set_has. rewrite existsb_app. simpl. rewrite orb_false_r. apply orb_comm.
Qed.

(** The referenced set holds exactly the endpoints of the edges of the map. *)
Lemma referenced_is_touched eh edges : forall ue refd,
  (forall x, Js.set_has x refd = touched eh (map_values ue) x) ->
  forall x,
    Js.set_has x (snd (fold_left (GraphDedup.edge_step eh) edges (ue, refd)))
    = touched eh (map_values (fst (fold_left (GraphDedup.edge_step eh) edges (ue, refd)))) x.
Proof.
  induction edges as [|r rest IH]; intros ue refd Hinv; [exact Hinv|].
  cbn [fold_left].
  destruct (GraphDedup.edge_step eh (ue, refd) r) as [ue1 refd1] eqn:Hs.
  apply IH. intros x. unfold GraphDedup.edge_step in Hs.
  destruct (eh !! r) as [e|] eqn:Hr; [|injection Hs as <- <-; apply Hinv].
  destruct (negb _); injection Hs as <- <-; [|apply Hinv].
  rewrite !set_has_add_eq, Hinv. unfold touched, map_values, map_set_new.
  rewrite List.map_app, existsb_app. simpl. rewrite Hr, orb_false_r.
  rewrite (String.eqb_sym x (edge_target e)), (String.eqb_sym x (edge_source e)).
  destruct (String.eqb (edge_source e) x), (String.eqb (edge_target e) x),
    (existsb _ (List.map snd ue)); reflexivity.
Qed.

Lemma graph_dedup_edges nodes h edges eh :
  GraphDedup.res_edges (fst (GraphDedup.deduplicate nodes h edges eh))
  = fst (SimpleDedup.deduplicate edge_key edges eh).
Proof.
  unfold GraphDedup.deduplicate.
  rewrite simple_dedup_fold, (edge_loop_step eh edges [] []).
  destruct (fold_left GraphDedup.node_step nodes ([], h)) as [un h1].
  destruct (fold_left (GraphDedup.edge_step eh) edges ([], [])) as [ue refd].
  reflexivity.
Qed.

(** X5. [deduplicate(nodes, edges)] of the registry and argument-tracking
    variants and [deduplicate(array, keyFn)] of index.js agree: they leave the
    same node store, keep the same edges and do not assign the edge objects;
    and the nodes of the former are the deduplicated nodes of the latter
    restricted to those whose id is the source or the target of a kept edge,
    no more and no fewer. *)
Theorem graph_dedup_is_simple_dedup_filtered
    (nodes : list ref) (h : list node) (edges : list ref) (eh : list edge) :
  let g := GraphDedup.deduplicate nodes h edges eh in
  snd g = snd (SimpleDedup.deduplicate node_key nodes h) /\
  GraphDedup.res_edges (fst g) = fst (SimpleDedup.deduplicate edge_key edges eh) /\
  snd (SimpleDedup.deduplicate edge_key edges eh) = eh /\
  GraphDedup.res_nodes (fst g)
  = List.filter
      (fun r => match snd g !! r with
                | Some n => touched eh (GraphDedup.res_edges (fst g)) (node_id n)
                | None => false
                end)
      (fst (SimpleDedup.deduplicate node_key nodes h)).
Proof.
  intros g. unfold g, GraphDedup.deduplicate.
  rewrite !simple_dedup_fold, node_loop_step, (edge_loop_step eh edges [] []).
  destruct (fold_left (step node_key) nodes ([], h)) as [un h1].
  pose proof (referenced_is_touched eh edges [] [] (fun x => eq_refl)) as Href.
  destruct (fold_left (GraphDedup.edge_step eh) edges ([], [])) as [ue refd].
  cbn [fst snd GraphDedup.res_edges GraphDedup.res_nodes] in *.
  repeat split.
  apply filter_ext. intros r. destruct (h1 !! r) as [n|]; [apply Href | reflexivity].
Qed.

(** X6. The key [`${source}-${target}-${type}`] does not separate the three
    fields: the edges (a-b, c, t) and (a, b-c, t) are different edges with the
    same key, so of the two only the first is in the result, in both
    deduplications. *)
Theorem edge_key_collision_drops_an_edge
    (a b c t : string) (nodes : list ref) (h : list node) :
  let e1 := Edge (a +:+ "-" +:+ b) c t in
  let e2 := Edge a (b +:+ "-" +:+ c) t in
  edge_source e1 <> edge_source e2 /\
  edge_key e1 = edge_key e2 /\
  fst (SimpleDedup.deduplicate edge_key [0; 1] [e1; e2]) = [0] /\
  GraphDedup.res_edges (fst (GraphDedup.deduplicate nodes h [0; 1] [e1; e2])) = [0].
Proof.
  intros e1 e2.
  assert (Hkey : edge_key e1 = edge_key e2).
  { unfold edge_key, e1, e2. simpl. rewrite !append_assoc. reflexivity. }
  split; [|split; [exact Hkey|]].
  - simpl. intros Heq. apply (f_equal String.length) in Heq.
    rewrite !length_append in Heq. simpl in Heq. lia.
  - assert (Hsimple : fst (SimpleDedup.deduplicate edge_key [0; 1] [e1; e2]) = [0]).
    { rewrite (simple_dedup_first_refs edge_key edge_key_set_lines).
      cbn [first_refs key_at lookup list_lookup fmap option_fmap option_map existsb app].
      rewrite <- Hkey, String.eqb_refl. reflexivity. }
    split; [exact Hsimple|].
    rewrite graph_dedup_edges. exact Hsimple.
Qed.

(** [second_run_appends_later_ranges] at three observations, two of them of
    [a.js:f]. *)
Lemma second_run_appends_witness :
  lines_at (snd (SimpleDedup.deduplicate node_key [0; 1; 2] Samples.three_nodes)) 0
  = Some "[1-2], [5-6]" /\
  lines_at (snd (SimpleDedup.deduplicate node_key [0; 1; 2]
                   (snd (SimpleDedup.deduplicate node_key [0; 1; 2] Samples.three_nodes)))) 0
  = Some "[1-2], [5-6], [5-6]".
Proof.
  assert (Hne : Forall (fun r : string => r <> "") ["[1-2]"; "[5-6]"])
    by (repeat constructor; discriminate).
  exact (second_run_appends_later_ranges Samples.three_nodes [0; 1; 2] "a.js:f-method"
           0 [2] "[1-2]" ["[5-6]"] NoDup_012 eq_refl eq_refl Hne _ _ _ _ eq_refl eq_refl).
Defined.


(** * The registry variant *)

Lemma registry_has_spec id (reg : list (string * Registry.info)) :
  Registry.registry_has id reg = true <-> id ∈ List.map fst reg.
Proof.
  unfold Registry.registry_has. rewrite existsb_exists. split.
  - intros ([k i] & Hin & Heq). apply String.eqb_eq in Heq. simpl in Heq. subst k.
    apply list_elem_of_In. apply in_map_iff. exists (id, i). auto.
  - intros Hin. apply list_elem_of_In in Hin. apply in_map_iff in Hin as ([k i] & Hk & Hin).
    simpl in Hk. subst k. exists (id, i). split; [exact Hin | apply String.eqb_refl].
Qed.

Lemma registry_has_app id reg reg' :
  Registry.registry_has id reg = true -> Registry.registry_has id (reg ++ reg') = true.
Proof.
  unfold Registry.registry_has. rewrite existsb_app. intros ->. reflexivity.
Qed.

Lemma registry_addNode_inv file name type lines s :
  registry_inv s -> registry_inv (Registry.addNode file name type lines s).
Proof.
  intros (Hnd & Hkeyed & Hnodes & Hreg & Hedges). unfold Registry.addNode.
  set (id := file +:+ ":" +:+ Js.show name).
  destruct (Registry.registry_has id (Registry.methodRegistry s)) eqn:Hhas;
    cbn [negb]; unfold registry_inv; cbn [Registry.methodRegistry Registry.graph];
    (split; [|split; [|split; [|split]]]).
  - exact Hnd.
  - exact Hkeyed.
  - intros n Hin. simpl in Hin. apply elem_of_app in Hin as [Hin|Hin]; [auto|].
    apply list_elem_of_singleton in Hin. subst n. exact Hhas.
  - intros id' Hid'. destruct (Hreg id' Hid') as (n & Hn & Heq).
    exists n. split; [|exact Heq]. simpl. apply elem_of_app. left. exact Hn.
  - exact Hedges.
  - rewrite List.map_app. simpl. apply NoDup_app. split; [exact Hnd|]. split.
    + intros k Hk Hk'. apply list_elem_of_singleton in Hk'. subst k.
      apply registry_has_spec in Hk. congruence.
    + apply NoDup_singleton.
  - intros id' info Hin. apply elem_of_app in Hin as [Hin|Hin]; [auto|].
    apply list_elem_of_singleton in Hin. injection Hin as -> ->. reflexivity.
  - intros n Hin. simpl in Hin. apply elem_of_app in Hin as [Hin|Hin].
    + apply registry_has_app. auto.
    + apply list_elem_of_singleton in Hin. subst n. simpl.
      unfold Registry.registry_has. rewrite existsb_app. simpl.
      fold id. rewrite String.eqb_refl. apply orb_true_r.
  - intros id' Hid'. unfold Registry.registry_has in Hid'.
    rewrite existsb_app in Hid'. apply orb_true_iff in Hid' as [Hid'|Hid'].
    + destruct (Hreg id' Hid') as (n & Hn & Heq).
      exists n. split; [|exact Heq]. simpl. apply elem_of_app. left. exact Hn.
    + simpl in Hid'. rewrite orb_false_r in Hid'. apply String.eqb_eq in Hid'.
      eexists. split; [simpl; apply elem_of_app; right; left|]. simpl. exact Hid'.
  - intros e Hin. destruct (Hedges e Hin) as [Hty Ht]. split; [exact Hty|].
    apply registry_has_app. exact Ht.
Qed.

Lemma registry_addEdge_inv sf sm tf tm s :
  registry_inv s -> registry_inv (Registry.addEdge sf sm tf tm "calls" s).
Proof.
  intros Hinv. pose proof Hinv as (Hnd & Hkeyed & Hnodes & Hreg & Hedges).
  unfold Registry.addEdge.
  destruct (Registry.registry_has _ _) eqn:Hhas; [|exact Hinv].
  unfold registry_inv. cbn [Registry.methodRegistry Registry.graph].
  split; [exact Hnd|]. split; [exact Hkeyed|]. split; [exact Hnodes|].
  split; [exact Hreg|].
  intros e Hin. simpl in Hin. apply elem_of_app in Hin as [Hin|Hin];
    [apply Hedges; exact Hin|].
  apply list_elem_of_singleton in Hin. subst e. split; [reflexivity | exact Hhas].
Qed.

Lemma registry_visit_inv fileName n s :
  registry_inv s -> registry_inv (state_of (Registry.visit fileName n s)).
Proof.
  intros Hinv. unfold Registry.visit.
  destruct (Ast.shape_of n) as [[name|]|[name|]|key|idn [init|]|src sps|[callee|] args|
                                |[props|]|key vt|]; cbn [state_of];
    try exact Hinv; try (apply registry_addNode_inv; exact Hinv).
  - destruct (is_function_literal _); cbn [state_of];
      [apply registry_addNode_inv|]; exact Hinv.
  - generalize (Registry.methodRegistry s) at 1. intros reg. revert s Hinv.
    induction reg as [|entry reg IH]; intros s Hinv; [exact Hinv|].
    cbn [fold_left]. apply IH. unfold Registry.call_entry.
    destruct (Registry.info_name (snd entry)); [|exact Hinv].
    destruct (String.eqb _ _); [apply registry_addEdge_inv|]; exact Hinv.
  - revert s Hinv. induction props as [|m ms IH]; intros s Hinv; [exact Hinv|].
    cbn [fold_left]. apply IH. unfold Registry.export_property.
    destruct m; [|exact Hinv].
    destruct (is_function_literal _); [apply registry_addNode_inv|]; exact Hinv.
  - destruct (is_function_literal _); cbn [state_of];
      [apply registry_addNode_inv|]; exact Hinv.
Qed.

Lemma registry_inv_init : registry_inv (Registry.RState (State [] []) []).
Proof.
  split; [apply NoDup_nil_2|]. split; [intros id info Hin; inversion Hin|].
  split; [intros n Hin; inversion Hin|]. split; [discriminate|].
  intros e Hin. inversion Hin.
Qed.

Lemma registry_scan_inv
    acorn_parse basename extname path_join toLowerCase parseComponent directory entries :
  registry_inv
    (fst (Registry.scanDirectory acorn_parse basename extname path_join toLowerCase
            parseComponent directory entries (Registry.RState (State [] []) []))).
Proof.
  apply (scan_keeps extname path_join toLowerCase parseComponent
           (Registry.parseJavaScript acorn_parse basename) false registry_inv).
  - intros filePath content s Hs. unfold Registry.parseJavaScript.
    destruct (acorn_parse content) as [message|ast]; simpl; [exact Hs|].
    apply (walk_keeps registry_inv); [|exact Hs].
    intros n s0. apply registry_visit_inv.
  - apply registry_inv_init.
Qed.

(** X7. After a scan from the empty arrays, the registry of the registry
    variant holds one entry per node id: its keys are distinct, each is
    [`${file}:${name}`] of its value, every node's id is a key and every key
    is the id of a node. *)
Theorem registry_mirrors_node_ids
    (acorn_parse : string -> string + Ast.t) (basename extname : string -> string)
    (path_join : string -> string -> string) (toLowerCase : string -> string)
    (parseComponent : string -> option string)
    (directory : string) (entries : list fsentry) :
  let s := fst (Registry.scanDirectory acorn_parse basename extname path_join toLowerCase
                  parseComponent directory entries (Registry.RState (State [] []) [])) in
  NoDup (List.map fst (Registry.methodRegistry s)) /\
  registry_keyed (Registry.methodRegistry s) /\
  forall id, id ∈ List.map fst (Registry.methodRegistry s)
             <-> id ∈ List.map node_id (nodes (Registry.graph s)).
Proof.
  intros s.
  destruct (registry_scan_inv acorn_parse basename extname path_join toLowerCase
              parseComponent directory entries) as (Hnd & Hkeyed & Hnodes & Hreg & _).
  fold s in Hnd, Hkeyed, Hnodes, Hreg.
  split; [exact Hnd|]. split; [exact Hkeyed|]. intros id. split.
  - intros Hin. apply registry_has_spec in Hin. destruct (Hreg id Hin) as (n & Hn & Heq).
    apply list_elem_of_In. apply in_map_iff. exists n.
    split; [exact Heq | apply list_elem_of_In; exact Hn].
  - intros Hin. apply list_elem_of_In in Hin. apply in_map_iff in Hin as (n & Heq & Hn).
    apply registry_has_spec. rewrite <- Heq. apply Hnodes. apply list_elem_of_In. exact Hn.
Qed.

(** X8. After a scan from the empty arrays, every edge of the registry
    variant is a [calls] edge whose target is the id of a node: the variant
    never records a call to a name that no file declares. *)
Theorem registry_edges_reach_declared_nodes
    (acorn_parse : string -> string + Ast.t) (basename extname : string -> string)
    (path_join : string -> string -> string) (toLowerCase : string -> string)
    (parseComponent : string -> option string)
    (directory : string) (entries : list fsentry) :
  let s := fst (Registry.scanDirectory acorn_parse basename extname path_join toLowerCase
                  parseComponent directory entries (Registry.RState (State [] []) [])) in
  Forall (fun e => edge_type e = "calls" /\
                   exists n, n ∈ nodes (Registry.graph s) /\ node_id n = edge_target e)
    (edges (Registry.graph s)).
Proof.
  intros s.
  destruct (registry_scan_inv acorn_parse basename extname path_join toLowerCase
              parseComponent directory entries) as (_ & _ & _ & Hreg & Hedges).
  fold s in Hreg, Hedges. apply Forall_forall. intros e Hin.
  destruct (Hedges e Hin) as [Hty Hhas]. split; [exact Hty|]. apply Hreg. exact Hhas.
Qed.

(** The [forEach] over entries of the state's own, keyed registry. *)
Lemma call_entries_fan_out fileName parentFunction callee : forall l s,
  registry_keyed (Registry.methodRegistry s) ->
  (forall entry, entry ∈ l -> entry ∈ Registry.methodRegistry s) ->
  fold_left (Registry.call_entry fileName parentFunction callee) l s
  = Registry.RState
      (State (nodes (Registry.graph s))
         (edges (Registry.graph s)
          ++ List.map (fun entry => Edge (fileName +:+ ":" +:+ parentFunction)
                                      (fst entry) "calls")
               (callee_entries callee l)))
      (Registry.methodRegistry s).
Proof.
  induction l as [|[id info] l IH]; intros s Hkeyed Hsub.
  { simpl. rewrite app_nil_r. destruct s as [[ns es] reg]. reflexivity. }
  cbn [fold_left callee_entries List.filter].
  assert (Hin : (id, info) ∈ Registry.methodRegistry s) by (apply Hsub; left).
  assert (Hsub' : forall entry, entry ∈ l -> entry ∈ Registry.methodRegistry s)
    by (intros entry He; apply Hsub; right; exact He).
  unfold Registry.call_entry at 2. cbn [snd].
  destruct (Registry.info_name info) as [name|] eqn:Hname; [|apply IH; assumption].
  destruct (String.eqb_spec name callee) as [->|Hne]; [|apply IH; assumption].
  unfold Registry.addEdge.
  assert (Hid : id = Registry.info_file info +:+ ":" +:+ callee).
  { rewrite (Hkeyed id info Hin), Hname. reflexivity. }
  rewrite <- Hid.
  assert (Hhas : Registry.registry_has id (Registry.methodRegistry s) = true).
  { apply registry_has_spec. apply list_elem_of_In. apply in_map_iff.
    exists (id, info). split; [reflexivity | apply list_elem_of_In; exact Hin]. }
  rewrite Hhas. rewrite IH; [|exact Hkeyed|exact Hsub'].
  cbn [Registry.graph Registry.methodRegistry nodes edges push_edge List.map fst].
  rewrite <- app_assoc. reflexivity.
Qed.

(** X9. In the registry variant a call [callee(...)] fans out: it pushes one
    [calls] edge from the caller to every registry entry named [callee], in
    registry order, whatever file the entry comes from, and pushes no node.
    With no entry of that name it pushes nothing. *)
Theorem registry_call_fans_out
    (fileName callee : string) (n : Ast.node) (args : list Ast.argument)
    (s : Registry.rstate) :
  Ast.shape_of n = Ast.CallExpression (Ast.Identifier callee) args ->
  registry_keyed (Registry.methodRegistry s) ->
  Registry.visit fileName n s
  = Done (Registry.RState
            (State (nodes (Registry.graph s))
               (edges (Registry.graph s)
                ++ List.map
                     (fun entry =>
                        Edge (fileName +:+ ":" +:+ Registry.getEnclosingFunctionName n)
                          (fst entry) "calls")
                     (callee_entries callee (Registry.methodRegistry s))))
            (Registry.methodRegistry s)).
Proof.
  intros Hshape Hkeyed. unfold Registry.visit. rewrite Hshape. f_equal.
  apply call_entries_fan_out; auto.
Qed.

Lemma registry_call_fans_out_witness :
  registry_keyed (Registry.methodRegistry Samples.f_in_two_files) /\
  edges (Registry.graph (state_of (Registry.visit "c.js" Samples.call_f
                                     Samples.f_in_two_files)))
  = [Edge "c.js:global" "a.js:f" "calls"; Edge "c.js:global" "b.js:f" "calls"].
Proof.
  assert (Hkeyed : registry_keyed (Registry.methodRegistry Samples.f_in_two_files)).
  { intros id info Hin. vm_compute in Hin.
    apply elem_of_cons in Hin as [Heq|Hin]; [injection Heq as -> ->; reflexivity|].
    apply list_elem_of_singleton in Hin. injection Hin as -> ->. reflexivity. }
  split; [exact Hkeyed|].
  rewrite (registry_call_fans_out "c.js" "f" Samples.call_f [] Samples.f_in_two_files
             eq_refl Hkeyed).
  reflexivity.
Defined.


(** * The extractors *)

(** ** The kinds of node each variant pushes *)

Lemma push_node_kind kinds n ns :
  existsb (String.eqb (node_type n)) kinds = true -> kinds_in kinds ns ->
  kinds_in kinds (ns ++ [n]).
Proof.
  intros Hn Hs. apply Forall_app. split; [exact Hs|]. apply Forall_cons. auto.
Qed.

Ltac kind_push :=
  repeat first
    [ assumption
    | apply push_node_kind; [reflexivity|] ].

Lemma simple_visit_kinds fileName n s :
  kinds_in simple_kinds (nodes s) ->
  kinds_in simple_kinds (nodes (state_of (Simple.visit fileName n s))).
Proof.
  intros Hs. unfold Simple.visit.
  destruct (Ast.shape_of n) as [[name|]|[name|]|key|idn [init|]|src sps|[callee|] args|
                                |[props|]|key vt|]; cbn [state_of];
    try exact Hs;
    try (cbn [Simple.addNode Simple.addEdge push_node push_edge nodes]; kind_push; fail).
  - destruct (is_function_literal _); cbn [state_of]; [|exact Hs].
    cbn [Simple.addNode push_node nodes]. kind_push.
  - assert (H0 : kinds_in simple_kinds
                   (nodes (Simple.addNode src (Some src) "library" None s)))
      by (cbn [Simple.addNode push_node nodes]; kind_push).
    revert H0. generalize (Simple.addNode src (Some src) "library" None s).
    induction sps as [|sp sps IH]; intros s0 H0; cbn [fold_left]; [exact H0|].
    apply IH. unfold Simple.import_specifier. destruct sp; try exact H0.
    cbn [Simple.addNode Simple.addEdge push_node push_edge nodes]. kind_push.
  - revert s Hs. induction props as [|m ms IH]; intros s Hs; cbn [fold_left]; [exact Hs|].
    apply IH. unfold Simple.export_property. destruct m; try exact Hs.
    destruct (is_function_literal _); [|exact Hs].
    cbn [Simple.addNode push_node nodes]. kind_push.
  - destruct (is_function_literal _); cbn [state_of]; [|exact Hs].
    cbn [Simple.addNode push_node nodes]. kind_push.
Qed.

Lemma registry_visit_kinds fileName n s :
  kinds_in registry_kinds (nodes (Registry.graph s)) ->
  kinds_in registry_kinds (nodes (Registry.graph (state_of (Registry.visit fileName n s)))).
Proof.
  intros Hs. unfold Registry.visit.
  destruct (Ast.shape_of n) as [[name|]|[name|]|key|idn [init|]|src sps|[callee|] args|
                                |[props|]|key vt|]; cbn [state_of];
    try exact Hs;
    try (cbn [Registry.addNode Registry.graph push_node nodes]; kind_push; fail).
  - destruct (is_function_literal _); cbn [state_of]; [|exact Hs].
    cbn [Registry.addNode Registry.graph push_node nodes]. kind_push.
  - generalize (Registry.methodRegistry s) at 1. intros reg. revert s Hs.
    induction reg as [|entry reg IH]; intros s Hs; [exact Hs|].
    cbn [fold_left]. apply IH. unfold Registry.call_entry.
    destruct (Registry.info_name (snd entry)); [|exact Hs].
    destruct (String.eqb _ _); [|exact Hs].
    unfold Registry.addEdge. destruct (Registry.registry_has _ _); exact Hs.
  - revert s Hs. induction props as [|m ms IH]; intros s Hs; cbn [fold_left]; [exact Hs|].
    apply IH. unfold Registry.export_property. destruct m; try exact Hs.
    destruct (is_function_literal _); [|exact Hs].
    cbn [Registry.addNode Registry.graph push_node nodes]. kind_push.
  - destruct (is_function_literal _); cbn [state_of]; [|exact Hs].
    cbn [Registry.addNode Registry.graph push_node nodes]. kind_push.
Qed.

Lemma args_ensure_kinds id label s :
  kinds_in args_kinds (nodes s) ->
  kinds_in args_kinds (nodes (Args.ensureNodeExists id label "unknown" s)).
Proof.
  intros Hs. unfold Args.ensureNodeExists. destruct (negb _); [|exact Hs].
  unfold Args.addNode. simpl Js.show. simpl String.eqb. cbv iota.
  cbn [push_node nodes]. apply push_node_kind; [|exact Hs].
  cbn [node_type]. destruct (Js.includes ":" id); [reflexivity|].
  destruct (Js.includes "/" id); reflexivity.
Qed.

Lemma args_addEdge_kinds source target type s :
  kinds_in args_kinds (nodes s) ->
  kinds_in args_kinds (nodes (Args.addEdge source target type s)).
Proof.
  intros Hs. unfold Args.addEdge.
  change (nodes (push_edge ?e ?s0)) with (nodes s0).
  apply args_ensure_kinds, args_ensure_kinds. exact Hs.
Qed.

Ltac args_kind_push :=
  unfold Args.addNode; simpl String.eqb; cbv iota; cbn [push_node nodes]; kind_push.

Lemma args_visit_kinds fileName n s :
  kinds_in args_kinds (nodes s) ->
  kinds_in args_kinds (nodes (state_of (Args.visit fileName n s))).
Proof.
  intros Hs. unfold Args.visit.
  destruct (Ast.shape_of n) as [[name|]|[name|]|key|idn [init|]|src sps|[callee|] args|
                                |[props|]|key vt|]; cbn [state_of];
    try exact Hs; try (args_kind_push; fail).
  - destruct (is_function_literal _); cbn [state_of]; [|exact Hs]. args_kind_push.
  - assert (H0 : kinds_in args_kinds (nodes (Args.addNode src (Some src) "library" None s)))
      by args_kind_push.
    revert H0. generalize (Args.addNode src (Some src) "library" None s).
    induction sps as [|sp sps IH]; intros s0 H0; cbn [fold_left]; [exact H0|].
    apply IH. unfold Args.import_specifier. destruct sp; try exact H0.
    apply args_addEdge_kinds. args_kind_push.
  - destruct (Args.render_arguments args); cbn [state_of]; [|exact Hs].
    apply args_addEdge_kinds. exact Hs.
  - revert s Hs. induction props as [|m ms IH]; intros s Hs; cbn [fold_left]; [exact Hs|].
    apply IH. unfold Args.export_property. destruct m; try exact Hs.
    destruct (is_function_literal _); [|exact Hs]. args_kind_push.
  - destruct (is_function_literal _); cbn [state_of]; [|exact Hs]. args_kind_push.
Qed.

(** X10. After a scan from the empty arrays every node's type is one of the
    kinds its variant writes: index.js never pushes [function] or [variable],
    the registry variant never pushes [library] or [imported-method], and the
    argument-tracking variant never leaves a node of type [unknown]. *)
Theorem node_kinds_after_scan
    (acorn_parse : string -> string + Ast.t) (basename extname : string -> string)
    (path_join : string -> string -> string) (toLowerCase : string -> string)
    (parseComponent : string -> option string)
    (directory : string) (entries : list fsentry) :
  kinds_in simple_kinds
    (nodes (fst (Simple.scanDirectory acorn_parse basename extname path_join toLowerCase
                   parseComponent directory entries (State [] [])))) /\
  kinds_in registry_kinds
    (nodes (Registry.graph
              (fst (Registry.scanDirectory acorn_parse basename extname path_join
                      toLowerCase parseComponent directory entries
                      (Registry.RState (State [] []) []))))) /\
  kinds_in args_kinds
    (nodes (fst (Args.scanDirectory acorn_parse basename extname path_join toLowerCase
                   parseComponent directory entries (State [] [])))).
Proof.
  split; [|split].
  - apply (scan_keeps extname path_join toLowerCase parseComponent
             (Simple.parseJavaScript acorn_parse basename) true
             (fun s => kinds_in simple_kinds (nodes s))); [|constructor].
    intros filePath content s Hs. unfold Simple.parseJavaScript.
    destruct (acorn_parse content) as [message|ast]; simpl; [exact Hs|].
    apply (walk_keeps (fun s => kinds_in simple_kinds (nodes s))); [|exact Hs].
    intros n s0. apply simple_visit_kinds.
  - apply (scan_keeps extname path_join toLowerCase parseComponent
             (Registry.parseJavaScript acorn_parse basename) false
             (fun s => kinds_in registry_kinds (nodes (Registry.graph s)))); [|constructor].
    intros filePath content s Hs. unfold Registry.parseJavaScript.
    destruct (acorn_parse content) as [message|ast]; simpl; [exact Hs|].
    apply (walk_keeps (fun s => kinds_in registry_kinds (nodes (Registry.graph s))));
      [|exact Hs].
    intros n s0. apply registry_visit_kinds.
  - apply (scan_keeps extname path_join toLowerCase parseComponent
             (Args.parseJavaScript acorn_parse basename) true
             (fun s => kinds_in args_kinds (nodes s))); [|constructor].
    intros filePath content s Hs. unfold Args.parseJavaScript.
    destruct (acorn_parse content) as [message|ast]; simpl; [exact Hs|].
    apply (walk_keeps (fun s => kinds_in args_kinds (nodes s))); [|exact Hs].
    intros n s0. apply args_visit_kinds.
Qed.

(** ** [addEdge] of the argument-tracking variant on known endpoints *)

Lemma args_ensure_noop id label type s :
  (exists n, n ∈ nodes s /\ node_id n = id) ->
  Args.ensureNodeExists id label type s = s.
Proof.
  intros Hex. apply has_node_spec in Hex. unfold Args.ensureNodeExists.
  rewrite Hex. reflexivity.
Qed.

(** X11. In the argument-tracking variant [addEdge] between two ids that both
    have a node pushes the edge and no node; so a second edge between the
    same endpoints, whatever its type, adds no node. *)
Theorem args_addEdge_on_known_endpoints :
  (forall source target type s,
     (exists n, n ∈ nodes s /\ node_id n = source) ->
     (exists n, n ∈ nodes s /\ node_id n = target) ->
     Args.addEdge source target type s = push_edge (Edge source target type) s) /\
  (forall source target type1 type2 s,
     nodes (Args.addEdge source target type2 (Args.addEdge source target type1 s))
     = nodes (Args.addEdge source target type1 s)).
Proof.
  assert (Hknown : forall source target type s,
     (exists n, n ∈ nodes s /\ node_id n = source) ->
     (exists n, n ∈ nodes s /\ node_id n = target) ->
     Args.addEdge source target type s = push_edge (Edge source target type) s).
  { intros source target type s Hs Ht. unfold Args.addEdge.
    rewrite (args_ensure_noop source _ _ s Hs).
    rewrite (args_ensure_noop target _ _ s Ht). reflexivity. }
  split; [exact Hknown|].
  intros source target type1 type2 s. rewrite Hknown; [reflexivity| |].
  - unfold Args.addEdge. cbn [push_edge nodes].
    destruct (args_ensure_has source (Js.or (Js.split_1 ":" source) (Some source))
                "unknown" s) as (n & Hn & Hid).
    destruct (args_ensure_grows target (Js.or (Js.split_1 ":" target) (Some target))
                "unknown"
                (Args.ensureNodeExists source (Js.or (Js.split_1 ":" source) (Some source))
                   "unknown" s)) as [[added Hadd] _].
    exists n. split; [|exact Hid]. rewrite Hadd. apply elem_of_app. left. exact Hn.
  - unfold Args.addEdge. cbn [push_edge nodes]. apply args_ensure_has.
Qed.

Lemma args_addEdge_on_known_endpoints_witness :
  Args.addEdge "a.js:f" "a.js:g" "calls()" (State Samples.three_nodes [])
  = push_edge (Edge "a.js:f" "a.js:g" "calls()") (State Samples.three_nodes []).
Proof.
  destruct args_addEdge_on_known_endpoints as [Hknown _].
  apply Hknown.
  - exists (Node "a.js:f" (Some "f") "method" (Some "[1-2]")). split; [left | reflexivity].
  - exists (Node "a.js:g" (Some "g") "method" (Some "[3-4]")).
    split; [right; left | reflexivity].
Defined.

(** ** Imports in index.js *)

Lemma simple_import_specifiers fileName libraryName specifiers : forall s,
  fold_left (Simple.import_specifier fileName libraryName) specifiers s
  = State
      (nodes s ++ List.map (fun name => Node (libraryName +:+ "/" +:+ Js.show name) name
                                          "imported-method" None)
                    (imported_names specifiers))
      (edges s ++ List.map (fun name => Edge fileName (libraryName +:+ "/" +:+ Js.show name)
                                          "imports")
                    (imported_names specifiers)).
Proof.
  induction specifiers as [|sp sps IH]; intros s.
  { simpl. rewrite !app_nil_r. destruct s. reflexivity. }
  cbn [fold_left]. rewrite IH. destruct sp; cbn [imported_names Simple.import_specifier];
    try reflexivity.
  cbn [Simple.addNode Simple.addEdge push_node push_edge nodes edges List.map].
  rewrite <- !app_assoc. reflexivity.
Qed.

(** X12. In index.js an import declaration pushes one [library] node for the
    source, then one [imported-method] node [source/name] and one [imports]
    edge from the file to it for every named specifier, in order; default and
    namespace specifiers push nothing, and none of these nodes has [lines]. *)
Theorem simple_import_declaration
    (fileName libraryName : string) (specifiers : list Ast.specifier)
    (n : Ast.node) (s : state) :
  Ast.shape_of n = Ast.ImportDeclaration libraryName specifiers ->
  Simple.visit fileName n s
  = Done (State
            (nodes s
             ++ Node libraryName (Some libraryName) "library" None
                :: List.map (fun name => Node (libraryName +:+ "/" +:+ Js.show name) name
                                           "imported-method" None)
                     (imported_names specifiers))
            (edges s
             ++ List.map (fun name => Edge fileName (libraryName +:+ "/" +:+ Js.show name)
                                        "imports")
                  (imported_names specifiers))).
Proof.
  intros Hshape. unfold Simple.visit. rewrite Hshape. f_equal.
  rewrite simple_import_specifiers.
  cbn [Simple.addNode push_node nodes edges]. rewrite <- app_assoc. reflexivity.
Qed.

Lemma simple_import_declaration_witness :
  Simple.visit "file.js" Samples.import_libX (State [] [])
  = Done (State [Node "libX" (Some "libX") "library" None;
                 Node "libX/foo" (Some "foo") "imported-method" None]
                [Edge "file.js" "libX/foo" "imports"]).
Proof.
  exact (simple_import_declaration "file.js" "libX" _ Samples.import_libX (State [] [])
           eq_refl).
Defined.

(** ** [includes] and [split] in [parseFile] *)

Lemma index_cut sep s :
  (exists k, String.index 0 sep s = Some k) <-> (exists p, Js.cut sep s = Some p).
Proof.
  induction s as [|c s IH].
  - destruct sep as [|a sep]; simpl; split; intros [x Hx]; try discriminate Hx; eauto.
  - cbn [String.index Js.cut]. destruct (String.prefix sep (String c s)).
    + split; intros _; eauto.
    + destruct (String.index 0 sep s) as [k|]; destruct (Js.cut sep s) as [[a b]|].
      * split; intros _; eauto.
      * destruct (proj1 IH (ex_intro _ k eq_refl)) as [p Hp]. discriminate Hp.
      * destruct (proj2 IH (ex_intro _ (a, b) eq_refl)) as [k Hk]. discriminate Hk.
      * split; intros [x Hx]; discriminate Hx.
Qed.

Lemma includes_split_1 sep s :
  Js.includes sep s = true <-> exists piece, Js.split_1 sep s = Some piece.
Proof.
  unfold Js.includes, Js.split_1. split.
  - intros Hinc. destruct (String.index 0 sep s) as [k|] eqn:Hk; [|discriminate Hinc].
    destruct (proj1 (index_cut sep s) (ex_intro _ k Hk)) as [[a b] Hp].
    rewrite Hp. eauto.
  - intros [piece Hpiece]. destruct (Js.cut sep s) as [[a b]|] eqn:Hp; [|discriminate Hpiece].
    destruct (proj2 (index_cut sep s) (ex_intro _ (a, b) Hp)) as [k Hk].
    rewrite Hk. reflexivity.
Qed.

Section ParseFileFacts.
Context {S : Type}.
Variable extname : string -> string.
Variable toLowerCase : string -> string.
Variable parseComponent : string -> option string.
Variable parseJavaScript : string -> string -> S -> outcome S * list console_entry.
Variable verbose : bool.

Lemma parseFile_script filePath content text s :
  script_text parseComponent (toLowerCase (extname filePath)) content text ->
  exists l0,
    parseFile extname toLowerCase parseComponent parseJavaScript verbose filePath content s
    = (fst (parseJavaScript filePath text s), l0 ++ snd (parseJavaScript filePath text s)).
Proof.
  intros Htext. unfold parseFile.
  destruct Htext as [Hext|script Hext Hcomp|piece Hext Hcomp Hinc Hsplit].
  - destruct (String.eqb_spec (toLowerCase (extname filePath)) ".vue") as [|_];
      [contradiction|].
    destruct (parseJavaScript filePath content s) as [o l]. eexists. reflexivity.
  - rewrite Hext. simpl String.eqb. cbv iota. rewrite Hcomp.
    destruct (parseJavaScript filePath script s) as [o l]. eexists.
    cbn [fst snd]. rewrite app_assoc. reflexivity.
  - rewrite Hext. simpl String.eqb. cbv iota. rewrite Hcomp, Hinc, Hsplit.
    destruct (parseJavaScript filePath _ s) as [o l]. eexists.
    cbn [fst snd]. rewrite app_assoc. reflexivity.
Qed.

Lemma parseFile_no_script filePath content s :
  toLowerCase (extname filePath) = ".vue" ->
  parseComponent content = None ->
  Js.includes "<script setup>" content = false ->
  fst (parseFile extname toLowerCase parseComponent parseJavaScript verbose
         filePath content s) = Done s.
Proof.
  intros Hext Hcomp Hinc. unfold parseFile. rewrite Hext. simpl String.eqb. cbv iota.
  rewrite Hcomp, Hinc. reflexivity.
Qed.
End ParseFileFacts.

(** X13. [parseFile] raises nothing of its own: where it reads
    [content.split("<script setup>")[1]] the separator has been found, so the
    piece is defined. Either the file is a [.vue] file with no script block
    and no [<script setup>], and the state is returned as it was, or
    [parseJavaScript] is run once, on the script text of the file, and its
    outcome is the outcome of [parseFile] and its console lines come last. *)
Theorem parseFile_runs_parseJavaScript_on_the_script
    {S : Type} (extname toLowerCase : string -> string)
    (parseComponent : string -> option string)
    (parseJavaScript : string -> string -> S -> outcome S * list console_entry)
    (verbose : bool) (filePath content : string) (s : S) :
  let result :=
    parseFile extname toLowerCase parseComponent parseJavaScript verbose filePath content s in
  (toLowerCase (extname filePath) = ".vue" /\ parseComponent content = None /\
   Js.includes "<script setup>" content = false /\ fst result = Done s) \/
  (exists text l0,
     script_text parseComponent (toLowerCase (extname filePath)) content text /\
     result = (fst (parseJavaScript filePath text s),
               l0 ++ snd (parseJavaScript filePath text s))).
Proof.
  intros result. subst result.
  destruct (String.eqb_spec (toLowerCase (extname filePath)) ".vue") as [Hext|Hext].
  - destruct (parseComponent content) as [script|] eqn:Hcomp.
    + right. exists script.
      destruct (parseFile_script extname toLowerCase parseComponent parseJavaScript verbose
                  filePath content script s) as [l0 Hl0].
      { apply text_vue_block; assumption. }
      exists l0. split; [apply text_vue_block; assumption | exact Hl0].
    + destruct (Js.includes "<script setup>" content) eqn:Hinc.
      * right. destruct (proj1 (includes_split_1 _ _) Hinc) as [piece Hpiece].
        exists (Js.split_0 "</script>" piece).
        destruct (parseFile_script extname toLowerCase parseComponent parseJavaScript verbose
                    filePath content (Js.split_0 "</script>" piece) s) as [l0 Hl0].
        { apply text_vue_setup; assumption. }
        exists l0. split; [apply text_vue_setup; assumption | exact Hl0].
      * left. split; [exact Hext|]. split; [reflexivity|]. split; [reflexivity|].
        apply parseFile_no_script; assumption.
  - right. exists content.
    destruct (parseFile_script extname toLowerCase parseComponent parseJavaScript verbose
                filePath content content s) as [l0 Hl0].
    { apply text_plain. exact Hext. }
    exists l0. split; [apply text_plain; exact Hext | exact Hl0].
Qed.

(** ** Nodes on which a visitor throws *)

Section WalkThrows.
Context {S : Type}.
Variable visit : Ast.node -> S -> outcome S.
Variable message : string.
Hypothesis visit_throws : forall n s,
  visit n s = if null_id_declaration n then Threw s message
              else Done (state_of (visit n s)).

Lemma walk_no_throw ast : forall s,
  existsb null_id_declaration ast = false ->
  walk_simple visit ast s = Done (state_of (walk_simple visit ast s)).
Proof.
  induction ast as [|n ast IH]; intros s Hno; [reflexivity|].
  cbn [existsb] in Hno. apply orb_false_iff in Hno. destruct Hno as [Hn Hast].
  cbn [walk_simple]. rewrite visit_throws, Hn. apply IH. exact Hast.
Qed.

Lemma walk_throws_at before n after s :
  existsb null_id_declaration before = false ->
  null_id_declaration n = true ->
  walk_simple visit (before ++ n :: after) s
  = Threw (state_of (walk_simple visit before s)) message.
Proof.
  revert s. induction before as [|m before IH]; intros s Hno Hn.
  - cbn [app walk_simple state_of]. rewrite visit_throws, Hn. reflexivity.
  - cbn [existsb] in Hno. apply orb_false_iff in Hno. destruct Hno as [Hm Hbefore].
    cbn [app walk_simple]. rewrite visit_throws, Hm. apply IH; assumption.
Qed.
End WalkThrows.

Lemma simple_visit_throws fileName n s :
  Simple.visit fileName n s
  = if null_id_declaration n then Threw s null_name_error
    else Done (state_of (Simple.visit fileName n s)).
Proof.
  unfold Simple.visit, null_id_declaration.
  destruct (Ast.shape_of n) as [[name|]|[name|]|key|idn [init|]|src sps|[callee|] args|
                                |[props|]|key vt|]; try reflexivity;
    destruct (is_function_literal _); reflexivity.
Qed.

Lemma registry_visit_throws fileName n s :
  Registry.visit fileName n s
  = if null_id_declaration n then Threw s null_name_error
    else Done (state_of (Registry.visit fileName n s)).
Proof.
  unfold Registry.visit, null_id_declaration.
  destruct (Ast.shape_of n) as [[name|]|[name|]|key|idn [init|]|src sps|[callee|] args|
                                |[props|]|key vt|]; try reflexivity;
    destruct (is_function_literal _); reflexivity.
Qed.

(** X14. In index.js and in the registry variant the walk of a tree throws
    exactly at its first function or class declaration without a name
    ([export default function () {}]): a tree with no such node is walked to
    the end, and otherwise the walk stops there with the TypeError of
    [node.id.name], the arrays holding what the nodes before it pushed and
    nothing of the nodes after it. *)
Theorem walk_stops_at_first_anonymous_declaration (fileName : string) :
  (forall ast s,
     existsb null_id_declaration ast = false ->
     walk_simple (Simple.visit fileName) ast s
     = Done (state_of (walk_simple (Simple.visit fileName) ast s))) /\
  (forall before n after s,
     existsb null_id_declaration before = false ->
     null_id_declaration n = true ->
     walk_simple (Simple.visit fileName) (before ++ n :: after) s
     = Threw (state_of (walk_simple (Simple.visit fileName) before s)) null_name_error) /\
  (forall ast s,
     existsb null_id_declaration ast = false ->
     walk_simple (Registry.visit fileName) ast s
     = Done (state_of (walk_simple (Registry.visit fileName) ast s))) /\
  (forall before n after s,
     existsb null_id_declaration before = false ->
     null_id_declaration n = true ->
     walk_simple (Registry.visit fileName) (before ++ n :: after) s
     = Threw (state_of (walk_simple (Registry.visit fileName) before s)) null_name_error).
Proof.
  split; [|split; [|split]].
  - apply (walk_no_throw _ null_name_error (simple_visit_throws fileName)).
  - apply (walk_throws_at _ null_name_error (simple_visit_throws fileName)).
  - apply (walk_no_throw _ null_name_error (registry_visit_throws fileName)).
  - apply (walk_throws_at _ null_name_error (registry_visit_throws fileName)).
Qed.

(** [function g(){}], [export default function(){}], [function h(){}]: [g] is
    recorded, [h] is not. *)
Lemma walk_stops_at_first_anonymous_declaration_witness :
  walk_simple (Simple.visit "m.js") Samples.tree_anonymous_export (State [] [])
  = Threw (State [Node "m.js:g" (Some "g") "method" (Some "[1-1]")] []) null_name_error /\
  walk_simple (Registry.visit "m.js") Samples.tree_anonymous_export
    (Registry.RState (State [] []) [])
  = Threw (Registry.RState (State [Node "m.js:g" (Some "g") "function" (Some "[1-1]")] [])
             [("m.js:g", Registry.Info "m.js" (Some "g") "function" (Some "[1-1]"))])
      null_name_error /\
  walk_simple (Simple.visit "m.js") [] (State [] []) = Done (State [] []) /\
  walk_simple (Registry.visit "m.js") [] (Registry.RState (State [] []) [])
  = Done (Registry.RState (State [] []) []).
Proof.
  destruct (walk_stops_at_first_anonymous_declaration "m.js") as (H1 & H2 & H3 & H4).
  split; [|split; [|split]].
  - exact (H2 [Ast.Mk (Ast.FunctionDeclaration (Some "g")) (Ast.Loc 1 1) None]
              (Ast.Mk (Ast.FunctionDeclaration None) (Ast.Loc 2 2) None)
              [Ast.Mk (Ast.FunctionDeclaration (Some "h")) (Ast.Loc 3 3) None]
              (State [] []) eq_refl eq_refl).
  - exact (H4 [Ast.Mk (Ast.FunctionDeclaration (Some "g")) (Ast.Loc 1 1) None]
              (Ast.Mk (Ast.FunctionDeclaration None) (Ast.Loc 2 2) None)
              [Ast.Mk (Ast.FunctionDeclaration (Some "h")) (Ast.Loc 3 3) None]
              (Registry.RState (State [] []) []) eq_refl eq_refl).
  - exact (H1 [] (State [] []) eq_refl).
  - exact (H3 [] (Registry.RState (State [] []) []) eq_refl).
Defined.

(** ** A file whose walk throws, within a scan *)

Section ScanThrows.
Context {S : Type}.
Variable extname : string -> string.
Variable path_join : string -> string -> string.
Variable toLowerCase : string -> string.
Variable parseComponent : string -> option string.
Variable parseJavaScript : string -> string -> S -> outcome S * list console_entry.
Variable verbose : bool.

Lemma scan_file_threw dir file content text s s1 message :
  existsb (String.eqb (toLowerCase (extname file))) allowedExtensions = true ->
  script_text parseComponent (toLowerCase (extname (path_join dir file))) content text ->
  fst (parseJavaScript (path_join dir file) text s) = Threw s1 message ->
  exists l,
    Warn ("Warning: Error parsing " +:+ path_join dir file +:+ ". " +:+ message) ∈ l /\
    scan_file extname path_join toLowerCase parseComponent parseJavaScript verbose
      dir file content s = (s1, l).
Proof.
  intros Hallowed Htext Hthrew. unfold scan_file. rewrite Hallowed.
  destruct (parseFile_script extname toLowerCase parseComponent parseJavaScript verbose
              (path_join dir file) content text s Htext) as [l0 ->].
  rewrite Hthrew. eexists. split; [|reflexivity].
  apply elem_of_app. right. apply elem_of_app. right. left.
Qed.

Lemma scan_threw dir pre file content post text message (after_throw : S -> S) s :
  existsb (String.eqb (toLowerCase (extname file))) allowedExtensions = true ->
  script_text parseComponent (toLowerCase (extname (path_join dir file))) content text ->
  (forall s', fst (parseJavaScript (path_join dir file) text s')
              = Threw (after_throw s') message) ->
  exists l,
    Warn ("Warning: Error parsing " +:+ path_join dir file +:+ ". " +:+ message) ∈ l /\
    scan extname path_join toLowerCase parseComponent parseJavaScript verbose
      dir (pre ++ FsFile file content :: post) s
    = (let '(s1, l1) := scan extname path_join toLowerCase parseComponent parseJavaScript
                          verbose dir pre s in
       let '(s2, l2) := scan extname path_join toLowerCase parseComponent parseJavaScript
                          verbose dir post (after_throw s1) in
       (s2, l1 ++ l ++ l2)).
Proof.
  intros Hallowed Htext Hthrew. rewrite scan_app.
  destruct (scan _ _ _ _ _ _ dir pre s) as [s1 l1]. simpl.
  destruct (scan_file_threw dir file content text s1 _ message Hallowed Htext (Hthrew s1))
    as (l & Hin & Hl).
  exists l. split; [exact Hin|]. rewrite Hl.
  destruct (scan _ _ _ _ _ _ dir post (after_throw s1)) as [s2 l2]. reflexivity.
Qed.
End ScanThrows.

(** X15. In index.js a file whose tree holds a declaration without a name
    does not stop the scan: the nodes and edges its earlier tree nodes pushed
    stay in the arrays, the console gets [Warning: Error parsing <path>.]
    with the TypeError's message, and the files listed after it are scanned
    from there. *)
Theorem simple_throwing_file_keeps_earlier_pushes
    (acorn_parse : string -> string + Ast.t) (basename extname : string -> string)
    (path_join : string -> string -> string) (toLowerCase : string -> string)
    (parseComponent : string -> option string)
    (dir : string) (pre post : list fsentry) (file content text : string)
    (before after : Ast.t) (n : Ast.node) (s : state) :
  existsb (String.eqb (toLowerCase (extname file))) allowedExtensions = true ->
  script_text parseComponent (toLowerCase (extname (path_join dir file))) content text ->
  acorn_parse text = inr (before ++ n :: after) ->
  existsb null_id_declaration before = false ->
  null_id_declaration n = true ->
  let scanD := Simple.scanDirectory acorn_parse basename extname path_join toLowerCase
                 parseComponent in
  exists l,
    Warn ("Warning: Error parsing " +:+ path_join dir file +:+ ". " +:+ null_name_error) ∈ l /\
    scanD dir (pre ++ FsFile file content :: post) s
    = (let '(s1, l1) := scanD dir pre s in
       let '(s2, l2) :=
         scanD dir post
           (state_of (walk_simple (Simple.visit (basename (path_join dir file))) before s1)) in
       (s2, l1 ++ l ++ l2)).
Proof.
  intros Hallowed Htext Hparse Hbefore Hn scanD.
  apply (scan_threw extname path_join toLowerCase parseComponent
           (Simple.parseJavaScript acorn_parse basename) true
           dir pre file content post text null_name_error
           (fun s' => state_of (walk_simple (Simple.visit (basename (path_join dir file)))
                                  before s'))
           s Hallowed Htext).
  intros s'. unfold Simple.parseJavaScript. rewrite Hparse. cbn [fst].
  apply (walk_throws_at _ null_name_error (simple_visit_throws _)); assumption.
Qed.

(** X15 at a directory with [m.js] = [function g(){}],
    [export default function(){}], [function h(){}], followed by a file with
    [function a(){}]. *)
Lemma simple_throwing_file_witness :
  let acorn_parse := fun text : string =>
    if String.eqb text "m" then inr Samples.tree_anonymous_export
    else inr [Ast.Mk (Ast.FunctionDeclaration (Some "a")) (Ast.Loc 1 1) None] in
  let scanD := Simple.scanDirectory acorn_parse (fun p => p) (fun _ => ".js")
                 (fun d f => d +:+ "/" +:+ f) (fun x => x) (fun _ => None) in
  exists l,
    Warn ("Warning: Error parsing src/m.js. " +:+ null_name_error) ∈ l /\
    scanD "src" ([] ++ FsFile "m.js" "m" :: [FsFile "a.js" "a"]) (State [] [])
    = (let '(s1, l1) := scanD "src" [] (State [] []) in
       let '(s2, l2) :=
         scanD "src" [FsFile "a.js" "a"]
           (state_of (walk_simple (Simple.visit "src/m.js")
                        [Ast.Mk (Ast.FunctionDeclaration (Some "g")) (Ast.Loc 1 1) None] s1)) in
       (s2, l1 ++ l ++ l2)).
Proof.
  intros acorn_parse scanD.
  apply (simple_throwing_file_keeps_earlier_pushes acorn_parse (fun p => p) (fun _ => ".js")
           (fun d f => d +:+ "/" +:+ f) (fun x => x) (fun _ => None)
           "src" [] [FsFile "a.js" "a"] "m.js" "m" "m"
           [Ast.Mk (Ast.FunctionDeclaration (Some "g")) (Ast.Loc 1 1) None]
           [Ast.Mk (Ast.FunctionDeclaration (Some "h")) (Ast.Loc 3 3) None]
           (Ast.Mk (Ast.FunctionDeclaration None) (Ast.Loc 2 2) None)
           (State [] [])).
  - reflexivity.
  - apply text_plain. intros Hne. discriminate Hne.
  - reflexivity.
  - reflexivity.
  - reflexivity.
Defined.


(** ** Entries the scan passes over, and how a scan composes *)

(** X16. An entry that is neither a file nor a directory, a directory named
    [node_modules], [.git], [build] or [dist] (with everything below it), and
    a file whose lower-cased extension is not one of [.js], [.jsx], [.ts],
    [.tsx], [.vue] leave no trace: the scan of a listing with such an entry
    equals, state and console, the scan of the listing without it. *)
Theorem scan_passes_over_skipped_entries
    {S : Type} (extname : string -> string) (path_join : string -> string -> string)
    (toLowerCase : string -> string) (parseComponent : string -> option string)
    (parseJavaScript : string -> string -> S -> outcome S * list console_entry)
    (verbose : bool) (dir : string) (pre post : list fsentry) (e : fsentry) (s : S) :
  skipped_entry extname toLowerCase e = true ->
  scanDirectory extname path_join toLowerCase parseComponent parseJavaScript verbose
    dir (pre ++ e :: post) s
  = scanDirectory extname path_join toLowerCase parseComponent parseJavaScript verbose
      dir (pre ++ post) s.
Proof.
  intros Hskip. unfold scanDirectory. rewrite !scan_app.
  destruct (scan _ _ _ _ _ _ dir pre s) as [s1 l1].
  assert (He : scan_entry extname path_join toLowerCase parseComponent parseJavaScript
                 verbose dir e s1 = (s1, [])).
  { destruct e as [file content|name entries|name].
    - cbn [skipped_entry] in Hskip. apply negb_true_iff in Hskip.
      cbn [scan_entry]. unfold scan_file. rewrite Hskip. reflexivity.
    - cbn [skipped_entry] in Hskip. rewrite scan_entry_dir, Hskip. reflexivity.
    - reflexivity. }
  cbn [scan]. rewrite He.
  destruct (scan _ _ _ _ _ _ dir post s1) as [s2 l2]. reflexivity.
Qed.

(** X16 at [node_modules] with a JavaScript file in it. *)
Lemma scan_passes_over_skipped_entries_witness :
  let acorn_parse := fun _ : string =>
    inr [Ast.Mk (Ast.FunctionDeclaration (Some "a")) (Ast.Loc 1 1) None] in
  let scanD :=
    scanDirectory (fun _ => ".js") (fun d f => d +:+ "/" +:+ f) (fun x => x)
      (fun _ => None) (Simple.parseJavaScript acorn_parse (fun p => p)) true in
  scanD "src" ([FsFile "a.js" "a"]
               ++ FsDir "node_modules" [FsFile "dep.js" "d"] :: [FsFile "b.js" "b"])
    (State [] [])
  = scanD "src" ([FsFile "a.js" "a"] ++ [FsFile "b.js" "b"]) (State [] []).
Proof.
  intros acorn_parse scanD.
  apply (scan_passes_over_skipped_entries (fun _ => ".js") (fun d f => d +:+ "/" +:+ f)
           (fun x => x) (fun _ => None) (Simple.parseJavaScript acorn_parse (fun p => p))
           true "src" [FsFile "a.js" "a"] [FsFile "b.js" "b"]
           (FsDir "node_modules" [FsFile "dep.js" "d"]) (State [] [])).
  reflexivity.
Defined.

(** X17. The scan is sequential and flattens the tree: a listing in two
    parts is scanned part after part, the second from the state the first
    left and with its console lines after the first's; and a sub-directory
    that is not ignored is scanned, where it stands in the listing, like a
    listing of its own under the joined path. *)
Theorem scan_is_sequential_and_descends
    {S : Type} (extname : string -> string) (path_join : string -> string -> string)
    (toLowerCase : string -> string) (parseComponent : string -> option string)
    (parseJavaScript : string -> string -> S -> outcome S * list console_entry)
    (verbose : bool) :
  let scanD :=
    scanDirectory extname path_join toLowerCase parseComponent parseJavaScript verbose in
  (forall dir pre post s,
     scanD dir (pre ++ post) s
     = (let '(s1, l1) := scanD dir pre s in
        let '(s2, l2) := scanD dir post s1 in
        (s2, l1 ++ l2))) /\
  (forall dir name entries rest s,
     existsb (String.eqb name) ignoreDirs = false ->
     scanD dir (FsDir name entries :: rest) s
     = (let '(s1, l1) := scanD (path_join dir name) entries s in
        let '(s2, l2) := scanD dir rest s1 in
        (s2, l1 ++ l2))).
Proof.
  intros scanD. subst scanD. unfold scanDirectory. split.
  - intros dir pre post s. apply scan_app.
  - intros dir name entries rest s Hname. cbn [scan].
    rewrite scan_entry_dir, Hname. reflexivity.
Qed.

(** X17 at [src/lib/a.js] followed by [src/b.js]. *)
Lemma scan_is_sequential_and_descends_witness :
  let acorn_parse := fun _ : string =>
    inr [Ast.Mk (Ast.FunctionDeclaration (Some "a")) (Ast.Loc 1 1) None] in
  let scanD :=
    scanDirectory (fun _ => ".js") (fun d f => d +:+ "/" +:+ f) (fun x => x)
      (fun _ => None) (Simple.parseJavaScript acorn_parse (fun p => p)) true in
  scanD "src" (FsDir "lib" [FsFile "a.js" "a"] :: [FsFile "b.js" "b"]) (State [] [])
  = (let '(s1, l1) := scanD "src/lib" [FsFile "a.js" "a"] (State [] []) in
     let '(s2, l2) := scanD "src" [FsFile "b.js" "b"] s1 in
     (s2, l1 ++ l2)).
Proof.
  intros acorn_parse scanD.
  destruct (scan_is_sequential_and_descends (fun _ => ".js") (fun d f => d +:+ "/" +:+ f)
              (fun x => x) (fun _ => None)
              (Simple.parseJavaScript acorn_parse (fun p => p)) true) as [_ Hdir].
  apply (Hdir "src" "lib" [FsFile "a.js" "a"] [FsFile "b.js" "b"] (State [] [])).
  reflexivity.
Defined.

(** ** What the registry variant prints and writes *)

Lemma filter_none {A : Type} (l : list A) : List.filter (fun _ => false) l = [].
Proof. induction l as [|x l IH]; [reflexivity | exact IH]. Qed.

(** X18. In the registry variant [displayResults()] with its default
    [filterAnonymous = true], the call of the [catch] block, prints no edge
    at all, since no edge object has a [label]; it prints the nodes of
    [displayResults(false)] whose label is non-empty and does not contain
    [anonymous], and leaves the arrays as [displayResults(false)] does. *)
Theorem registry_filtered_display_prints_no_edge (s : state) :
  Registry.rep_edges (fst (Registry.displayResults true s)) = [] /\
  Registry.rep_nodes (fst (Registry.displayResults true s))
  = List.filter (fun n => Registry.label_shown (node_label n))
      (Registry.rep_nodes (fst (Registry.displayResults false s))) /\
  snd (Registry.displayResults true s) = snd (Registry.displayResults false s).
Proof.
  unfold Registry.displayResults.
  destruct (Registry.deduplicate_globals s) as [r s']. cbn [fst snd].
  cbn [Registry.rep_edges Registry.rep_nodes].
  split; [|split; reflexivity].
  change (Registry.label_shown None) with false. apply filter_none.
Qed.

Lemma commas_append (a b : string) : commas (a +:+ b) = commas a + commas b.
Proof.
  induction a as [|x a IH]; [reflexivity|].
  change (commas (String x (a +:+ b)) = commas (String x a) + commas b).
  cbn [commas]. rewrite IH. lia.
Qed.

Lemma node_row_commas (n : node) :
  commas (Registry.node_row n)
  = 3 + commas (node_id n) + commas (Registry.csv_field (node_label n))
    + commas (node_type n) + commas (Registry.csv_field (node_lines n)).
Proof.
  unfold Registry.node_row. cbn [String.concat].
  rewrite !commas_append. change (commas ",") with 1. lia.
Qed.

(** X19. The rows of [<output>_nodes.csv] are joined with commas and nothing
    is quoted: a row has three commas more than its four fields hold. The
    merge of two line ranges writes a comma into [lines], so the row of a
    node observed twice has at least five columns under a four-column header. *)
Theorem csv_row_of_merged_node_has_extra_column :
  (forall n,
     commas (Registry.node_row n)
     = 3 + commas (node_id n) + commas (Registry.csv_field (node_label n))
       + commas (node_type n) + commas (Registry.csv_field (node_lines n))) /\
  (forall item existing il el,
     node_lines item = Some il -> node_lines existing = Some el ->
     il <> "" -> el <> "" ->
     4 <= commas (Registry.node_row (merge_lines item existing))).
Proof.
  split; [exact node_row_commas|].
  intros item existing il el Hil Hel Hnil Hnel.
  rewrite node_row_commas. unfold merge_lines. cbn [lines_of node_lined].
  rewrite Hil, Hel. unfold Js.truthy.
  destruct (String.eqb_spec il "") as [|_]; [contradiction|].
  destruct (String.eqb_spec el "") as [|_]; [contradiction|].
  cbn [negb andb set_lines node_lined node_lines Registry.csv_field].
  rewrite !commas_append. change (commas ", ") with 1. lia.
Qed.

Lemma csv_row_of_merged_node_witness :
  4 <= commas (Registry.node_row
                 (merge_lines (Node "x.js:f" (Some "f") "function" (Some "[2-4]"))
                    (Node "x.js:f" (Some "f") "function" (Some "[1-3]")))).
Proof.
  destruct csv_row_of_merged_node_has_extra_column as [_ Hmerged].
  apply (Hmerged _ _ "[2-4]" "[1-3]"); [reflexivity | reflexivity | |];
    intros Hne; discriminate Hne.
Defined.

(** ** Unparsable files in the other two variants *)

Lemma registry_unparsable_file_witness :
  let acorn_parse := fun text : string =>
    if String.eqb text "function (" then inl "Unexpected token (1:9)" else inr [] in
  let scanD := Registry.scanDirectory acorn_parse (fun p => p) (fun _ => ".js")
                 (fun d f => d +:+ "/" +:+ f) (fun x => x) (fun _ => None) in
  exists l,
    parse_warning "src/bad.js" "Unexpected token (1:9)" ∈ l /\
    scanD "src" ([] ++ FsFile "bad.js" "function (" :: [])
      (Registry.RState (State [] []) [])
    = (let '(s1, l1) := scanD "src" [] (Registry.RState (State [] []) []) in
       let '(s2, l2) := scanD "src" [] s1 in
       (s2, l1 ++ l ++ l2)).
Proof.
  intros acorn_parse scanD.
  apply (registry_unparsable_file_skipped acorn_parse (fun p => p) (fun _ => ".js")
           (fun d f => d +:+ "/" +:+ f) (fun x => x) (fun _ => None)
           "src" [] [] "bad.js" "function (" "function (" "Unexpected token (1:9)"
           (Registry.RState (State [] []) [])).
  - reflexivity.
  - apply text_plain. intros Hne. discriminate Hne.
  - reflexivity.
Defined.

Lemma args_unparsable_file_witness :
  let acorn_parse := fun text : string =>
    if String.eqb text "function (" then inl "Unexpected token (1:9)" else inr [] in
  let scanD := Args.scanDirectory acorn_parse (fun p => p) (fun _ => ".js")
                 (fun d f => d +:+ "/" +:+ f) (fun x => x) (fun _ => None) in
  exists l,
    parse_warning "src/bad.js" "Unexpected token (1:9)" ∈ l /\
    scanD "src" ([] ++ FsFile "bad.js" "function (" :: []) (State [] [])
    = (let '(s1, l1) := scanD "src" [] (State [] []) in
       let '(s2, l2) := scanD "src" [] s1 in
       (s2, l1 ++ l ++ l2)).
Proof.
  intros acorn_parse scanD.
  apply (args_unparsable_file_skipped acorn_parse (fun p => p) (fun _ => ".js")
           (fun d f => d +:+ "/" +:+ f) (fun x => x) (fun _ => None)
           "src" [] [] "bad.js" "function (" "function (" "Unexpected token (1:9)"
           (State [] [])).
  - reflexivity.
  - apply text_plain. intros Hne. discriminate Hne.
  - reflexivity.
Defined.

(** * Edge records and key strings *)

Lemma first_refs_sub {A : Type} (keyFn : A -> string) (h : list A) array :
  forall seen_keys r, r ∈ first_refs keyFn seen_keys array h -> r ∈ array.
Proof.
  induction array as [|x rest IH]; intros seen_keys r Hin; [inversion Hin|].
  cbn [first_refs] in Hin. destruct (key_at keyFn h x) as [k|].
  - destruct (existsb (String.eqb k) seen_keys).
    + right. apply (IH seen_keys). exact Hin.
    + apply elem_of_cons in Hin as [->|Hin]; [left | right; apply (IH _ _ Hin)].
  - right. apply (IH seen_keys). exact Hin.
Qed.

(** What the edge deduplication of index.js returns: the store as it was,
    references of the array only, a reference for the key of every edge of
    the array, and no two references with the same key. *)
Lemma kept_edges_spec (eh : list edge) (edges : list ref) :
  snd (SimpleDedup.deduplicate edge_key edges eh) = eh /\
  (forall r, r ∈ fst (SimpleDedup.deduplicate edge_key edges eh) -> r ∈ edges) /\
  (forall r e, r ∈ edges -> eh !! r = Some e ->
     exists r' e', r' ∈ fst (SimpleDedup.deduplicate edge_key edges eh) /\
                   eh !! r' = Some e' /\ edge_key e' = edge_key e) /\
  (forall k1 k2 e1 e2,
     k1 ∈ fst (SimpleDedup.deduplicate edge_key edges eh) ->
     k2 ∈ fst (SimpleDedup.deduplicate edge_key edges eh) ->
     eh !! k1 = Some e1 -> eh !! k2 = Some e2 -> edge_key e1 = edge_key e2 -> k1 = k2).
Proof.
  split; [|split].
  - rewrite simple_dedup_fold, (edge_loop_step eh edges [] []). reflexivity.
  - intros r. rewrite (simple_dedup_first_refs edge_key edge_key_set_lines).
    apply first_refs_sub.
  - rewrite simple_dedup_fold, (edge_loop_step eh edges [] []). cbn [fst].
    pose proof (edge_loop_invariant eh edges _ (edge_loop_inv_init eh)) as (Hwf & Hnd & _).
    destruct (edge_loop_covers eh edges [] []) as [_ Hcov].
    destruct (fold_left (GraphDedup.edge_step eh) edges ([], [])) as [ue refd].
    cbn [fst] in *. split.
    + intros r e Hin He.
      destruct (key_in_values edge_key ue eh (edge_key e) Hwf (Hcov r e Hin He))
        as (r' & e' & Hr' & He' & Hk).
      exists r', e'. auto.
    + intros k1 k2 e1 e2 H1 H2 He1 He2 Hk.
      apply list_elem_of_lookup_1 in H1 as [i Hi].
      apply list_elem_of_lookup_1 in H2 as [j Hj].
      destruct (Nat.eq_dec i j) as [->|Hij]; [congruence|].
      exfalso. apply (values_distinct_keys edge_key ue eh Hwf Hnd i j k1 k2 Hij Hi Hj).
      unfold key_at. rewrite He1, He2. simpl. rewrite Hk. reflexivity.
Qed.




(** * The argument rendering in the argument-tracking variant *)

(** C5, as the code has it. The argument-tracking variant writes the
    rendering into the edge's type, [calls(<rendering>)], and the type is part
    of the key string. Of two call edges of the array with the same source
    and target, each has a record in the result, and the two records are one
    record exactly when the two renderings are equal: with different
    renderings two edges remain. *)
Theorem C5_rendering_is_part_of_the_key :
  (forall fileName n callee args rendered s,
     Ast.shape_of n = Ast.CallExpression (Ast.Identifier callee) args ->
     Args.render_arguments args = Some rendered ->
     edges (state_of (Args.visit fileName n s))
     = edges s ++ [Edge (Args.callerName fileName n) callee
                     ("calls(" +:+ String.concat ", " rendered +:+ ")")]) /\
  (forall (eh : list edge) (edges nodes : list ref) (h : list node) r1 r2
          source target args1 args2,
     r1 ∈ edges -> r2 ∈ edges ->
     eh !! r1 = Some (Edge source target ("calls(" +:+ args1 +:+ ")")) ->
     eh !! r2 = Some (Edge source target ("calls(" +:+ args2 +:+ ")")) ->
     let kept := GraphDedup.res_edges (fst (GraphDedup.deduplicate nodes h edges eh)) in
     (exists k1 e1, k1 ∈ kept /\ eh !! k1 = Some e1 /\
        triple_text e1 = triple_text (Edge source target ("calls(" +:+ args1 +:+ ")"))) /\
     (exists k2 e2, k2 ∈ kept /\ eh !! k2 = Some e2 /\
        triple_text e2 = triple_text (Edge source target ("calls(" +:+ args2 +:+ ")"))) /\
     (forall k1 k2 e1 e2, k1 ∈ kept -> k2 ∈ kept ->
        eh !! k1 = Some e1 -> eh !! k2 = Some e2 ->
        triple_text e1 = triple_text (Edge source target ("calls(" +:+ args1 +:+ ")")) ->
        triple_text e2 = triple_text (Edge source target ("calls(" +:+ args2 +:+ ")")) ->
        (k1 = k2 <-> args1 = args2))).
Proof.
  split.
  - intros fileName n callee args rendered s Hshape Hrender. unfold Args.visit.
    rewrite Hshape, Hrender. cbn [state_of]. apply args_addEdge_edges.
  - intros eh edges nodes h r1 r2 source target args1 args2 Hin1 Hin2 Hr1 Hr2 kept.
    subst kept. rewrite graph_dedup_edges.
    destruct (kept_edges_spec eh edges) as (_ & _ & Hrep & Hone).
    split; [exact (Hrep r1 _ Hin1 Hr1)|]. split; [exact (Hrep r2 _ Hin2 Hr2)|].
    intros k1 k2 e1 e2 Hk1 Hk2 He1 He2 Ht1 Ht2. split.
    + intros <-. assert (e1 = e2) by congruence. subst e2.
      rewrite Ht1 in Ht2.
      apply (proj1 (edge_key_same_ends _ _ _ _)) in Ht2.
      apply (proj1 (calls_type_inj _ _)) in Ht2. exact Ht2.
    + intros <-. apply (Hone k1 k2 e1 e2 Hk1 Hk2 He1 He2).
      change (triple_text e1 = triple_text e2). rewrite Ht1, Ht2. reflexivity.
Qed.

(** C5 at the two calls of [f(1); f(2);]. *)
Lemma C5_rendering_witness :
  edges (state_of (Args.visit "a.js"
                     (Ast.Mk (Ast.CallExpression (Ast.Identifier "f")
                                [Ast.ArgLiteral (Some "1")]) (Ast.Loc 1 1) None)
                     (State [] [])))
  = [] ++ [Edge "a.js:anonymous[1]" "f" "calls(1)"] /\
  forall k1 k2 e1 e2,
    k1 ∈ [0; 1] -> k2 ∈ [0; 1] ->
    [Edge "a.js:anonymous[1]" "f" "calls(1)"; Edge "a.js:anonymous[1]" "f" "calls(2)"] !! k1
    = Some e1 ->
    [Edge "a.js:anonymous[1]" "f" "calls(1)"; Edge "a.js:anonymous[1]" "f" "calls(2)"] !! k2
    = Some e2 ->
    triple_text e1 = triple_text (Edge "a.js:anonymous[1]" "f" "calls(1)") ->
    triple_text e2 = triple_text (Edge "a.js:anonymous[1]" "f" "calls(2)") ->
    (k1 = k2 <-> "1" = "2").
Proof.
  destruct C5_rendering_is_part_of_the_key as [Hvisit Hkey].
  split.
  - exact (Hvisit "a.js"
             (Ast.Mk (Ast.CallExpression (Ast.Identifier "f") [Ast.ArgLiteral (Some "1")])
                (Ast.Loc 1 1) None)
             "f" [Ast.ArgLiteral (Some "1")] ["1"] (State [] []) eq_refl eq_refl).
  - assert (Hin0 : 0 ∈ [0; 1]) by left.
    assert (Hin1 : 1 ∈ [0; 1]) by (right; left).
    destruct (Hkey [Edge "a.js:anonymous[1]" "f" "calls(1)";
                    Edge "a.js:anonymous[1]" "f" "calls(2)"]
                [0; 1] [] [] 0 1 "a.js:anonymous[1]" "f" "1" "2"
                Hin0 Hin1 eq_refl eq_refl)
      as (_ & _ & Hiff).
    exact Hiff.
Defined.

(** C5 as the specification states it fails: the two calls of [f(1); f(2);],
    on one line of [a.js], have the same source and target and different
    argument renderings, and both edges are in the deduplicated result. *)
Lemma C5_different_arguments_stay_apart :
  let s := state_of (walk_simple (Args.visit "a.js") Samples.tree_two_calls (State [] [])) in
  edges s = [Edge "a.js:anonymous[1]" "f" "calls(1)";
             Edge "a.js:anonymous[1]" "f" "calls(2)"] /\
  GraphDedup.res_edges
    (fst (GraphDedup.deduplicate (seq 0 (length (nodes s))) (nodes s)
            (seq 0 (length (edges s))) (edges s)))
  = [0; 1] /\
  ~ (length (GraphDedup.res_edges
       (fst (GraphDedup.deduplicate (seq 0 (length (nodes s))) (nodes s)
               (seq 0 (length (edges s))) (edges s)))) = 1).
Proof.
  split; [vm_compute; reflexivity|]. split; [vm_compute; reflexivity|].
  vm_compute. discriminate.
Qed.

(** * The caller of a call *)

(** C2 on the code. No node of a parsed tree has a [parent], so the loops
    over [parent.parent] end before their first round: in the registry
    variant [getEnclosingFunctionName] answers [global] and every edge of a
    call leaves [fileName:global]; in the argument-tracking variant the
    caller is [fileName:anonymous[line]]. At [function b(){}] followed by
    [function a(){ b(); }], whose call stands within the lines of [a], the
    registry variant records the call from [x.js:global] and the
    argument-tracking variant from [x.js:anonymous[3]], neither from [x.js:a]. *)
Theorem C2_enclosing_function_never_found :
  (forall sh l, Registry.getEnclosingFunctionName (Ast.Mk sh l None) = "global") /\
  (forall fileName sh l,
     Args.callerName fileName (Ast.Mk sh l None)
     = fileName +:+ ":anonymous[" +:+ pretty (Ast.start_line l) +:+ "]") /\
  (forall fileName callee args l s,
     exists added,
       edges (Registry.graph
                (state_of (Registry.visit fileName
                             (Ast.Mk (Ast.CallExpression (Ast.Identifier callee) args) l None)
                             s)))
       = edges (Registry.graph s) ++ added /\
       Forall (fun e => edge_source e = fileName +:+ ":global" /\ edge_type e = "calls")
         added) /\
  within (Ast.loc_of Samples.call_in_a) (Ast.loc_of Samples.decl_a) = true /\
  edges (Registry.graph
           (state_of (walk_simple (Registry.visit "x.js") Samples.tree_call_inside
                        (Registry.RState (State [] []) []))))
  = [Edge "x.js:global" "x.js:b" "calls"] /\
  edges (state_of (walk_simple (Args.visit "x.js") Samples.tree_call_inside (State [] [])))
  = [Edge "x.js:anonymous[3]" "b" "calls()"].
Proof.
  split; [reflexivity|]. split; [reflexivity|]. split.
  - intros fileName callee args l s. cbn [Registry.visit Ast.shape_of state_of].
    apply call_entries_edges.
  - split; [reflexivity|]. split; vm_compute; reflexivity.
Qed.


(** * Line ranges of the observations of one entity *)





Section ScannedLines.
Variable acorn_parse : string -> string + Ast.t.
Variables basename extname : string -> string.
Variable path_join : string -> string -> string.
Variable toLowerCase : string -> string.
Variable parseComponent : string -> option string.
Variable directory : string.
Variable entries : list fsentry.



End ScannedLines.



